(** * segment_saver: reconciliation, alignment, segment pipeline, playlist
      window and pacing of one harvesting cycle.

    A shallow embedding of the class [segment_saver] and a verification of
    its natural-language specification.  JavaScript strings are [string],
    arrays are [list], numbers are [Z], or [N] for a media-sequence number
    (integral values; no rounding is modelled), [null] and [undefined] are
    [None].  Calls that leave the process are recorded in a history and
    answered by an environment.

    The class [delayed_tick] of util/i_destroyable.js is embedded as a
    state machine over the timeouts it creates (module [DelayedTick]). *)

From Stdlib Require Import ZArith List Bool Lia.
From Stdlib Require Import Strings.Ascii Strings.String Numbers.DecimalString.
From Stdlib Require Import Numbers.DecimalN Numbers.DecimalZ.
From Stdlib Require Numbers.HexadecimalString Numbers.HexadecimalN.
Import ListNotations.

Open Scope string_scope.
Open Scope list_scope.
Open Scope Z_scope.

(* ================================================================== *)
(** * Strings as JavaScript uses them here *)
(* ================================================================== *)

Module Js.

(** The line feed of the template literal and of [join('\n')]. *)
Definition LF : ascii := ascii_of_nat 10.

(** [`${x}`] and [+] on a value that may be [undefined]. *)
Definition str (o : option string) : string :=
  match o with Some s => s | None => "undefined" end.

(** [`${z}`] for an integral number. *)
Definition show_Z (z : Z) : string := NilEmpty.string_of_int (Z.to_int z).

(** [`${n}`] for a non-negative integral number; [None] is [NaN]. *)
Definition show_N (n : option N) : string :=
  match n with
  | Some k => NilEmpty.string_of_uint (N.to_uint k)
  | None => "NaN"
  end.

Fixpoint has_char (c : ascii) (s : string) : bool :=
  match s with
  | EmptyString => false
  | String a s' => Ascii.eqb a c || has_char c s'
  end.

(** [s.split(c).pop()]: what follows the last [c], all of [s] if there
    is none. *)
Fixpoint split_pop (c : ascii) (s : string) : string :=
  match s with
  | EmptyString => EmptyString
  | String a s' =>
      if has_char c s' then split_pop c s'
      else if Ascii.eqb a c then s' else s
  end.

Fixpoint starts_with (p s : string) : bool :=
  match p, s with
  | EmptyString, _ => true
  | String a p', String b s' => Ascii.eqb a b && starts_with p' s'
  | String _ _, EmptyString => false
  end.

(** [s.includes(p)]. *)
Fixpoint includes (p s : string) : bool :=
  starts_with p s ||
  match s with
  | EmptyString => false
  | String _ s' => includes p s'
  end.

Definition ends_with (suffix s : string) : bool :=
  String.eqb
    (substring (String.length s - String.length suffix)
               (String.length suffix) s)
    suffix
  && (String.length suffix <=? String.length s)%nat.

(** Node's [path.extname] on a name without ['/'] (every name it is given
    here is the result of [split('/').pop()]): from the last dot on;
    empty when there is no dot, when the only dot leads the name, and
    for [".."]. *)
Definition extname (name : string) : string :=
  if has_char "." name then
    let ext := String "." (split_pop "." name) in
    if String.eqb ext name then EmptyString
    else if String.eqb name ".." then EmptyString
    else ext
  else EmptyString.

(** Node's [path.basename(name, ext)] on a name without ['/']. *)
Definition basename (name ext : string) : string :=
  if String.eqb ext EmptyString then name
  else if String.eqb ext name then EmptyString
  else if ends_with ext name
       then substring 0 (String.length name - String.length ext) name
       else name.

Definition is_digit (c : ascii) : bool :=
  let n := nat_of_ascii c in ((48 <=? n) && (n <=? 57))%nat.

(** The longest prefix of decimal digits, and what follows it. *)
Fixpoint span_digits (s : string) : string * string :=
  match s with
  | EmptyString => (EmptyString, EmptyString)
  | String c s' =>
      if is_digit c
      then let '(d, r) := span_digits s' in (String c d, r)
      else (EmptyString, s)
  end.

(** [s.replace(/^\D+/g, '')]: drop the leading run of non-digits. *)
Fixpoint strip_leading_non_digits (s : string) : string :=
  match s with
  | EmptyString => EmptyString
  | String c s' => if is_digit c then s else strip_leading_non_digits s'
  end.

(** [parseInt(s)] for an [s] that does not start with white space, a
    sign or ["0x"], the only arguments the class passes: the value of
    the leading decimal digits, [NaN] ([None]) when there is none.
    Numbers are unbounded here; a double is exact up to 2^53. *)
Definition parseInt (s : string) : option N :=
  match fst (span_digits s) with
  | EmptyString => None
  | ds => option_map N.of_uint (NilEmpty.uint_of_string ds)
  end.

(** Two characters the flag [i] identifies: equal after ASCII letters
    are upper-cased. *)
Definition upcase (c : ascii) : ascii :=
  let n := nat_of_ascii c in
  if ((97 <=? n) && (n <=? 122))%nat then ascii_of_nat (n - 32) else c.

Definition ci_eqb (a b : ascii) : bool := Ascii.eqb (upcase a) (upcase b).

(** A case-insensitive match of the literal [p] at the head of [s]: the
    matched text and the rest. *)
Fixpoint ci_prefix (p s : string) : option (string * string) :=
  match p, s with
  | EmptyString, _ => Some (EmptyString, s)
  | String a p', String b s' =>
      if ci_eqb a b then
        match ci_prefix p' s' with
        | Some (m, r) => Some (String b m, r)
        | None => None
        end
      else None
  | String _ _, EmptyString => None
  end.

(** [s.slice(0, -1)]. *)
Definition drop_last (s : string) : string :=
  substring 0 (String.length s - 1) s.

(** [a.join(sep)]. *)
Definition join (sep : ascii) (a : list string) : string :=
  String.concat (String sep EmptyString) a.

(** [a.indexOf(x)] with [-1] as [None]; [x] may be [undefined], which no
    element of an array of strings equals. *)
Fixpoint indexOf (x : option string) (a : list string) : option nat :=
  match a with
  | [] => None
  | y :: a' =>
      if match x with Some v => String.eqb y v | None => false end
      then Some 0%nat
      else option_map S (indexOf x a')
  end.

Fixpoint remove_nth {A : Type} (k : nat) (a : list A) : list A :=
  match k, a with
  | _, [] => []
  | O, _ :: a' => a'
  | S k', y :: a' => y :: remove_nth k' a'
  end.

(** [a.splice(i, 1)] where [i] is the result of [indexOf]: the start
    [-1] counts from the end and removes the last element. *)
Definition splice1 {A : Type} (i : option nat) (a : list A) : list A :=
  match i with
  | Some k => remove_nth k a
  | None => removelast a
  end.

(** [a[0] = x]; on an empty array the assignment creates the element. *)
Definition set_first {A : Type} (x : A) (a : list A) : list A :=
  match a with
  | [] => [x]
  | _ :: a' => x :: a'
  end.

End Js.

(* ================================================================== *)
(** * The media-sequence pattern *)
(* ================================================================== *)

Definition media_sequence_tag : string := "#EXT-X-MEDIA-SEQUENCE:".

(** A match of [/#EXT-X-MEDIA-SEQUENCE:\d+/i] that starts at the head of
    [s]: the matched text and what follows.  [\d+] is greedy and nothing
    follows it in the pattern, so it takes every digit. *)
Definition match_here (s : string) : option (string * string) :=
  match Js.ci_prefix media_sequence_tag s with
  | Some (m, r) =>
      match Js.span_digits r with
      | (EmptyString, _) => None
      | (d, r') => Some ((m ++ d)%string, r')
      end
  | None => None
  end.

(** [regEx.exec(s)] for that pattern (no flag [g], so the search starts at
    0): the leftmost match, as (text before, matched text, text after);
    [None] is [null]. *)
Fixpoint regEx_exec (s : string) : option (string * string * string) :=
  match match_here s with
  | Some (m, r) => Some (EmptyString, m, r)
  | None =>
      match s with
      | EmptyString => None
      | String c s' =>
          match regEx_exec s' with
          | Some (pre, m, post) => Some (String c pre, m, post)
          | None => None
          end
      end
  end.

(* ================================================================== *)
(** * The segment index and the object *)
(* ================================================================== *)

(** Modelled from the spec: the class [segment_index] and its references
    (imported from media/segment_index.js, which is not part of the
    sources at hand).  Section 6 of the specification gives the interface:
    ordered references, each exposing an initialization-segment URI, a
    playable URI, a start time and an end time;
    [forEachTopLevelReference] visits [references] in order. *)
Record segment_reference := {
  initSegmentUri : string;   (* initSegmentReference.getUris()[0] *)
  uri : string;              (* getUrisInner()[0] *)
  startTime : Z;
  endTime : Z
}.

Record segment_index := { references : list segment_reference }.

Definition forEachTopLevelReference {S : Type}
    (idx : segment_index) (f : S -> segment_reference -> S) (s : S) : S :=
  fold_left f (references idx) s.

(** The fields of a [segment_saver] that the methods below read or write.
    The four fields that [clearReference_] sets to [undefined] are
    options. *)
Record segment_saver := {
  audioSegmentURIList_ : list string;
  audioSegmentDurationList_ : list Z;
  videoSegmentURIList_ : list string;
  videoSegmentDurationList_ : list Z;
  maxSegmentNum_ : Z;
  audioPLName_ : string;
  videoPLName_ : string;
  savePath_ : string;
  mergePath_ : string;
  decryptKey_ : option string;
  keyId_ : option string;
  decryptScript_ : option string;
  resultPath_ : option string
}.

Definition set_audio (this : segment_saver) (u : list string) (d : list Z) :=
  {| audioSegmentURIList_ := u; audioSegmentDurationList_ := d;
     videoSegmentURIList_ := videoSegmentURIList_ this;
     videoSegmentDurationList_ := videoSegmentDurationList_ this;
     maxSegmentNum_ := maxSegmentNum_ this;
     audioPLName_ := audioPLName_ this; videoPLName_ := videoPLName_ this;
     savePath_ := savePath_ this; mergePath_ := mergePath_ this;
     decryptKey_ := decryptKey_ this; keyId_ := keyId_ this;
     decryptScript_ := decryptScript_ this;
     resultPath_ := resultPath_ this |}.

Definition set_video (this : segment_saver) (u : list string) (d : list Z) :=
  {| audioSegmentURIList_ := audioSegmentURIList_ this;
     audioSegmentDurationList_ := audioSegmentDurationList_ this;
     videoSegmentURIList_ := u; videoSegmentDurationList_ := d;
     maxSegmentNum_ := maxSegmentNum_ this;
     audioPLName_ := audioPLName_ this; videoPLName_ := videoPLName_ this;
     savePath_ := savePath_ this; mergePath_ := mergePath_ this;
     decryptKey_ := decryptKey_ this; keyId_ := keyId_ this;
     decryptScript_ := decryptScript_ this;
     resultPath_ := resultPath_ this |}.

(* ================================================================== *)
(** * Track reconciliation: [getSegmentInfoList_] *)
(* ================================================================== *)

(** The variables the callback of [forEachTopLevelReference] closes
    over. *)
Record scan := {
  foundLatestName : bool;
  totalList : list string;
  totalSegList : list Z;
  segmentURIList : list string;
  segmentDurationList : list Z
}.

(** [segURI == lastSegmentURI], where [lastSegmentURI] may be [null]. *)
Definition uri_equals (segURI : string) (lastSegmentURI : option string) : bool :=
  match lastSegmentURI with
  | Some l => String.eqb segURI l
  | None => false
  end.

(** One call of the callback. *)
Definition visit (lastSegmentURI : option string) (st : scan)
    (ref : segment_reference) : scan :=
  let segURI := uri ref in
  let segDuration := endTime ref - startTime ref in
  {| foundLatestName := foundLatestName st || uri_equals segURI lastSegmentURI;
     totalList := totalList st ++ [segURI];
     totalSegList := totalSegList st ++ [segDuration];
     segmentURIList :=
       if foundLatestName st then segmentURIList st ++ [segURI]
       else segmentURIList st;
     segmentDurationList :=
       if foundLatestName st then segmentDurationList st ++ [segDuration]
       else segmentDurationList st |}.

(** [a.slice(k)] for an integral [k >= 0]. *)
Definition slice_from {A : Type} (k : Z) (a : list A) : list A :=
  skipn (Z.to_nat k) a.

(** The two local lists at the end of [getSegmentInfoList_]; [None] is the
    early [return] on an index without references. *)
Definition segmentInfo (maxSegmentNum : Z) (segmentIndex : segment_index)
    (lastSegmentURI : option string) : option (list string * list Z) :=
  match references segmentIndex with
  | [] => None
  | ref0 :: _ =>
      let st := forEachTopLevelReference segmentIndex (visit lastSegmentURI)
                  {| foundLatestName := false; totalList := [];
                     totalSegList := [];
                     segmentURIList := [initSegmentUri ref0];
                     segmentDurationList := [0] |} in
      if (Nat.eqb (List.length (segmentURIList st)) 1
          && (0 <=? Z.of_nat (List.length (totalList st))))%bool
      then
        let firstIndex :=
          Z.max 0 (Z.of_nat (List.length (totalList st)) - maxSegmentNum) in
        Some (segmentURIList st ++ slice_from firstIndex (totalList st),
              segmentDurationList st ++ slice_from firstIndex (totalSegList st))
      else Some (segmentURIList st, segmentDurationList st)
  end.

Definition getSegmentInfoList_ (this : segment_saver)
    (segmentIndex : segment_index) (isAudio : bool)
    (lastSegmentURI : option string) : segment_saver :=
  match segmentInfo (maxSegmentNum_ this) segmentIndex lastSegmentURI with
  | None => this
  | Some (u, d) => if isAudio then set_audio this u d else set_video this u d
  end.

(** The continuity token [{ audio, video }]. *)
Record token := { audio : option string; video : option string }.

(** The constructor, as far as the object's fields go.  Its log lines and
    the creation of missing directories leave the fields untouched. *)
Definition constructor (audioSegmentIndex videoSegmentIndex : segment_index)
    (key keyId decryptScript resultPath downloadPath mergePath : string)
    (maxSegmentNum : Z) (audioPLName videoPLName : string)
    (lastSegmentURI : token) : segment_saver :=
  let this :=
    {| audioSegmentURIList_ := []; audioSegmentDurationList_ := [];
       videoSegmentURIList_ := []; videoSegmentDurationList_ := [];
       maxSegmentNum_ := maxSegmentNum;
       audioPLName_ := audioPLName; videoPLName_ := videoPLName;
       savePath_ := downloadPath; mergePath_ := mergePath;
       decryptKey_ := None; keyId_ := None; decryptScript_ := None;
       resultPath_ := None |} in
  let this := getSegmentInfoList_ this audioSegmentIndex true
                (audio lastSegmentURI) in
  let this := getSegmentInfoList_ this videoSegmentIndex false
                (video lastSegmentURI) in
  {| audioSegmentURIList_ := audioSegmentURIList_ this;
     audioSegmentDurationList_ := audioSegmentDurationList_ this;
     videoSegmentURIList_ := videoSegmentURIList_ this;
     videoSegmentDurationList_ := videoSegmentDurationList_ this;
     maxSegmentNum_ := maxSegmentNum_ this;
     audioPLName_ := audioPLName_ this; videoPLName_ := videoPLName_ this;
     savePath_ := savePath_ this; mergePath_ := mergePath_ this;
     decryptKey_ := Some key; keyId_ := Some keyId;
     decryptScript_ := Some decryptScript;
     resultPath_ := Some resultPath |}.

Definition clearReference_ (this : segment_saver) : segment_saver :=
  {| audioSegmentURIList_ := []; audioSegmentDurationList_ := [];
     videoSegmentURIList_ := []; videoSegmentDurationList_ := [];
     maxSegmentNum_ := maxSegmentNum_ this;
     audioPLName_ := audioPLName_ this; videoPLName_ := videoPLName_ this;
     savePath_ := savePath_ this; mergePath_ := mergePath_ this;
     decryptKey_ := None; keyId_ := None; decryptScript_ := None;
     resultPath_ := None |}.

(* ================================================================== *)
(** * The outside world *)
(* ================================================================== *)

(** Modelled from the spec: the class [error] of util/error.js, which is
    not part of the sources at hand.  Section 7 of the specification: an
    error value carries a severity, a category and a stable code; each
    member of the three enumerations is identified by its name. *)
Record error := { severity : string; category : string; code : string }.

Module Severity.
Definition CRITICAL : string := "CRITICAL".
End Severity.

Module Category.
Definition SEGMENT : string := "SEGMENT".
End Category.

Module Code.
Definition SEGMENT_MANIPULATION_FAILED : string :=
  "SEGMENT_MANIPULATION_FAILED".
End Code.

(** What a cycle can throw. *)
Inductive exn :=
| StructuredError (e : error)   (* throw new error(...) *)
| TypeError                     (* a property read on null or undefined *)
| FsError (path : string)       (* thrown by fs or fs-extra *)
| NetError (url : string).      (* the download promise rejected *)

Definition is_structured (x : exn) : bool :=
  match x with StructuredError _ => true | _ => false end.

(** The calls that leave the process, with what came back. *)
Inductive event :=
| Download (url dest : string) (ok : bool)
| MergeFiles (inputs : list string) (output : string) (status : bool)
| Exec (command : string) (exit_code : Z)
| Unlink (path : string) (ok : bool)
| WriteFile (path content : string) (ok : bool)
| EmptyDir (path : string) (ok : bool)
| DateNow (millis : Z)
| Sleep (millis : Z).

(** The collaborators: each answers from the calls made so far and the
    arguments of the call. *)
Record environment := {
  download_ok : list event -> string -> string -> bool;
  merge_status : list event -> list string -> string -> bool;
  exec_code : list event -> string -> Z;
  unlink_ok : list event -> string -> bool;
  write_ok : list event -> string -> string -> bool;
  emptydir_ok : list event -> string -> bool;
  clock : list event -> Z;
  appRoot_path : string
}.

Inductive track := Audio | Video.

(** The object, the two playlist arrays the caller passed (they are
    mutated in place) and the calls made so far, oldest first.  The two
    arrays are taken to be distinct objects. *)
Record world := {
  this : segment_saver;
  audioMediaPLTemplate : list string;
  videoMediaPLTemplate : list string;
  history : list event
}.

Definition M (A : Type) : Type := world -> world * (exn + A).

Definition ret {A : Type} (a : A) : M A := fun w => (w, inr a).

Definition throw {A : Type} (x : exn) : M A := fun w => (w, inl x).

Definition bind {A B : Type} (m : M A) (k : A -> M B) : M B :=
  fun w =>
    match m w with
    | (w', inr a) => k a w'
    | (w', inl x) => (w', inl x)
    end.

Declare Scope cycle_scope.
Delimit Scope cycle_scope with cycle.
Notation "x <- m ;; k" := (bind m (fun x => k))
  (at level 61, m at next level, right associativity) : cycle_scope.
Notation "m ;; k" := (bind m (fun _ => k))
  (at level 61, right associativity) : cycle_scope.
Open Scope cycle_scope.

Definition record (e : event) (w : world) : world :=
  {| this := this w;
     audioMediaPLTemplate := audioMediaPLTemplate w;
     videoMediaPLTemplate := videoMediaPLTemplate w;
     history := history w ++ [e] |}.

Definition mediaPlaylistTemplate (t : track) (w : world) : list string :=
  match t with
  | Audio => audioMediaPLTemplate w
  | Video => videoMediaPLTemplate w
  end.

Definition with_template (t : track) (a : list string) (w : world) : world :=
  match t with
  | Audio => {| this := this w; audioMediaPLTemplate := a;
                videoMediaPLTemplate := videoMediaPLTemplate w;
                history := history w |}
  | Video => {| this := this w;
                audioMediaPLTemplate := audioMediaPLTemplate w;
                videoMediaPLTemplate := a; history := history w |}
  end.

Definition with_this (o : segment_saver) (w : world) : world :=
  {| this := o; audioMediaPLTemplate := audioMediaPLTemplate w;
     videoMediaPLTemplate := videoMediaPLTemplate w;
     history := history w |}.

Definition get_template (t : track) : M (list string) :=
  fun w => (w, inr (mediaPlaylistTemplate t w)).

Definition put_template (t : track) (a : list string) : M unit :=
  fun w => (with_template t a w, inr tt).

Definition get_this : M segment_saver := fun w => (w, inr (this w)).

Section Cycle.

Variable env : environment.

Definition socks5_http_download (url dest : string) : M unit :=
  fun w =>
    let ok := download_ok env (history w) url dest in
    (record (Download url dest ok) w,
     if ok then inr tt else inl (NetError url)).

Definition mergeFiles (inputs : list string) (output : string) : M bool :=
  fun w =>
    let status := merge_status env (history w) inputs output in
    (record (MergeFiles inputs output status) w, inr status).

Definition shell_exec (command : string) : M Z :=
  fun w =>
    let c := exec_code env (history w) command in
    (record (Exec command c) w, inr c).

Definition unlinkSync (path : string) : M unit :=
  fun w =>
    let ok := unlink_ok env (history w) path in
    (record (Unlink path ok) w, if ok then inr tt else inl (FsError path)).

Definition writeFileSync (path content : string) : M unit :=
  fun w =>
    let ok := write_ok env (history w) path content in
    (record (WriteFile path content ok) w,
     if ok then inr tt else inl (FsError path)).

Definition emptyDirSync (path : string) : M unit :=
  fun w =>
    let ok := emptydir_ok env (history w) path in
    (record (EmptyDir path ok) w, if ok then inr tt else inl (FsError path)).

Definition Date_now : M Z :=
  fun w => let t := clock env (history w) in (record (DateNow t) w, inr t).

Definition sleep_ (millis : Z) : M unit :=
  fun w => (record (Sleep millis) w, inr tt).

End Cycle.

(* ================================================================== *)
(** * Track alignment (the head of [processSegmentList]) *)
(* ================================================================== *)

(** [this.videoSegmentURIList_.pop()] and [this.audioSegmentURIList_.pop()]:
    only the URI arrays are touched. *)
Definition pop_video (o : segment_saver) : segment_saver :=
  set_video o (removelast (videoSegmentURIList_ o))
              (videoSegmentDurationList_ o).

Definition pop_audio (o : segment_saver) : segment_saver :=
  set_audio o (removelast (audioSegmentURIList_ o))
              (audioSegmentDurationList_ o).

Definition alignTracks (o : segment_saver) : segment_saver :=
  if negb (Nat.eqb (List.length (audioSegmentURIList_ o))
                   (List.length (videoSegmentURIList_ o)))
  then
    let sizeOffest := Z.of_nat (List.length (videoSegmentURIList_ o))
                      - Z.of_nat (List.length (audioSegmentURIList_ o)) in
    Nat.iter (Z.to_nat (Z.abs sizeOffest))
             (fun o' => if 0 <? sizeOffest then pop_video o' else pop_audio o')
             o
  else o.

(* ================================================================== *)
(** * The playlist window and the segment pipeline *)
(* ================================================================== *)

Definition pathSuffix (t : track) : string :=
  match t with Audio => "audio/" | Video => "video/" end.

Definition initFile : string := "init.mp4".

Definition extinf_marker : string := "#EXTINF:".

(** The elements of the playlist array that count as segment entries. *)
Definition segmentItems (a : list string) : list string :=
  filter (Js.includes extinf_marker) a.

Definition entry_count (a : list string) : nat := List.length (segmentItems a).

(** The element the code pushes for a segment: two lines in one string. *)
Definition segmentTemplate (segmentDuration : option Z) (newSegmentUri : string)
  : string :=
  (extinf_marker ++ Js.str (option_map Js.show_Z segmentDuration) ++ ","
   ++ String Js.LF newSegmentUri)%string.

Definition segment_manipulation_failed : exn :=
  StructuredError {| severity := Severity.CRITICAL;
                     category := Category.SEGMENT;
                     code := Code.SEGMENT_MANIPULATION_FAILED |}.

(** The variables of [processSegmentList] that outlive one pass of its
    loops ([segmentDuration] is declared with [var]). *)
Record locals := {
  lastAudioURI : option string;
  lastVideoURI : option string;
  segmentDuration : option Z
}.

(** Lines 292-296 on the first element of the playlist array: the element
    with the number of its first media-sequence directive increased by
    one; [None] when the pattern does not match, where the code reads
    index 0 of [null]. *)
Definition bumpMediaSequence (first : string) : option string :=
  match regEx_exec first with
  | None => None
  | Some (pre, m, post) =>
      let oldSequenceNumber := Js.parseInt (Js.strip_leading_non_digits m) in
      let newSequenceNumber := option_map N.succ oldSequenceNumber in
      let mediaSequenceStr :=
        (media_sequence_tag ++ Js.show_N newSequenceNumber)%string in
      Some (pre ++ mediaSequenceStr ++ post)%string
  end.

(** The names [processSegmentList] derives from a segment's URL. *)
Definition segmentName (url : string) : string := Js.split_pop "/" url.

Definition saveName (o : segment_saver) (t : track) (url : string) : string :=
  (savePath_ o ++ pathSuffix t ++ segmentName url)%string.

Definition inputPathList (o : segment_saver) (t : track) (url : string)
  : list string :=
  [(savePath_ o ++ pathSuffix t ++ initFile)%string; saveName o t url].

Definition mergeFileName (o : segment_saver) (t : track) (url : string)
  : string :=
  (mergePath_ o ++ pathSuffix t ++ segmentName url)%string.

Definition nameOnly (url : string) : string :=
  Js.basename (segmentName url) (Js.extname (segmentName url)).

Definition resultFileRelativePath (t : track) (url : string) : string :=
  (pathSuffix t ++ nameOnly url ++ ".mp4")%string.

Definition mediaPlaylistPath (o : segment_saver) (t : track) : string :=
  (Js.str (resultPath_ o) ++ pathSuffix t
   ++ match t with Audio => audioPLName_ o | Video => videoPLName_ o end)%string.

Section Pipeline.

Variable env : environment.

(** Lines 268-301: the update of the playlist array and file once a
    segment is decrypted. *)
Definition updateMediaPlaylist (t : track) (playlistPath : string)
    (duration : option Z) (nameOnly : string) : M unit :=
  o <- get_this ;;
  let newSegmentUri := (nameOnly ++ ".mp4")%string in
  let item := segmentTemplate duration newSegmentUri in
  a <- get_template t ;;
  let segmentItemList := segmentItems a in
  (if Z.of_nat (List.length segmentItemList) =? maxSegmentNum_ o then
     let oldItem := hd_error segmentItemList in
     put_template t (Js.splice1 (Js.indexOf oldItem a) a) ;;
     match oldItem with
     | None => throw TypeError
     | Some old =>
         let oldFilename :=
           (Js.str (resultPath_ o) ++ pathSuffix t
            ++ Js.split_pop Js.LF old)%string in
         unlinkSync env oldFilename ;;
         a1 <- get_template t ;;
         match bumpMediaSequence (Js.str (hd_error a1)) with
         | None => throw TypeError   (* regEx.exec(...) is null *)
         | Some newItem => put_template t (Js.set_first newItem a1)
         end
     end
   else ret tt) ;;
  a2 <- get_template t ;;
  put_template t (a2 ++ [item]) ;;
  writeFileSync env playlistPath (Js.join Js.LF (a2 ++ [item])).

Section Lists.

Variables audioSegmentURIList videoSegmentURIList : list string.
Variables audioSegmentDurationList videoSegmentDurationList : list Z.
Variables key keyId : option string.

Definition uriList (t : track) : list string :=
  match t with
  | Audio => audioSegmentURIList
  | Video => videoSegmentURIList
  end.

Definition durationList (t : track) : list Z :=
  match t with
  | Audio => audioSegmentDurationList
  | Video => videoSegmentDurationList
  end.

(** The assignments at the head of the inner loop. *)
Definition assign (i : nat) (t : track) (lv : locals) : locals :=
  match t with
  | Audio => {| lastAudioURI := nth_error audioSegmentURIList i;
                lastVideoURI := lastVideoURI lv;
                segmentDuration := nth_error audioSegmentDurationList i |}
  | Video => {| lastAudioURI := lastAudioURI lv;
                lastVideoURI := nth_error videoSegmentURIList i;
                segmentDuration := nth_error videoSegmentDurationList i |}
  end.

Definition decryptCommand (o : segment_saver) (t : track) (url : string)
  : string :=
  (Js.str (decryptScript_ o) ++ " " ++ Js.str keyId ++ " "
   ++ Js.str key ++ " " ++ mergeFileName o t url ++ " "
   ++ Js.str (resultPath_ o) ++ resultFileRelativePath t url ++ " "
   ++ appRoot_path env ++ " " ++ Js.drop_last (pathSuffix t))%string.

(** One pass of the inner loop: [t] is [Audio] for [j == 0]. *)
Definition processTrack (i : nat) (t : track) (lv : locals) : M locals :=
  o <- get_this ;;
  match nth_error (uriList t) i with
  | None => throw TypeError   (* segmentUrl.split on undefined *)
  | Some url =>
      socks5_http_download env url (saveName o t url) ;;
      (if negb (String.eqb (segmentName url) initFile) then
         status <- mergeFiles env (inputPathList o t url)
                     (mergeFileName o t url) ;;
         if status : bool then
           c <- shell_exec env (decryptCommand o t url) ;;
           if negb (c =? 0) then throw segment_manipulation_failed
           else updateMediaPlaylist t (mediaPlaylistPath o t)
                  (nth_error (durationList t) i) (nameOnly url)
         else throw segment_manipulation_failed
       else ret tt) ;;
      ret (assign i t lv)
  end.

(** The body of the outer loop at index [i]: audio, then video. *)
Definition processIndex (i : nat) (lv : locals) : M locals :=
  lv1 <- processTrack i Audio lv ;;
  processTrack i Video lv1.

Fixpoint for_each {A S : Type} (body : A -> S -> M S) (xs : list A)
    (s : S) : M S :=
  match xs with
  | [] => ret s
  | x :: xs' => s' <- body x s ;; for_each body xs' s'
  end.

Definition no_locals : locals :=
  {| lastAudioURI := None; lastVideoURI := None;
     segmentDuration := None |}.

(** Lines 323-330.  [undefined * 1000] is [NaN], and a comparison with
    [NaN] is false. *)
Definition pace (processPeriod : Z) (duration : option Z) : M unit :=
  match duration with
  | Some d =>
      let segmentDurationMiliSec := d * 1000 in
      if processPeriod <? segmentDurationMiliSec
      then sleep_ (segmentDurationMiliSec - processPeriod)
      else ret tt
  | None => ret tt
  end.

(** Lines 315-337: what follows the loops. *)
Definition finish (checkStart updateDuration : Z) (lv : locals) : M token :=
  o <- get_this ;;
  emptyDirSync env (savePath_ o ++ "audio")%string ;;
  emptyDirSync env (savePath_ o ++ "video")%string ;;
  emptyDirSync env (mergePath_ o ++ "audio")%string ;;
  emptyDirSync env (mergePath_ o ++ "video")%string ;;
  now <- Date_now env ;;
  pace (now - checkStart - updateDuration) (segmentDuration lv) ;;
  (fun w => (with_this (clearReference_ (this w)) w, inr tt)) ;;
  ret {| audio := lastAudioURI lv; video := lastVideoURI lv |}.

(** [processSegmentList] from line 204 on. *)
Definition processAligned (updateDuration : Z) : M token :=
  checkStart <- Date_now env ;;
  lv <- for_each processIndex (seq 0 (List.length audioSegmentURIList))
          no_locals ;;
  finish checkStart updateDuration lv.

End Lists.

(** [processSegments]: the only caller of [processSegmentList] hands over
    the object's own four arrays and its key fields, so the pops of the
    alignment are seen through the parameters. *)
Definition processSegments (updateDuration : Z) : M token :=
  (fun w => (with_this (alignTracks (this w)) w, inr tt)) ;;
  o <- get_this ;;
  processAligned (audioSegmentURIList_ o) (videoSegmentURIList_ o)
    (audioSegmentDurationList_ o) (videoSegmentDurationList_ o)
    (decryptKey_ o) (keyId_ o) updateDuration.

End Pipeline.

(* ================================================================== *)
(** * Vocabulary of the statements *)
(* ================================================================== *)

(** Duration of a reference, as the callback computes it. *)
Definition duration (r : segment_reference) : Z := endTime r - startTime r.

(** The final [k] elements of a list (all of it when [k] exceeds its
    length). *)
Definition last_n {A : Type} (k : nat) (l : list A) : list A :=
  skipn (List.length l - k) l.

(** The URI list and the duration list the object holds for a track. *)
Definition trackLists (t : track) (o : segment_saver) : list string * list Z :=
  match t with
  | Audio => (audioSegmentURIList_ o, audioSegmentDurationList_ o)
  | Video => (videoSegmentURIList_ o, videoSegmentDurationList_ o)
  end.

(** The last-processed URI is [null] or the URI of no reference. *)
Definition absent (lastSegmentURI : option string)
    (refs : list segment_reference) : Prop :=
  forall r, In r refs -> uri_equals (uri r) lastSegmentURI = false.

Definition of_track {A : Type} (t : track) (a v : A) : A :=
  match t with Audio => a | Video => v end.

(** The final element of an array, [undefined] on an empty one. *)
Definition last_error {A : Type} (l : list A) : option A :=
  nth_error l (List.length l - 1).

(** The calls the loops of [processSegmentList] can make. *)
Definition is_pipeline_event (e : event) : bool :=
  match e with
  | Download _ _ _ | MergeFiles _ _ _ | Exec _ _ | Unlink _ _
  | WriteFile _ _ _ => true
  | EmptyDir _ _ | DateNow _ | Sleep _ => false
  end.

Definition is_EmptyDir (e : event) : bool :=
  match e with EmptyDir _ _ => true | _ => false end.

(** A computation that leaves the object alone and only adds pipeline
    calls to the history. *)
Definition pipeline_only {A : Type} (m : M A) : Prop :=
  forall w w' r, m w = (w', r) ->
    this w' = this w
    /\ exists evs, history w' = history w ++ evs
                   /\ forallb is_pipeline_event evs = true.

(** The world once the tracks are aligned and the clock is read, right
    before the loops. *)
Definition cycle_start (env : environment) (w : world) : world :=
  record (DateNow (clock env (history w)))
         (with_this (alignTracks (this w)) w).

(** Every pass of the inner loop that precedes the pass for track [t] at
    index [i], on the object's own lists. *)
Definition passesBefore (env : environment) (o : segment_saver)
    (i : nat) (t : track) : M locals :=
  lv <- for_each
          (processIndex env (audioSegmentURIList_ o) (videoSegmentURIList_ o)
             (audioSegmentDurationList_ o) (videoSegmentDurationList_ o)
             (decryptKey_ o) (keyId_ o))
          (seq 0 i) no_locals ;;
  match t with
  | Audio => ret lv
  | Video =>
      processTrack env (audioSegmentURIList_ o) (videoSegmentURIList_ o)
        (audioSegmentDurationList_ o) (videoSegmentDurationList_ o)
        (decryptKey_ o) (keyId_ o) i Audio lv
  end.

(** The pass for the segment at [url] of track [t], started with history
    [h], fetches the segment and then fails to merge it, or merges it and
    fails to decrypt it; [evs] are the calls of that pass. *)
Inductive manipulation_fails (env : environment) (o : segment_saver)
  (h : list event) (t : track) (url : string) : list event -> Prop :=
| merge_fails :
  let fetched := Download url (saveName o t url) true in
  merge_status env (h ++ [fetched]) (inputPathList o t url)
    (mergeFileName o t url) = false ->
  manipulation_fails env o h t url
    [fetched;
     MergeFiles (inputPathList o t url) (mergeFileName o t url) false]
| decrypt_fails (c : Z) :
  let fetched := Download url (saveName o t url) true in
  let merged :=
    MergeFiles (inputPathList o t url) (mergeFileName o t url) true in
  let command := decryptCommand env (decryptKey_ o) (keyId_ o) o t url in
  merge_status env (h ++ [fetched]) (inputPathList o t url)
    (mergeFileName o t url) = true ->
  exec_code env (h ++ [fetched] ++ [merged]) command = c ->
  c <> 0 ->
  manipulation_fails env o h t url [fetched; merged; Exec command c].

(** The four calls that empty the scratch directories. *)
Definition cleanup_events (o : segment_saver) : list event :=
  [EmptyDir (savePath_ o ++ "audio")%string true;
   EmptyDir (savePath_ o ++ "video")%string true;
   EmptyDir (mergePath_ o ++ "audio")%string true;
   EmptyDir (mergePath_ o ++ "video")%string true].

(** What the variables of [processSegmentList] hold once its loops have
    run over the object's lists: the values of the last pass, if any. *)
Definition final_locals (o : segment_saver) : locals :=
  match List.length (audioSegmentURIList_ o) with
  | O => no_locals
  | S n => {| lastAudioURI := nth_error (audioSegmentURIList_ o) n;
              lastVideoURI := nth_error (videoSegmentURIList_ o) n;
              segmentDuration := nth_error (videoSegmentDurationList_ o) n |}
  end.

(** The suspension the specification asks of the pacer. *)
Definition pacer_events (elapsed updateDuration : Z) (duration : option Z)
  : list event :=
  match duration with
  | Some d =>
      let slack := d * 1000 - (elapsed - updateDuration) in
      if 0 <? slack then [Sleep slack] else []
  | None => []
  end.

(** The calls that commit a segment: the decryption and the write of the
    playlist. *)
Definition is_commit (e : event) : bool :=
  match e with
  | Exec _ c => c =? 0
  | WriteFile _ _ _ => true
  | _ => false
  end.

(** The world [w] after the calls [evs], nothing else changed. *)
Definition after (evs : list event) (w : world) : world :=
  {| this := this w;
     audioMediaPLTemplate := audioMediaPLTemplate w;
     videoMediaPLTemplate := videoMediaPLTemplate w;
     history := history w ++ evs |}.

(** The literal of the pattern after its ['#']. *)
Definition tag_tail : string := "EXT-X-MEDIA-SEQUENCE:".

(** A string of decimal digits; a string without any. *)
Fixpoint all_digits (s : string) : bool :=
  match s with
  | EmptyString => true
  | String c s' => Js.is_digit c && all_digits s'
  end.

Fixpoint no_digit (s : string) : bool :=
  match s with
  | EmptyString => true
  | String c s' => negb (Js.is_digit c) && no_digit s'
  end.

(** The number of the first media-sequence directive of a string, as the
    code reads it; [None] when the string has no such directive. *)
Definition sequenceNumber (s : string) : option N :=
  match regEx_exec s with
  | Some (_, m, _) => Js.parseInt (Js.strip_leading_non_digits m)
  | None => None
  end.

(** The media-sequence number of a playlist array: that of its element 0,
    the only element the code looks into. *)
Definition mediaSequence (a : list string) : option N :=
  sequenceNumber (Js.str (hd_error a)).

(** The playlist array once the oldest segment entry is spliced out. *)
Definition evicted (a : list string) : list string :=
  Js.splice1 (Js.indexOf (hd_error (segmentItems a)) a) a.

(** A computation that leaves the playlist array of track [t] alone. *)
Definition keeps_template {A : Type} (t : track) (m : M A) : Prop :=
  forall w w' r, m w = (w', r) ->
    mediaPlaylistTemplate t w' = mediaPlaylistTemplate t w.

Definition other (t : track) : track :=
  match t with Audio => Video | Video => Audio end.

(** The calls that merge into, or decrypt, the file [path]. *)
Definition manipulates (path : string) (e : event) : bool :=
  match e with
  | MergeFiles _ output _ => String.eqb output path
  | Exec command _ => Js.includes path command
  | _ => false
  end.

(** The TrackState invariant of the specification, on the object: each
    track's URI list and duration list have the same length. *)
Definition lists_paired (o : segment_saver) : Prop :=
  List.length (audioSegmentURIList_ o)
    = List.length (audioSegmentDurationList_ o)
  /\ List.length (videoSegmentURIList_ o)
    = List.length (videoSegmentDurationList_ o).

(** Sample data for the closed statements below. *)
Module Sample.

Definition ref (name : string) (s e : Z) : segment_reference :=
  {| initSegmentUri := "http://cdn/t/init.mp4";
     uri := ("http://cdn/t/" ++ name)%string;
     startTime := s; endTime := e |}.

Definition index3 : segment_index :=
  {| references := [ref "1a.m4s" 0 6; ref "1b.m4s" 6 12; ref "1c.m4s" 12 18] |}.

Definition index0 : segment_index := {| references := [] |}.

(** An object built over [index3] for both tracks. *)
Definition saver (maxSegmentNum : Z) (tok : token) : segment_saver :=
  constructor index3 index3 "key" "kid" "./decrypt.sh" "/res/" "/dl/" "/mg/"
    maxSegmentNum "audio.m3u8" "video.m3u8" tok.

(** An object whose video track is one element longer than its audio
  track: the audio index holds one reference, the video index two. *)
Definition uneven : segment_saver :=
  constructor {| references := [ref "1a.m4s" 0 6] |}
    {| references := [ref "1a.m4s" 0 6; ref "1b.m4s" 6 12] |}
    "key" "kid" "./decrypt.sh" "/res/" "/dl/" "/mg/" 3
    "audio.m3u8" "video.m3u8" {| audio := None; video := None |}.

(** Collaborators that always succeed; the clock reads 0 at the first
    call and 400 afterwards. *)
Definition env_ok : environment :=
  {| download_ok := fun _ _ _ => true;
     merge_status := fun _ _ _ => true;
     exec_code := fun _ _ => 0;
     unlink_ok := fun _ _ => true;
     write_ok := fun _ _ _ => true;
     emptydir_ok := fun _ _ => true;
     clock := fun h => match h with [] => 0 | _ => 400 end;
     appRoot_path := "/app" |}.

(** As [env_ok], but the decryption of every file named [1c.m4s] exits
    with code 1. *)
Definition env_decrypt_fails : environment :=
  {| download_ok := fun _ _ _ => true;
     merge_status := fun _ _ _ => true;
     exec_code := fun _ command =>
                    if Js.includes "1c.m4s" command then 1 else 0;
     unlink_ok := fun _ _ => true;
     write_ok := fun _ _ _ => true;
     emptydir_ok := fun _ _ => true;
     clock := fun h => match h with [] => 0 | _ => 400 end;
     appRoot_path := "/app" |}.

Definition header : string :=
  String.concat (String Js.LF EmptyString)
    ["#EXTM3U"; "#EXT-X-TARGETDURATION:6"; "#EXT-X-MEDIA-SEQUENCE:0"].

(** A world at the start of a cycle: the object and two playlists that
    hold their header only. *)
Definition fresh (o : segment_saver) : world :=
  {| this := o; audioMediaPLTemplate := [header];
     videoMediaPLTemplate := [header]; history := [] |}.

Definition cold : token := {| audio := None; video := None |}.

(** A playlist at capacity 2: the header and two entries. *)
Definition full : world :=
  {| this := saver 2 cold;
     audioMediaPLTemplate :=
       [header; segmentTemplate (Some 6) "1a.mp4";
        segmentTemplate (Some 6) "1b.mp4"];
     videoMediaPLTemplate := [header];
     history := [] |}.

(** A playlist whose oldest entry comes before the line that carries the
    media-sequence directive, at capacity 1. *)
Definition entry_first : world :=
  {| this := saver 1 cold;
     audioMediaPLTemplate :=
       [segmentTemplate (Some 6) "1a.mp4"; "#EXT-X-MEDIA-SEQUENCE:5"];
     videoMediaPLTemplate := [header];
     history := [] |}.

(** An index whose init segment is not named init.mp4 and whose second
    media segment is. *)
Definition index_hdr : segment_index :=
  {| references :=
       [{| initSegmentUri := "http://cdn/t/hdr.mp4";
           uri := "http://cdn/t/1a.m4s"; startTime := 0; endTime := 6 |};
        {| initSegmentUri := "http://cdn/t/hdr.mp4";
           uri := "http://cdn/t/init.mp4"; startTime := 6; endTime := 12 |}] |}.

Definition saver_hdr : segment_saver :=
  constructor index_hdr index_hdr "key" "kid" "./decrypt.sh" "/res/" "/dl/"
    "/mg/" 2 "audio.m3u8" "video.m3u8" cold.

End Sample.

(* ================================================================== *)
(** * The continuity diagnostic of the constructor *)
(* ================================================================== *)

Module Hex.

(** A digit of radix 16, in either case. *)
Definition is_hex_digit (c : ascii) : bool :=
  let n := nat_of_ascii c in
  (((48 <=? n) && (n <=? 57)) || ((97 <=? n) && (n <=? 102))
   || ((65 <=? n) && (n <=? 70)))%nat.

(** The lower-case form of an upper-case letter. *)
Definition downcase (c : ascii) : ascii :=
  let n := nat_of_ascii c in
  if ((65 <=? n) && (n <=? 90))%nat then ascii_of_nat (n + 32) else c.

(** The longest prefix of digits of radix 16, in lower case. *)
Fixpoint span_hex (s : string) : string :=
  match s with
  | EmptyString => EmptyString
  | String c s' =>
      if is_hex_digit c then String (downcase c) (span_hex s')
      else EmptyString
  end.

(** [parseInt('0x' + s)]: the argument starts with ["0x"], so the radix
    is 16 and the value is that of the longest prefix of [s] made of
    digits of radix 16; [NaN] ([None]) when [s] starts with none. *)
Definition parseInt_0x (s : string) : option N :=
  match span_hex s with
  | EmptyString => None
  | ds => option_map N.of_hex_uint
            (HexadecimalString.NilEmpty.uint_of_string ds)
  end.

(** The numeral of radix 16 of a number, in lower case. *)
Definition show (n : N) : string :=
  HexadecimalString.NilEmpty.string_of_uint (N.to_hex_uint n).

End Hex.

(** Lines 169-177.  The result is a number or [NaN] ([None]). *)
Definition getDecimalIndexFromURI_ (segmentURI : option string) : option N :=
  match segmentURI with
  | Some u =>
      let segmentName := Js.split_pop "/" u in
      let nameOnly := Js.basename segmentName (Js.extname segmentName) in
      Hex.parseInt_0x nameOnly
  | None => Some 0%N
  end.

(** A string in a condition: [null], [undefined] and the empty string
    are false. *)
Definition truthy (o : option string) : bool :=
  match o with
  | Some EmptyString | None => false
  | Some _ => true
  end.

(** Lines 66-70: the offset the constructor logs, when it computes one;
    the inner [None] is [NaN]. *)
Definition continuityOffset (o : segment_saver) (lastSegmentURI : token)
  : option (option Z) :=
  if truthy (audio lastSegmentURI)
     && (1 <? Z.of_nat (List.length (audioSegmentURIList_ o)))
  then
    let firstNewSegmentIndex :=
      getDecimalIndexFromURI_ (nth_error (audioSegmentURIList_ o) 1) in
    let lastSegmentIndex := getDecimalIndexFromURI_ (audio lastSegmentURI) in
    Some match firstNewSegmentIndex, lastSegmentIndex with
         | Some f, Some l => Some (Z.of_N f - Z.of_N l)
         | _, _ => None
         end
  else None.

(** Lines 72-74: whether the constructor logs the error
    "Dismatching segments"; [NaN != 1] holds. *)
Definition dismatching (o : segment_saver) (lastSegmentURI : token) : bool :=
  match continuityOffset o lastSegmentURI with
  | Some (Some offset) => negb (offset =? 1)
  | Some None => true
  | None => false
  end.

(** A URL whose last component is the numeral of radix 16 of [n] with the
    extension [ext]. *)
Definition numberedUrl (dir : string) (n : N) (ext : string) : string :=
  (dir ++ "/" ++ Hex.show n ++ "." ++ ext)%string.

(** A string of lower-case digits of radix 16. *)
Fixpoint lower_hex (s : string) : bool :=
  match s with
  | EmptyString => true
  | String c s' =>
      let n := nat_of_ascii c in
      (((48 <=? n) && (n <=? 57)) || ((97 <=? n) && (n <=? 102)))%nat
      && lower_hex s'
  end.

(* ================================================================== *)
(** * Vocabulary of the further properties *)
(* ================================================================== *)

(** A merge that reported a failure, or a command that exited with a code
    other than 0. *)
Definition is_manipulation_failure (e : event) : bool :=
  match e with
  | MergeFiles _ _ status => negb status
  | Exec _ c => negb (c =? 0)
  | _ => false
  end.

Definition is_Download (e : event) : bool :=
  match e with Download _ _ _ => true | _ => false end.

(** The calls of a cycle that has nothing to process: the clock, the
    scratch directories. *)
Definition is_housekeeping (e : event) : bool :=
  match e with
  | EmptyDir _ _ | DateNow _ => true
  | _ => false
  end.

(** The fetches of a cycle that completes over the lists of [o]: index by
    index, the audio element and then the video element. *)
Definition fetches (o : segment_saver) : list event :=
  flat_map (fun '(a, v) => [Download a (saveName o Audio a) true;
                            Download v (saveName o Video v) true])
           (combine (audioSegmentURIList_ o) (videoSegmentURIList_ o)).

(** A computation whose only structured error is the one of a failed
    manipulation, thrown right after the failed call. *)
Definition aborts_by_failure {A : Type} (m : M A) : Prop :=
  forall w w' x, m w = (w', inl x) -> is_structured x = true ->
    x = segment_manipulation_failed
    /\ exists h e, history w' = h ++ [e]
                   /\ is_manipulation_failure e = true.
(** Further sample collaborators. *)
Module Scenario.

(** As [Sample.env_ok], but every fetch of a URL that names [1c.m4s] is
    rejected. *)
Definition env_fetch_fails : environment :=
  {| download_ok := fun _ url _ => negb (Js.includes "1c.m4s" url);
     merge_status := fun _ _ _ => true;
     exec_code := fun _ _ => 0;
     unlink_ok := fun _ _ => true;
     write_ok := fun _ _ _ => true;
     emptydir_ok := fun _ _ => true;
     clock := fun h => match h with [] => 0 | _ => 400 end;
     appRoot_path := "/app" |}.

End Scenario.
(** A playlist array whose element 0 is no segment entry and holds a
    media-sequence directive. *)
Definition header_first (a : list string) : bool :=
  match a with
  | h :: _ =>
      negb (Js.includes extinf_marker h)
      && match regEx_exec h with Some _ => true | None => false end
  | [] => false
  end.

(** Collaborators that never fail: every fetch is served, every merge
    reports success, every command exits with code 0 and the file system
    does what it is asked. *)
Definition obeys (env : environment) : Prop :=
  (forall h url dest, download_ok env h url dest = true)
  /\ (forall h inputs output, merge_status env h inputs output = true)
  /\ (forall h command, exec_code env h command = 0)
  /\ (forall h path, unlink_ok env h path = true)
  /\ (forall h path content, write_ok env h path content = true)
  /\ (forall h path, emptydir_ok env h path = true).

(* ================================================================== *)
(** * The deferred call ([delayed_tick] of util/i_destroyable.js) *)
(* ================================================================== *)

Module DelayedTick.

(** One call of [setTimeout] made by [tickAfter]: the delay handed to the
    runtime, the variable [alive] its two closures share, and what the
    runtime holds about it - whether [clearTimeout] was called on it and
    whether its callback has run. *)
Record timeout := {
  millis : Z;
  alive : bool;
  cleared : bool;
  ran : bool
}.

(** The object and the timeouts it has created.  A [timeoutId] is the
    position of the timeout; [cancelPending_] is [null] or the closure
    made for the timeout it names; [ticked] lists the calls of [onTick_]
    by the timeout that made them, oldest first. *)
Record delayed_tick := {
  timeouts : list timeout;
  cancelPending_ : option nat;
  ticked : list nat
}.

(** Lines 25-28. *)
Definition constructor : delayed_tick :=
  {| timeouts := []; cancelPending_ := None; ticked := [] |}.

Fixpoint update (id : nat) (f : timeout -> timeout) (l : list timeout)
    {struct l} : list timeout :=
  match l, id with
  | [], _ => []
  | t :: l', O => f t :: l'
  | t :: l', S k => t :: update k f l'
  end.

(** Lines 45-48: the body of the closure stored in [cancelPending_]. *)
Definition cancel (t : timeout) : timeout :=
  {| millis := millis t; alive := false; cleared := true; ran := ran t |}.

(** Lines 68-73. *)
Definition stop (s : delayed_tick) : delayed_tick :=
  match cancelPending_ s with
  | Some id => {| timeouts := update id cancel (timeouts s);
                  cancelPending_ := None;
                  ticked := ticked s |}
  | None => s
  end.

(** Lines 35-62. *)
Definition tickAfter (delayInSeconds : Z) (s : delayed_tick) : delayed_tick :=
  let s1 := stop s in
  let timeoutId := List.length (timeouts s1) in
  {| timeouts := timeouts s1
                 ++ [{| millis := delayInSeconds * 1000; alive := true;
                        cleared := false; ran := false |}];
     cancelPending_ := Some timeoutId;
     ticked := ticked s1 |}.

Definition mark_ran (t : timeout) : timeout :=
  {| millis := millis t; alive := alive t; cleared := cleared t;
     ran := true |}.

(** The runtime runs the callback of a timeout (lines 53-57), once at
    most.  Following the remark at lines 50-52, a timeout that was cleared
    may still run. *)
Definition run (timeoutId : nat) (s : delayed_tick) : delayed_tick :=
  match nth_error (timeouts s) timeoutId with
  | Some t =>
      if ran t then s
      else {| timeouts := update timeoutId mark_ran (timeouts s);
              cancelPending_ := cancelPending_ s;
              ticked := if alive t then ticked s ++ [timeoutId]
                        else ticked s |}
  | None => s
  end.

(** What happens to the object: a call of one of its methods, by anyone
    ([onTick_] included), or the runtime running a timeout. *)
Inductive call :=
| TickAfter (delayInSeconds : Z)
| Stop
| Run (timeoutId : nat).

Definition step (s : delayed_tick) (c : call) : delayed_tick :=
  match c with
  | TickAfter d => tickAfter d s
  | Stop => stop s
  | Run id => run id s
  end.

(** The object after a sequence of calls on a new one. *)
Definition after_calls (cs : list call) : delayed_tick :=
  fold_left step cs constructor.

Definition is_TickAfter (c : call) : bool :=
  match c with TickAfter _ => true | _ => false end.

Definition is_Run (c : call) : bool :=
  match c with Run _ => true | _ => false end.

End DelayedTick.

(* ================================================================== *)
(** * The playlist over a whole cycle *)
(* ================================================================== *)

(** The entry the pass for track [t] at index [i] pushes on its playlist,
    over the lists of [o]: none for an element named init.mp4. *)
Definition pushedAt (o : segment_saver) (t : track) (i : nat) : list string :=
  match nth_error (fst (trackLists t o)) i with
  | Some url =>
      if negb (String.eqb (segmentName url) initFile)
      then [segmentTemplate (nth_error (snd (trackLists t o)) i)
              (nameOnly url ++ ".mp4")]
      else []
  | None => []
  end.

(** The entries a cycle over the lists of [o] pushes on the playlist of
    track [t], oldest first. *)
Definition committed (o : segment_saver) (t : track) : list string :=
  flat_map (pushedAt o t) (seq 0 (List.length (audioSegmentURIList_ o))).

(** A playlist array as a window of [capacity] entries over the entries
    [pushed] so far: its element 0 is its header, its entries are the
    last [capacity] of them, and its media-sequence number is [n0] plus
    the number of entries that have left it. *)
Definition window (capacity : nat) (n0 : N) (pushed a : list string) : Prop :=
  header_first a = true
  /\ segmentItems a = last_n capacity pushed
  /\ mediaSequence a
     = Some (n0 + N.of_nat (List.length pushed - capacity))%N.

(* ================================================================== *)
(** * Verification: track reconciliation *)
(* ================================================================== *)

Section Reconciliation.

Variable lastSegmentURI : option string.

Lemma visit_totals refs st :
  totalList (fold_left (visit lastSegmentURI) refs st)
    = totalList st ++ map uri refs
  /\ totalSegList (fold_left (visit lastSegmentURI) refs st)
    = totalSegList st ++ map duration refs.
Proof.
  revert st; induction refs as [|r refs IH]; intros st; simpl.
  - now rewrite !app_nil_r.
  - destruct (IH (visit lastSegmentURI st r)) as [H1 H2].
    rewrite H1, H2; simpl. now rewrite <- !app_assoc.
Qed.

Lemma visit_after_found refs st :
  foundLatestName st = true ->
  segmentURIList (fold_left (visit lastSegmentURI) refs st)
    = segmentURIList st ++ map uri refs
  /\ segmentDurationList (fold_left (visit lastSegmentURI) refs st)
    = segmentDurationList st ++ map duration refs.
Proof.
  revert st; induction refs as [|r refs IH]; intros st Hf; simpl.
  - now rewrite !app_nil_r.
  - destruct (IH (visit lastSegmentURI st r)) as [H1 H2].
    + simpl. now rewrite Hf.
    + rewrite H1, H2; simpl. rewrite Hf. now rewrite <- !app_assoc.
Qed.

Lemma visit_before_found refs st :
  foundLatestName st = false ->
  absent lastSegmentURI refs ->
  let st' := fold_left (visit lastSegmentURI) refs st in
  foundLatestName st' = false
  /\ segmentURIList st' = segmentURIList st
  /\ segmentDurationList st' = segmentDurationList st.
Proof.
  revert st; induction refs as [|r refs IH]; intros st Hf Habs; simpl.
  - auto.
  - destruct (IH (visit lastSegmentURI st r)) as (H1 & H2 & H3).
    + simpl. rewrite Hf, (Habs r); simpl; auto.
    + intros r' Hr'. apply Habs. now right.
    + rewrite H1, H2, H3. simpl. now rewrite Hf.
Qed.

Lemma visit_split pre r post st :
  foundLatestName st = false ->
  absent lastSegmentURI pre ->
  uri_equals (uri r) lastSegmentURI = true ->
  let st' := fold_left (visit lastSegmentURI) (pre ++ r :: post) st in
  segmentURIList st' = segmentURIList st ++ map uri post
  /\ segmentDurationList st' = segmentDurationList st ++ map duration post.
Proof.
  intros Hf Habs Heq. cbv zeta. rewrite fold_left_app. simpl.
  destruct (visit_before_found pre st Hf Habs) as (H1 & H2 & H3).
  set (st1 := fold_left (visit lastSegmentURI) pre st) in *.
  destruct (visit_after_found post (visit lastSegmentURI st1 r)) as [H4 H5].
  - simpl. rewrite Heq. apply orb_true_r.
  - rewrite H4, H5. simpl. rewrite H1, H2, H3. auto.
Qed.

End Reconciliation.

Lemma slice_from_tail {A : Type} (maxSegmentNum : Z) (n : nat) (l : list A) :
  n = List.length l ->
  slice_from (Z.max 0 (Z.of_nat n - maxSegmentNum)) l
  = last_n (Z.to_nat (Z.min (Z.of_nat n) maxSegmentNum)) l.
Proof.
  intros ->. unfold slice_from, last_n.
  destruct (Z.le_gt_cases 0 maxSegmentNum) as [Hpos|Hneg].
  - f_equal. lia.
  - rewrite skipn_all2 by lia.
    replace (Z.to_nat (Z.min (Z.of_nat (List.length l)) maxSegmentNum))
      with 0%nat by lia.
    rewrite Nat.sub_0_r. now rewrite skipn_all.
Qed.

Lemma length_last_n {A : Type} (k : nat) (l : list A) :
  List.length (last_n k l) = Nat.min k (List.length l).
Proof. unfold last_n. rewrite length_skipn. lia. Qed.

(** The fall-back of [getSegmentInfoList_]: nothing was pushed after the
    init element. *)
Lemma segmentInfo_fallback maxSegmentNum r0 rest lastSegmentURI :
  let refs := r0 :: rest in
  segmentURIList
    (fold_left (visit lastSegmentURI) refs
       {| foundLatestName := false; totalList := []; totalSegList := [];
          segmentURIList := [initSegmentUri r0];
          segmentDurationList := [0] |}) = [initSegmentUri r0] ->
  segmentDurationList
    (fold_left (visit lastSegmentURI) refs
       {| foundLatestName := false; totalList := []; totalSegList := [];
          segmentURIList := [initSegmentUri r0];
          segmentDurationList := [0] |}) = [0] ->
  let k := Z.to_nat (Z.min (Z.of_nat (List.length refs)) maxSegmentNum) in
  segmentInfo maxSegmentNum {| references := refs |} lastSegmentURI
  = Some (initSegmentUri r0 :: last_n k (map uri refs),
          0 :: last_n k (map duration refs)).
Proof.
  intros refs HU HD k. unfold segmentInfo, forEachTopLevelReference.
  cbn [references]. subst refs. cbv iota.
  set (refs := r0 :: rest) in *.
  set (st0 := {| foundLatestName := false; totalList := [];
                 totalSegList := [];
                 segmentURIList := [initSegmentUri r0];
                 segmentDurationList := [0] |}) in *.
  destruct (visit_totals lastSegmentURI refs st0) as [HT HS].
  rewrite HU, HD, HT, HS. cbn [List.length Nat.eqb andb totalList totalSegList st0 app].
  replace (0 <=? Z.of_nat (List.length (map uri refs))) with true
    by (symmetry; apply Z.leb_le; lia).
  cbv iota.
  rewrite length_map.
  rewrite (slice_from_tail maxSegmentNum _ (map uri refs))
    by now rewrite length_map.
  rewrite (slice_from_tail maxSegmentNum _ (map duration refs))
    by now rewrite length_map.
  reflexivity.
Qed.

(** When the last-processed URI is met before the final reference, the
    lists are the init element and everything after its first
    occurrence. *)
Lemma segmentInfo_found_inner maxSegmentNum lastSegmentURI pre r p post :
  absent lastSegmentURI pre ->
  uri_equals (uri r) lastSegmentURI = true ->
  segmentInfo maxSegmentNum {| references := pre ++ r :: p :: post |}
    lastSegmentURI
  = Some (initSegmentUri (hd r pre) :: map uri (p :: post),
          0 :: map duration (p :: post)).
Proof.
  intros Habs Heq. unfold segmentInfo, forEachTopLevelReference.
  cbn [references].
  assert (Hne : exists r0 rest, pre ++ r :: p :: post = r0 :: rest
                                /\ hd r pre = r0).
  { destruct pre; simpl; eauto. }
  destruct Hne as (r0 & rest & Hrefs & Hhd). rewrite Hhd.
  rewrite Hrefs. rewrite <- Hrefs.
  match goal with |- context [fold_left _ _ ?s] => set (st0 := s) end.
  destruct (visit_split lastSegmentURI pre r (p :: post) st0 eq_refl Habs Heq)
    as [HU HD].
  rewrite HU, HD. reflexivity.
Qed.

Lemma trackLists_constructor t ai vi key keyId script res dl mg maxSegmentNum
    apl vpl tok :
  trackLists t (constructor ai vi key keyId script res dl mg maxSegmentNum
                  apl vpl tok)
  = match segmentInfo maxSegmentNum (of_track t ai vi)
            (of_track t (audio tok) (video tok)) with
    | Some p => p
    | None => ([], [])
    end.
Proof.
  unfold constructor, getSegmentInfoList_. cbn [maxSegmentNum_].
  destruct t; cbn [of_track];
    destruct (segmentInfo maxSegmentNum ai (audio tok)) as [[ua da]|];
    cbn [maxSegmentNum_ set_audio];
    destruct (segmentInfo maxSegmentNum vi (video tok)) as [[uv dv]|];
    reflexivity.
Qed.

Lemma visit_extends lastSegmentURI refs st :
  exists us ds,
    segmentURIList (fold_left (visit lastSegmentURI) refs st)
      = segmentURIList st ++ us
    /\ segmentDurationList (fold_left (visit lastSegmentURI) refs st)
      = segmentDurationList st ++ ds.
Proof.
  revert st; induction refs as [|r refs IH]; intros st; simpl.
  - exists [], []. now rewrite !app_nil_r.
  - destruct (IH (visit lastSegmentURI st r)) as (us & ds & H1 & H2).
    rewrite H1, H2. simpl. destruct (foundLatestName st).
    + exists (uri r :: us), ((endTime r - startTime r) :: ds).
      now rewrite <- !app_assoc.
    + now exists us, ds.
Qed.

Lemma segmentInfo_head maxSegmentNum r0 rest lastSegmentURI :
  exists us ds,
    segmentInfo maxSegmentNum {| references := r0 :: rest |} lastSegmentURI
    = Some (initSegmentUri r0 :: us, 0 :: ds).
Proof.
  unfold segmentInfo, forEachTopLevelReference. cbn [references].
  match goal with |- context [fold_left _ _ ?s] => set (st0 := s) end.
  destruct (visit_extends lastSegmentURI (r0 :: rest) st0)
    as (us & ds & H1 & H2).
  rewrite H1, H2. cbn [st0 segmentURIList segmentDurationList app].
  match goal with |- context [if ?b then _ else _] => destruct b end;
    eexists; eexists; reflexivity.
Qed.

Lemma In_last_n_snoc {A : Type} (k : nat) (l : list A) (x : A) :
  (1 <= k)%nat -> In x (last_n k (l ++ [x])).
Proof.
  intros Hk. unfold last_n. rewrite length_app. cbn [List.length].
  rewrite skipn_app.
  apply in_or_app. right.
  replace (List.length l + 1 - k - List.length l)%nat with 0%nat by lia.
  now left.
Qed.

(** C1 (as the code has it). When the last-processed URI is the URI of
    the final reference of the index, and of no earlier one, the lists of
    the track are not the init element alone: nothing was pushed during
    the scan, so the fall-back runs and the lists are the init element
    followed by the final min(n, maxSegmentNum) references; with a
    capacity of at least one, the reference that was already processed is
    among them once more. *)
Theorem C1_final_reference_runs_fallback
    (t : track) (ai vi : segment_index)
    (key keyId script res dl mg : string) (maxSegmentNum : Z)
    (apl vpl : string) (tok : token) (pre : list segment_reference)
    (r : segment_reference) :
  references (of_track t ai vi) = pre ++ [r] ->
  absent (of_track t (audio tok) (video tok)) pre ->
  uri_equals (uri r) (of_track t (audio tok) (video tok)) = true ->
  let refs := pre ++ [r] in
  let k := Z.to_nat (Z.min (Z.of_nat (List.length refs)) maxSegmentNum) in
  let lists := trackLists t (constructor ai vi key keyId script res dl mg
                               maxSegmentNum apl vpl tok) in
  lists = (initSegmentUri (hd r pre) :: last_n k (map uri refs),
           0 :: last_n k (map duration refs))
  /\ (1 <= maxSegmentNum ->
      In (uri r) (tl (fst lists))
      /\ fst lists <> [initSegmentUri (hd r pre)]).
Proof.
  intros Hrefs Habs Heq refs k lists.
  assert (Hlists : lists
                   = (initSegmentUri (hd r pre) :: last_n k (map uri refs),
                      0 :: last_n k (map duration refs))).
  { unfold lists. rewrite trackLists_constructor.
    destruct (of_track t ai vi) as [rs]. cbn [references] in Hrefs. subst rs.
    assert (Hne : exists r0 rest, pre ++ [r] = r0 :: rest /\ hd r pre = r0).
    { destruct pre; simpl; eauto. }
    destruct Hne as (r0 & rest & Hcons & Hhd).
    unfold k, refs. rewrite Hhd, Hcons.
    rewrite segmentInfo_fallback; [reflexivity| |]; rewrite <- Hcons;
      match goal with |- context [fold_left _ _ ?s] =>
        destruct (visit_split (of_track t (audio tok) (video tok))
                    pre r [] s eq_refl Habs Heq) as [HU HD]
      end; [rewrite HU | rewrite HD]; reflexivity. }
  split; [exact Hlists|].
  intros Hmax. rewrite Hlists. cbn [fst tl].
  assert (Hin : In (uri r) (last_n k (map uri refs))).
  { unfold refs. rewrite map_app. cbn [map]. apply In_last_n_snoc.
    unfold k, refs. rewrite length_app. cbn [List.length]. lia. }
  split; [exact Hin|].
  intros Hcontra. injection Hcontra as Hnil. rewrite Hnil in Hin.
  contradiction.
Qed.

(** C2. An index without references leaves both lists of the track empty;
    otherwise the lists start with the init segment's URI and the
    duration 0 and have equal lengths; and when the last-processed URI is
    null or the URI of no reference, what follows the init element is the
    final min(n, maxSegmentNum) references of the index, at most
    maxSegmentNum of them. *)
Theorem C2_reconciled_lists
    (t : track) (ai vi : segment_index)
    (key keyId script res dl mg : string) (maxSegmentNum : Z)
    (apl vpl : string) (tok : token) :
  let refs := references (of_track t ai vi) in
  let k := Z.to_nat (Z.min (Z.of_nat (List.length refs)) maxSegmentNum) in
  let lists := trackLists t (constructor ai vi key keyId script res dl mg
                               maxSegmentNum apl vpl tok) in
  (refs = [] -> lists = ([], []))
  /\ (forall r0 rest, refs = r0 :: rest ->
        hd_error (fst lists) = Some (initSegmentUri r0)
        /\ hd_error (snd lists) = Some 0)
  /\ (absent (of_track t (audio tok) (video tok)) refs ->
        tl (fst lists) = last_n k (map uri refs)
        /\ tl (snd lists) = last_n k (map duration refs)
        /\ Z.of_nat (List.length (tl (fst lists))) <= Z.max 0 maxSegmentNum).
Proof.
  intros refs k lists. unfold lists. rewrite trackLists_constructor.
  unfold k, refs. clear refs k lists.
  destruct (of_track t ai vi) as [rs]. cbn [references].
  split; [|split].
  - intros ->. reflexivity.
  - intros r0 rest ->.
    destruct (segmentInfo_head maxSegmentNum r0 rest
                (of_track t (audio tok) (video tok))) as (us & ds & H).
    rewrite H. split; reflexivity.
  - intros Habs. destruct rs as [|r0 rest].
    + cbn. repeat split. lia.
    + rewrite segmentInfo_fallback.
      * cbn [fst snd tl]. repeat split. rewrite length_last_n, length_map.
        lia.
      * match goal with |- context [fold_left _ _ ?s] =>
          destruct (visit_before_found (of_track t (audio tok) (video tok))
                      (r0 :: rest) s eq_refl Habs) as (_ & HU & _)
        end. exact HU.
      * match goal with |- context [fold_left _ _ ?s] =>
          destruct (visit_before_found (of_track t (audio tok) (video tok))
                      (r0 :: rest) s eq_refl Habs) as (_ & _ & HD)
        end. exact HD.
Qed.

(** Scenario A of the specification, as far as reconciliation goes: five
    segments, capacity 3, the second one processed last. *)
Example scenario_A :
  segmentInfo 3
    {| references := [Sample.ref "01.m4s" 0 6; Sample.ref "02.m4s" 6 12;
                      Sample.ref "03.m4s" 12 18; Sample.ref "04.m4s" 18 24;
                      Sample.ref "05.m4s" 24 30] |}
    (Some "http://cdn/t/02.m4s")
  = Some (["http://cdn/t/init.mp4"; "http://cdn/t/03.m4s";
           "http://cdn/t/04.m4s"; "http://cdn/t/05.m4s"], [0; 6; 6; 6]).
Proof. reflexivity. Qed.

(** Scenario B: the last-processed URI is not in the index; capacity 2 on
    the sample index. *)
Example scenario_B :
  segmentInfo 2 Sample.index3 (Some "http://cdn/t/00.m4s")
  = Some (["http://cdn/t/init.mp4"; "http://cdn/t/1b.m4s";
           "http://cdn/t/1c.m4s"], [0; 6; 6]).
Proof. reflexivity. Qed.

(** On the sample index with capacity 2 and the URI of its third and
    final reference as last-processed URI: the second and the third
    reference follow the init element. *)
Lemma C1_final_reference_runs_fallback_witness :
  trackLists Audio
    (Sample.saver 2 {| audio := Some "http://cdn/t/1c.m4s"; video := None |})
  = (["http://cdn/t/init.mp4"; "http://cdn/t/1b.m4s"; "http://cdn/t/1c.m4s"],
     [0; 6; 6])
  /\ In "http://cdn/t/1c.m4s"
       (tl (fst (trackLists Audio
          (Sample.saver 2
             {| audio := Some "http://cdn/t/1c.m4s"; video := None |})))).
Proof.
  destruct (C1_final_reference_runs_fallback Audio Sample.index3 Sample.index3
              "key" "kid" "./decrypt.sh" "/res/" "/dl/" "/mg/" 2
              "audio.m3u8" "video.m3u8"
              {| audio := Some "http://cdn/t/1c.m4s"; video := None |}
              [Sample.ref "1a.m4s" 0 6; Sample.ref "1b.m4s" 6 12]
              (Sample.ref "1c.m4s" 12 18))
    as [H1 H2].
  - reflexivity.
  - intros r [<-|[<-|[]]]; reflexivity.
  - reflexivity.
  - split.
    + exact H1.
    + apply H2. lia.
Defined.

(** On an empty index, and on the sample index at a cold start with
    capacity 2. *)
Lemma C2_reconciled_lists_witness :
  trackLists Video (constructor Sample.index3 Sample.index0
                      "key" "kid" "./decrypt.sh" "/res/" "/dl/" "/mg/" 2
                      "audio.m3u8" "video.m3u8"
                      {| audio := None; video := None |}) = ([], [])
  /\ hd_error (fst (trackLists Audio
        (Sample.saver 2 {| audio := None; video := None |})))
     = Some "http://cdn/t/init.mp4"
  /\ tl (fst (trackLists Audio
        (Sample.saver 2 {| audio := None; video := None |})))
     = ["http://cdn/t/1b.m4s"; "http://cdn/t/1c.m4s"].
Proof.
  split; [|split].
  - apply (proj1 (C2_reconciled_lists Video Sample.index3 Sample.index0
                    "key" "kid" "./decrypt.sh" "/res/" "/dl/" "/mg/" 2
                    "audio.m3u8" "video.m3u8"
                    {| audio := None; video := None |})).
    reflexivity.
  - apply (proj1 (proj2 (C2_reconciled_lists Audio Sample.index3 Sample.index3
                    "key" "kid" "./decrypt.sh" "/res/" "/dl/" "/mg/" 2
                    "audio.m3u8" "video.m3u8"
                    {| audio := None; video := None |}))
             (Sample.ref "1a.m4s" 0 6)
             [Sample.ref "1b.m4s" 6 12; Sample.ref "1c.m4s" 12 18]).
    reflexivity.
  - apply (proj2 (proj2 (C2_reconciled_lists Audio Sample.index3 Sample.index3
                    "key" "kid" "./decrypt.sh" "/res/" "/dl/" "/mg/" 2
                    "audio.m3u8" "video.m3u8"
                    {| audio := None; video := None |}))).
    intros r _. reflexivity.
Defined.

(* ================================================================== *)
(** * Verification: track alignment *)
(* ================================================================== *)

Lemma iter_removelast {A : Type} (k : nat) (l : list A) :
  Nat.iter k (@removelast A) l = firstn (List.length l - k) l.
Proof.
  induction k as [|k IH]; [|rewrite Nat.iter_succ].
  - cbn. rewrite Nat.sub_0_r. now rewrite firstn_all.
  - rewrite IH, removelast_firstn_len, firstn_firstn, length_firstn.
    f_equal. lia.
Qed.

Lemma iter_pop_video (k : nat) (o : segment_saver) :
  Nat.iter k pop_video o
  = set_video o (Nat.iter k (@removelast string) (videoSegmentURIList_ o))
                (videoSegmentDurationList_ o).
Proof.
  induction k as [|k IH]; [|rewrite !Nat.iter_succ].
  - now destruct o.
  - rewrite IH. reflexivity.
Qed.

Lemma iter_pop_audio (k : nat) (o : segment_saver) :
  Nat.iter k pop_audio o
  = set_audio o (Nat.iter k (@removelast string) (audioSegmentURIList_ o))
                (audioSegmentDurationList_ o).
Proof.
  induction k as [|k IH]; [|rewrite !Nat.iter_succ].
  - now destruct o.
  - rewrite IH. reflexivity.
Qed.

Lemma alignTracks_prefixes (o : segment_saver) :
  let m := Nat.min (List.length (audioSegmentURIList_ o))
                   (List.length (videoSegmentURIList_ o)) in
  let o' := alignTracks o in
  audioSegmentURIList_ o' = firstn m (audioSegmentURIList_ o)
  /\ videoSegmentURIList_ o' = firstn m (videoSegmentURIList_ o)
  /\ audioSegmentDurationList_ o' = audioSegmentDurationList_ o
  /\ videoSegmentDurationList_ o' = videoSegmentDurationList_ o.
Proof.
  intros m o'. unfold o', alignTracks, m.
  destruct (Nat.eqb_spec (List.length (audioSegmentURIList_ o))
                         (List.length (videoSegmentURIList_ o))) as [E|N];
    cbn [negb].
  - rewrite E, Nat.min_id. rewrite <- E at 1.
    now rewrite !firstn_all.
  - destruct (Z.ltb_spec 0 (Z.of_nat (List.length (videoSegmentURIList_ o))
                            - Z.of_nat (List.length (audioSegmentURIList_ o))))
      as [Hlt|Hge].
    + rewrite iter_pop_video, iter_removelast. cbn.
      repeat split.
      * rewrite Nat.min_l by lia. now rewrite firstn_all.
      * f_equal. lia.
    + rewrite iter_pop_audio, iter_removelast. cbn.
      repeat split.
      * f_equal. lia.
      * rewrite Nat.min_r by lia. now rewrite firstn_all.
Qed.

Lemma alignTracks_lengths (o : segment_saver) :
  List.length (videoSegmentURIList_ (alignTracks o))
  = List.length (audioSegmentURIList_ (alignTracks o)).
Proof.
  destruct (alignTracks_prefixes o) as (Ha & Hv & _). cbv zeta in Ha, Hv.
  rewrite Ha, Hv, !length_firstn. lia.
Qed.

(** C6 (as the code has it). After alignment the audio and video URI
    lists have the same length, the smaller of the two lengths, each being
    the prefix of that length of what it was: only the longer one loses
    elements, and only at its end.  The duration lists are not touched. *)
Theorem C6_alignment_truncates_uri_lists (o : segment_saver) :
  let m := Nat.min (List.length (audioSegmentURIList_ o))
                   (List.length (videoSegmentURIList_ o)) in
  let o' := alignTracks o in
  audioSegmentURIList_ o' = firstn m (audioSegmentURIList_ o)
  /\ videoSegmentURIList_ o' = firstn m (videoSegmentURIList_ o)
  /\ List.length (audioSegmentURIList_ o') = m
  /\ List.length (videoSegmentURIList_ o') = m
  /\ audioSegmentDurationList_ o' = audioSegmentDurationList_ o
  /\ videoSegmentDurationList_ o' = videoSegmentDurationList_ o.
Proof.
  intros m o'.
  destruct (alignTracks_prefixes o) as (Ha & Hv & Hda & Hdv).
  cbv zeta in Ha, Hv, Hda, Hdv. fold m o' in Ha, Hv, Hda, Hdv.
  repeat split; try assumption.
  - rewrite Ha, length_firstn. unfold m. lia.
  - rewrite Hv, length_firstn. unfold m. lia.
Qed.

(** C6, refuted as stated: on an object whose video track is one element
    longer, both tracks start with lists of equal length, and after
    alignment the video URI list has two elements while the video duration
    list still has three. *)
Lemma C6_duration_list_keeps_its_length :
  lists_paired Sample.uneven /\ ~ lists_paired (alignTracks Sample.uneven).
Proof.
  split.
  - split; reflexivity.
  - intros [_ H]. cbv in H. discriminate H.
Qed.

(* ================================================================== *)
(** * Verification: the loops of [processSegmentList] *)
(* ================================================================== *)

Lemma bind_inr {A B : Type} (m : M A) (k : A -> M B) w w' b :
  bind m k w = (w', inr b) ->
  exists w1 a, m w = (w1, inr a) /\ k a w1 = (w', inr b).
Proof.
  unfold bind. destruct (m w) as [w1 [x|a]]; [discriminate|].
  intros H. now exists w1, a.
Qed.

Lemma bind_inl {A B : Type} (m : M A) (k : A -> M B) w w' x :
  bind m k w = (w', inl x) ->
  m w = (w', inl x)
  \/ exists w1 a, m w = (w1, inr a) /\ k a w1 = (w', inl x).
Proof.
  unfold bind. destruct (m w) as [w1 [y|a]].
  - intros H. injection H as <- <-. now left.
  - intros H. right. now exists w1, a.
Qed.

Section PipelineFacts.

Variable env : environment.

Lemma pipeline_only_ret {A : Type} (a : A) : pipeline_only (ret a).
Proof.
  intros w w' r H. injection H as <- _. split; [reflexivity|].
  exists []. now rewrite app_nil_r.
Qed.

Lemma pipeline_only_throw {A : Type} (x : exn) :
  pipeline_only (@throw A x).
Proof.
  intros w w' r H. injection H as <- _. split; [reflexivity|].
  exists []. now rewrite app_nil_r.
Qed.

Lemma pipeline_only_bind {A B : Type} (m : M A) (k : A -> M B) :
  pipeline_only m -> (forall a, pipeline_only (k a)) ->
  pipeline_only (bind m k).
Proof.
  intros Hm Hk w w' r H. unfold bind in H.
  destruct (m w) as [w1 [x|a]] eqn:E.
  - injection H as <- _. exact (Hm _ _ _ E).
  - destruct (Hm _ _ _ E) as (T1 & evs1 & H1 & F1).
    destruct (Hk a _ _ _ H) as (T2 & evs2 & H2 & F2).
    split; [congruence|].
    exists (evs1 ++ evs2). rewrite H2, H1, app_assoc. split; [reflexivity|].
    rewrite forallb_app, F1, F2. reflexivity.
Qed.

Lemma pipeline_only_get_this : pipeline_only get_this.
Proof.
  intros w w' r H. injection H as <- _. split; [reflexivity|].
  exists []. now rewrite app_nil_r.
Qed.

Lemma pipeline_only_get_template t : pipeline_only (get_template t).
Proof.
  intros w w' r H. injection H as <- _. split; [reflexivity|].
  exists []. now rewrite app_nil_r.
Qed.

Lemma pipeline_only_put_template t a : pipeline_only (put_template t a).
Proof.
  intros w w' r H. injection H as <- _. destruct t; (split; [reflexivity|]);
    exists []; cbn; now rewrite app_nil_r.
Qed.

Lemma pipeline_only_record {A : Type} (e : event) (f : world -> exn + A) :
  is_pipeline_event e = true ->
  forall w w' r, (record e w, f w) = (w', r) ->
    this w' = this w
    /\ exists evs, history w' = history w ++ evs
                   /\ forallb is_pipeline_event evs = true.
Proof.
  intros He w w' r H. injection H as <- _. split; [reflexivity|].
  exists [e]. cbn. now rewrite He.
Qed.

Lemma pipeline_only_download url dest :
  pipeline_only (socks5_http_download env url dest).
Proof.
  intros w. apply (pipeline_only_record (A := unit) _
    (fun w => if download_ok env (history w) url dest
              then inr tt else inl (NetError url))). reflexivity.
Qed.

Lemma pipeline_only_merge inputs output :
  pipeline_only (mergeFiles env inputs output).
Proof.
  intros w. apply (pipeline_only_record _
    (fun w => inr (merge_status env (history w) inputs output))).
  reflexivity.
Qed.

Lemma pipeline_only_exec command : pipeline_only (shell_exec env command).
Proof.
  intros w. apply (pipeline_only_record _
    (fun w => inr (exec_code env (history w) command))).
  reflexivity.
Qed.

Lemma pipeline_only_unlink path : pipeline_only (unlinkSync env path).
Proof.
  intros w. apply (pipeline_only_record (A := unit) _
    (fun w => if unlink_ok env (history w) path
              then inr tt else inl (FsError path))). reflexivity.
Qed.

Lemma pipeline_only_write path content :
  pipeline_only (writeFileSync env path content).
Proof.
  intros w. apply (pipeline_only_record (A := unit) _
    (fun w => if write_ok env (history w) path content
              then inr tt else inl (FsError path))). reflexivity.
Qed.

Ltac pipeline :=
  repeat first
    [ apply pipeline_only_ret
    | apply pipeline_only_throw
    | apply pipeline_only_get_this
    | apply pipeline_only_get_template
    | apply pipeline_only_put_template
    | apply pipeline_only_download
    | apply pipeline_only_merge
    | apply pipeline_only_exec
    | apply pipeline_only_unlink
    | apply pipeline_only_write
    | apply pipeline_only_bind; [|intros ?]
    | match goal with
      | |- pipeline_only (if ?b then _ else _) => destruct b
      | |- pipeline_only (match ?x with _ => _ end) => destruct x
      end ].

Lemma pipeline_only_updateMediaPlaylist t path d name :
  pipeline_only (updateMediaPlaylist env t path d name).
Proof. unfold updateMediaPlaylist. pipeline. Qed.

Section Lists.

Variables aU vU : list string.
Variables aD vD : list Z.
Variables key keyId : option string.

Abbreviation processTrack' := (processTrack env aU vU aD vD key keyId).
Abbreviation processIndex' := (processIndex env aU vU aD vD key keyId).

Lemma pipeline_only_processTrack i t lv :
  pipeline_only (processTrack' i t lv).
Proof.
  unfold processTrack. pipeline.
Qed.

Lemma pipeline_only_processIndex i lv :
  pipeline_only (processIndex' i lv).
Proof.
  unfold processIndex.
  apply pipeline_only_bind; [|intros ?];
    apply pipeline_only_processTrack.
Qed.

Lemma pipeline_only_for_each {A S : Type} (body : A -> S -> M S) xs s :
  (forall x s', pipeline_only (body x s')) ->
  pipeline_only (for_each body xs s).
Proof.
  intros Hb. revert s. induction xs as [|x xs IH]; intros s; cbn.
  - apply pipeline_only_ret.
  - apply pipeline_only_bind; [apply Hb | intros ?; apply IH].
Qed.

Lemma for_each_app {A S : Type} (body : A -> S -> M S) xs ys s w :
  for_each body (xs ++ ys) s w
  = bind (for_each body xs s) (for_each body ys) w.
Proof.
  revert s w. induction xs as [|x xs IH]; intros s w; cbn.
  - reflexivity.
  - unfold bind.
    destruct (body x s w) as [w1 [e|s1]]; [reflexivity|].
    rewrite IH. reflexivity.
Qed.

(** A pass that returns has made the assignments of its head. *)
Lemma processTrack_locals i t lv w w' lv' :
  processTrack' i t lv w = (w', inr lv') ->
  lv' = assign aU vU aD vD i t lv.
Proof.
  unfold processTrack. intros H.
  apply bind_inr in H. destruct H as (w0 & o & _ & H).
  destruct (nth_error (uriList aU vU t) i) as [url|]; [|discriminate H].
  apply bind_inr in H. destruct H as (w1 & [] & _ & H).
  apply bind_inr in H. destruct H as (w2 & [] & _ & H).
  now injection H as _ <-.
Qed.

Lemma processIndex_locals i lv w w' lv' :
  processIndex' i lv w = (w', inr lv') ->
  lv' = {| lastAudioURI := nth_error aU i;
           lastVideoURI := nth_error vU i;
           segmentDuration := nth_error vD i |}.
Proof.
  unfold processIndex, bind.
  destruct (processTrack' i Audio lv w) as [w1 [e|lv1]] eqn:E1;
    [discriminate|].
  intros E2. apply processTrack_locals in E1, E2. subst. reflexivity.
Qed.

Lemma for_each_locals xs lv w w' lv' :
  for_each processIndex' xs lv w = (w', inr lv') ->
  lv' = match xs with
        | [] => lv
        | _ => {| lastAudioURI := nth_error aU (last xs 0%nat);
                  lastVideoURI := nth_error vU (last xs 0%nat);
                  segmentDuration := nth_error vD (last xs 0%nat) |}
        end.
Proof.
  revert lv w. induction xs as [|x xs IH]; intros lv w; cbn.
  - unfold ret. intros H. now injection H as _ <-.
  - unfold bind.
    destruct (processIndex' x lv w) as [w1 [e|lv1]] eqn:E1;
      [discriminate|].
    intros E2. apply IH in E2. apply processIndex_locals in E1.
    destruct xs; subst; reflexivity.
Qed.

End Lists.

End PipelineFacts.

(* ================================================================== *)
(** * Verification: the shape of a cycle *)
(* ================================================================== *)

Section CycleFacts.

Variable env : environment.

Lemma last_seq (n : nat) : last (seq 0 (S n)) 0%nat = n.
Proof.
  rewrite seq_S. cbn [Nat.add]. now rewrite last_last.
Qed.

Lemma processSegments_unfold upd w :
  processSegments env upd w
  = let o := alignTracks (this w) in
    match for_each
            (processIndex env (audioSegmentURIList_ o) (videoSegmentURIList_ o)
               (audioSegmentDurationList_ o) (videoSegmentDurationList_ o)
               (decryptKey_ o) (keyId_ o))
            (seq 0 (List.length (audioSegmentURIList_ o))) no_locals
            (cycle_start env w) with
    | (w2, inl x) => (w2, inl x)
    | (w2, inr lv) => finish env (clock env (history w)) upd lv w2
    end.
Proof. reflexivity. Qed.

Lemma pacer_events_pace (now checkStart upd : Z) (d : option Z) (w : world) :
  pace (now - checkStart - upd) d w
  = (after (pacer_events (now - checkStart) upd d) w, inr tt).
Proof.
  assert (Hnil : ret tt w = (after [] w, inr tt)).
  { unfold ret, after. rewrite app_nil_r. now destruct w. }
  unfold pace, pacer_events. destruct d as [d|]; cbv zeta; [|exact Hnil].
  replace (d * 1000 - (now - checkStart - upd))
    with (d * 1000 - (now - checkStart) + upd) by lia.
  destruct (Z.ltb_spec (now - checkStart - upd) (d * 1000));
    destruct (Z.ltb_spec 0 (d * 1000 - (now - checkStart) + upd));
    try lia; [reflexivity | exact Hnil].
Qed.

Lemma finish_returns cs upd lv w2 w3 tok :
  finish env cs upd lv w2 = (w3, inr tok) ->
  let cleaned := history w2 ++ cleanup_events (this w2) in
  let now := clock env cleaned in
  history w3
    = cleaned ++ [DateNow now] ++ pacer_events (now - cs) upd (segmentDuration lv)
  /\ tok = {| audio := lastAudioURI lv; video := lastVideoURI lv |}
  /\ this w3 = clearReference_ (this w2)
  /\ audioMediaPLTemplate w3 = audioMediaPLTemplate w2
  /\ videoMediaPLTemplate w3 = videoMediaPLTemplate w2.
Proof.
  unfold finish, bind, get_this, emptyDirSync, Date_now.
  cbn [record this history].
  destruct (emptydir_ok env (history w2) (savePath_ (this w2) ++ "audio"))
    eqn:E1; [|discriminate].
  destruct (emptydir_ok env _ (savePath_ (this w2) ++ "video"))
    eqn:E2; [|discriminate].
  destruct (emptydir_ok env _ (mergePath_ (this w2) ++ "audio"))
    eqn:E3; [|discriminate].
  destruct (emptydir_ok env _ (mergePath_ (this w2) ++ "video"))
    eqn:E4; [|discriminate].
  rewrite pacer_events_pace. unfold ret, with_this. cbn.
  intros H. injection H as <- <-. cbn. unfold cleanup_events.
  rewrite <- !app_assoc. cbn. repeat split.
Qed.

Lemma finish_throws cs upd lv w2 w3 x :
  finish env cs upd lv w2 = (w3, inl x) -> is_structured x = false.
Proof.
  unfold finish, bind, get_this, emptyDirSync, Date_now.
  cbn [record this history].
  repeat match goal with
         | |- context [emptydir_ok env ?h ?p] =>
             destruct (emptydir_ok env h p);
             [|intros H; injection H as _ <-; reflexivity]
         end.
  rewrite pacer_events_pace. discriminate.
Qed.

End CycleFacts.

Section CycleShape.

Variable env : environment.

Lemma final_locals_loop o xs lv w w' :
  xs = seq 0 (List.length (audioSegmentURIList_ o)) ->
  for_each
    (processIndex env (audioSegmentURIList_ o) (videoSegmentURIList_ o)
       (audioSegmentDurationList_ o) (videoSegmentDurationList_ o)
       (decryptKey_ o) (keyId_ o)) xs no_locals w = (w', inr lv) ->
  lv = final_locals o.
Proof.
  intros -> H. apply for_each_locals in H. unfold final_locals.
  destruct (List.length (audioSegmentURIList_ o)) as [|n]; [exact H|].
  rewrite last_seq in H. rewrite H. reflexivity.
Qed.

(** A cycle that returns: the clock is read, the loops make pipeline calls
    only, the four directories are emptied, the clock is read again, the
    pacer may sleep, and the token holds the last values of the loop. *)
Lemma cycle_returns upd w w' tok :
  processSegments env upd w = (w', inr tok) ->
  let o := alignTracks (this w) in
  let cycleStart := clock env (history w) in
  exists loopEvents,
    forallb is_pipeline_event loopEvents = true
    /\ let cleaned := history w ++ [DateNow cycleStart] ++ loopEvents
                      ++ cleanup_events o in
       let now := clock env cleaned in
       history w' = cleaned ++ [DateNow now]
                    ++ pacer_events (now - cycleStart) upd
                         (segmentDuration (final_locals o))
       /\ tok = {| audio := lastAudioURI (final_locals o);
                   video := lastVideoURI (final_locals o) |}.
Proof.
  rewrite processSegments_unfold. cbv zeta.
  set (o := alignTracks (this w)).
  destruct (for_each _ _ no_locals (cycle_start env w)) as [w2 [x|lv]] eqn:E;
    [discriminate|].
  intros F.
  pose proof (final_locals_loop o _ lv _ _ eq_refl E) as ->.
  apply pipeline_only_for_each in E;
    [|intros; apply pipeline_only_processIndex].
  destruct E as (T & evs & Hh & Hp).
  apply finish_returns in F. cbv zeta in F.
  destruct F as (Hh3 & Htok & _).
  exists evs. split; [exact Hp|]. cbv zeta.
  rewrite T, Hh in Hh3. cbn [cycle_start record history with_this this] in Hh3.
  fold o in Hh3. rewrite <- !app_assoc in Hh3.
  rewrite <- !app_assoc. split; [exact Hh3 | exact Htok].
Qed.

(** A cycle that throws a structured error threw it from its loops. *)
Lemma cycle_throws_structured upd w w' x :
  processSegments env upd w = (w', inl x) ->
  is_structured x = true ->
  exists loopEvents,
    forallb is_pipeline_event loopEvents = true
    /\ history w' = history w ++ [DateNow (clock env (history w))]
                    ++ loopEvents.
Proof.
  rewrite processSegments_unfold. cbv zeta.
  destruct (for_each _ _ no_locals (cycle_start env w)) as [w2 [y|lv]] eqn:E.
  - intros H _. injection H as <- <-.
    apply pipeline_only_for_each in E;
      [|intros; apply pipeline_only_processIndex].
    destruct E as (_ & evs & Hh & Hp). exists evs. split; [exact Hp|].
    rewrite Hh. cbn. now rewrite <- app_assoc.
  - intros F Hs. apply finish_throws in F. congruence.
Qed.

End CycleShape.

(** C8. In a cycle that completes, let [elapsed] be the second reading of
    the clock (taken once the scratch directories are emptied) minus the
    first (taken before the loops), and let the segment duration be that
    of the last pass of the loops.  With
    slack = duration * 1000 - (elapsed - updateDuration), the cycle ends
    with a suspension of exactly [slack] milliseconds when [slack] is
    positive, and without any suspension otherwise (also when no pass
    ran); nothing before the second clock reading is a suspension. *)
Theorem C8_pacer_sleeps_for_the_slack
    (env : environment) (updateDuration : Z) (w w' : world) (tok : token) :
  processSegments env updateDuration w = (w', inr tok) ->
  let o := alignTracks (this w) in
  let cycleStart := clock env (history w) in
  exists loopEvents,
    forallb is_pipeline_event loopEvents = true
    /\ let cleaned := history w ++ [DateNow cycleStart] ++ loopEvents
                      ++ cleanup_events o in
       let now := clock env cleaned in
       let elapsed := now - cycleStart in
       history w'
       = cleaned ++ [DateNow now]
         ++ match segmentDuration (final_locals o) with
            | Some d =>
                let slack := d * 1000 - (elapsed - updateDuration) in
                if 0 <? slack then [Sleep slack] else []
            | None => []
            end.
Proof.
  intros H. apply cycle_returns in H. cbv zeta in H.
  destruct H as (evs & Hp & Hh & _).
  exists evs. split; [exact Hp|]. exact Hh.
Qed.

(** Scenario D of the specification: 400 ms elapsed, an update duration
    of 2000 ms and a last segment of 6 s give a suspension of 7600 ms. *)
Lemma C8_pacer_sleeps_for_the_slack_witness :
  let w := Sample.fresh (Sample.saver 2 Sample.cold) in
  let run := processSegments Sample.env_ok 2000 w in
  let tok := {| audio := Some "http://cdn/t/1c.m4s";
                video := Some "http://cdn/t/1c.m4s" |} in
  run = (fst run, inr tok)
  /\ last (history (fst run)) (Sleep 0) = Sleep (6 * 1000 - (400 - 2000))
  /\ 6 * 1000 - (400 - 2000) = 7600.
Proof.
  intros w run tok.
  assert (E : run = (fst run, inr tok)) by (vm_compute; reflexivity).
  split; [exact E|]. split; [|reflexivity].
  destruct (C8_pacer_sleeps_for_the_slack Sample.env_ok 2000 w (fst run) tok E)
    as (evs & _ & Hh).
  cbv zeta in Hh. rewrite Hh.
  replace (segmentDuration (final_locals (alignTracks (this w))))
    with (Some 6) by (vm_compute; reflexivity).
  change (history w) with (@nil event).
  cbn [app Sample.env_ok clock].
  change (0 <? 6 * 1000 - (400 - 0 - 2000)) with true. cbv iota.
  assert (R : forall (X : list event) (a b : event),
               last (DateNow 0 :: X ++ [a; b]) (Sleep 0) = b).
  { intros X a b.
    change (DateNow 0 :: X ++ [a; b]) with ((DateNow 0 :: X) ++ [a] ++ [b]).
    rewrite app_assoc. apply last_last. }
  exact (R _ _ _).
Defined.

(** C9 (as the code has it). A cycle that completes has emptied the audio
    and video subdirectories of the download root and of the merge root,
    in that order, after the last call of its loops and before the second
    reading of the clock.  A cycle that a structured error aborts has made
    pipeline calls only after reading the clock: no directory was
    emptied. *)
Theorem C9_cleanup_only_on_completion
    (env : environment) (updateDuration : Z) (w w' : world)
    (r : exn + token) :
  processSegments env updateDuration w = (w', r) ->
  let o := alignTracks (this w) in
  let cycleStart := clock env (history w) in
  exists loopEvents,
    forallb is_pipeline_event loopEvents = true
    /\ match r with
       | inr _ =>
           exists rest,
             history w' = history w ++ [DateNow cycleStart] ++ loopEvents
                          ++ cleanup_events o ++ rest
             /\ filter is_EmptyDir rest = []
       | inl x =>
           is_structured x = true ->
           history w' = history w ++ [DateNow cycleStart] ++ loopEvents
           /\ filter is_EmptyDir ([DateNow cycleStart] ++ loopEvents) = []
       end.
Proof.
  intros H. cbv zeta. destruct r as [x|tok].
  - destruct (is_structured x) eqn:Hs.
    + destruct (cycle_throws_structured env _ _ _ _ H Hs) as (evs & Hp & Hh).
      exists evs. split; [exact Hp|]. intros _. split; [exact Hh|].
      cbn. clear Hh. induction evs as [|e evs IH]; [reflexivity|].
      cbn in Hp. apply andb_prop in Hp. destruct Hp as [He Hp].
      cbn. destruct e; try discriminate He; cbn; auto.
    + exists []. split; [reflexivity|]. discriminate.
  - apply cycle_returns in H. cbv zeta in H.
    destruct H as (evs & Hp & Hh & _).
    exists evs. split; [exact Hp|].
    eexists. split.
    + rewrite Hh. rewrite <- !app_assoc. reflexivity.
    + cbn. destruct (segmentDuration _) as [d|]; cbn; [|reflexivity].
      match goal with |- context [if ?b then _ else _] => destruct b end;
        reflexivity.
Qed.

(** A cold cycle over the sample index completes and empties the
    directories. *)
Lemma C9_cleanup_only_on_completion_witness :
  let w := Sample.fresh (Sample.saver 2 Sample.cold) in
  let run := processSegments Sample.env_ok 2000 w in
  let tok := {| audio := Some "http://cdn/t/1c.m4s";
                video := Some "http://cdn/t/1c.m4s" |} in
  run = (fst run, inr tok)
  /\ In (EmptyDir "/dl/audio" true) (history (fst run))
  /\ In (EmptyDir "/mg/video" true) (history (fst run)).
Proof.
  intros w run tok.
  assert (E : run = (fst run, inr tok)) by (vm_compute; reflexivity).
  split; [exact E|].
  destruct (C9_cleanup_only_on_completion Sample.env_ok 2000 w (fst run)
              (inr tok) E) as (evs & _ & rest & Hh & _).
  rewrite Hh.
  split; (apply in_or_app; right; apply in_or_app; right; apply in_or_app;
          right; apply in_or_app; left; cbn; auto).
Defined.

(** C9, refuted as stated: the decryption of the third audio segment
    exits with code 1; the cycle throws the structured error and no
    directory has been emptied. *)
Lemma C9_no_cleanup_after_abort :
  let w := Sample.fresh (Sample.saver 3 Sample.cold) in
  let run := processSegments Sample.env_decrypt_fails 2000 w in
  snd run = inl segment_manipulation_failed
  /\ filter is_EmptyDir (history (fst run)) = [].
Proof. vm_compute. split; reflexivity. Qed.

(* ================================================================== *)
(** * Verification: failures of the segment pipeline *)
(* ================================================================== *)

Section Failure.

Variable env : environment.

Lemma processTrack_manipulation_fails aU vU aD vD i t lv w url evs :
  nth_error (uriList aU vU t) i = Some url ->
  segmentName url <> initFile ->
  download_ok env (history w) url (saveName (this w) t url) = true ->
  manipulation_fails env (this w) (history w) t url evs ->
  processTrack env aU vU aD vD (decryptKey_ (this w)) (keyId_ (this w))
    i t lv w
  = (after evs w, inl segment_manipulation_failed).
Proof.
  intros Hurl Hname Hdl Hfail.
  apply String.eqb_neq in Hname.
  unfold processTrack, bind, get_this. rewrite Hurl.
  unfold socks5_http_download. rewrite Hdl. rewrite Hname. cbn [negb].
  unfold mergeFiles. cbn [record history this].
  destruct Hfail as [fetched Hm | c fetched merged command Hm Hc Hne];
    subst fetched; rewrite Hm.
  - unfold throw, after, record. cbn. now rewrite <- app_assoc.
  - unfold shell_exec. cbn [record history this].
    subst merged command. rewrite app_assoc in Hc. rewrite Hc.
    apply Z.eqb_neq in Hne. rewrite Hne. cbn [negb].
    unfold throw, after, record. cbn. now rewrite <- !app_assoc.
Qed.

Lemma passesBefore_this o i t w w1 lv1 :
  passesBefore env o i t w = (w1, inr lv1) -> this w1 = this w.
Proof.
  intros H.
  assert (P : pipeline_only (passesBefore env o i t)).
  { unfold passesBefore. apply pipeline_only_bind.
    - apply pipeline_only_for_each. intros. apply pipeline_only_processIndex.
    - intros lv. destruct t.
      + apply pipeline_only_ret.
      + apply pipeline_only_processTrack. }
  exact (proj1 (P _ _ _ H)).
Qed.

End Failure.


(* ================================================================== *)
(** * Verification: strings and the media-sequence pattern *)
(* ================================================================== *)

Module StringFacts.

Lemma append_assoc (a b c : string) : ((a ++ b) ++ c = a ++ b ++ c)%string.
Proof. induction a as [|x a IH]; cbn; [reflexivity | now rewrite IH]. Qed.

Lemma append_nil_r (a : string) : (a ++ EmptyString)%string = a.
Proof. induction a as [|x a IH]; cbn; [reflexivity | now rewrite IH]. Qed.

Lemma is_digit_not_hash c : Js.is_digit c = true -> Ascii.eqb c "#" = false.
Proof.
  destruct c as [[] [] [] [] [] [] [] []]; intros H;
    first [reflexivity | discriminate H].
Qed.

Lemma ci_eqb_hash_l c : Js.ci_eqb "#" c = true -> c = "#"%char.
Proof.
  destruct c as [[] [] [] [] [] [] [] []]; intros H;
    first [reflexivity | discriminate H].
Qed.

Lemma ci_eqb_hash_r c : Js.ci_eqb c "#" = true -> c = "#"%char.
Proof.
  destruct c as [[] [] [] [] [] [] [] []]; intros H;
    first [reflexivity | discriminate H].
Qed.

Lemma ci_eqb_dash c : Js.ci_eqb "-" c = true -> c = "-"%char.
Proof.
  destruct c as [[] [] [] [] [] [] [] []]; intros H;
    first [reflexivity | discriminate H].
Qed.

Lemma upcase_digit c : Js.is_digit c = true -> Js.upcase c = c.
Proof.
  destruct c as [[] [] [] [] [] [] [] []]; intros H;
    first [reflexivity | discriminate H].
Qed.

Lemma upcase_is_digit c :
  Js.is_digit (Js.upcase c) = true -> Js.is_digit c = true.
Proof.
  destruct c as [[] [] [] [] [] [] [] []]; intros H;
    first [reflexivity | discriminate H].
Qed.

Lemma ci_eqb_digit a b :
  Js.ci_eqb a b = true -> Js.is_digit b = true -> Js.is_digit a = true.
Proof.
  unfold Js.ci_eqb. intros H Hb. apply Ascii.eqb_eq in H.
  rewrite (upcase_digit b Hb) in H. apply upcase_is_digit.
  now rewrite H.
Qed.

Lemma digit_char c :
  Js.is_digit c = true ->
  forall u, exists u', uint_of_char c (Some u) = Some u'.
Proof.
  destruct c as [[] [] [] [] [] [] [] []]; intros H u;
    first [discriminate H | eexists; reflexivity].
Qed.

Lemma has_char_app c a b :
  Js.has_char c (a ++ b) = Js.has_char c a || Js.has_char c b.
Proof.
  induction a as [|x a IH]; cbn; [reflexivity|].
  now rewrite IH, orb_assoc.
Qed.

Lemma all_digits_no_hash d :
  all_digits d = true -> Js.has_char "#" d = false.
Proof.
  induction d as [|c d IH]; cbn; [reflexivity|].
  intros H. apply andb_prop in H. destruct H as [Hc Hd].
  now rewrite (is_digit_not_hash c Hc), IH.
Qed.

(** ** The literal part of the pattern *)

Lemma ci_prefix_sound q s m r :
  Js.ci_prefix q s = Some (m, r) -> s = (m ++ r)%string.
Proof.
  revert s m r. induction q as [|a q IH]; intros s m r; cbn.
  - intros H. now injection H as <- <-.
  - destruct s as [|b s]; [discriminate|].
    destruct (Js.ci_eqb a b); [|discriminate].
    destruct (Js.ci_prefix q s) as [[m' r']|] eqn:E; [|discriminate].
    intros H. injection H as <- <-. cbn. f_equal. now apply IH.
Qed.

Lemma ci_prefix_stable q s m r :
  Js.ci_prefix q s = Some (m, r) ->
  forall z, Js.ci_prefix q (m ++ z) = Some (m, z).
Proof.
  revert s m r. induction q as [|a q IH]; intros s m r; cbn.
  - intros H z. now injection H as <- _.
  - destruct s as [|b s]; [discriminate|].
    destruct (Js.ci_eqb a b) eqn:Eab; [|discriminate].
    destruct (Js.ci_prefix q s) as [[m' r']|] eqn:E; [|discriminate].
    intros H z. injection H as <- <-. cbn. rewrite Eab.
    now rewrite (IH _ _ _ E z).
Qed.

Lemma ci_prefix_no_hash q s m r :
  Js.has_char "#" q = false ->
  Js.ci_prefix q s = Some (m, r) -> Js.has_char "#" m = false.
Proof.
  revert s m r. induction q as [|a q IH]; intros s m r; cbn.
  - intros _ H. now injection H as <- _.
  - intros Hq. apply orb_false_elim in Hq. destruct Hq as [Ha Hq].
    destruct s as [|b s]; [discriminate|].
    destruct (Js.ci_eqb a b) eqn:Eab; [|discriminate].
    destruct (Js.ci_prefix q s) as [[m' r']|] eqn:E; [|discriminate].
    intros H. injection H as <- <-. cbn. rewrite (IH _ _ _ Hq E).
    rewrite orb_false_r. destruct (Ascii.eqb b "#") eqn:Eb; [|reflexivity].
    apply Ascii.eqb_eq in Eb. subst b. apply ci_eqb_hash_r in Eab. subst a.
    discriminate Ha.
Qed.

Lemma ci_prefix_no_digit q s m r :
  no_digit q = true ->
  Js.ci_prefix q s = Some (m, r) -> no_digit m = true.
Proof.
  revert s m r. induction q as [|a q IH]; intros s m r; cbn.
  - intros _ H. now injection H as <- _.
  - intros Hq. apply andb_prop in Hq. destruct Hq as [Ha Hq].
    destruct s as [|b s]; [discriminate|].
    destruct (Js.ci_eqb a b) eqn:Eab; [|discriminate].
    destruct (Js.ci_prefix q s) as [[m' r']|] eqn:E; [|discriminate].
    intros H. injection H as <- <-. cbn. rewrite (IH _ _ _ Hq E).
    rewrite andb_true_r. destruct (Js.is_digit b) eqn:Eb; [|reflexivity].
    rewrite (ci_eqb_digit a b Eab Eb) in Ha. discriminate Ha.
Qed.

(** A literal without ['#'] that matches in front of a ['#'] matches
    before it, whatever follows the ['#']. *)
Lemma ci_prefix_before_hash q p X :
  Js.has_char "#" q = false ->
  match Js.ci_prefix q (p ++ String "#" X) with
  | Some (m, r) => exists r0, p = (m ++ r0)%string
                              /\ r = (r0 ++ String "#" X)%string
  | None => forall Y, Js.ci_prefix q (p ++ String "#" Y) = None
  end.
Proof.
  revert p. induction q as [|a q IH]; intros p Hq; cbn.
  - now exists p.
  - cbn in Hq. apply orb_false_elim in Hq. destruct Hq as [Ha Hq].
    destruct p as [|b p]; cbn.
    + destruct (Js.ci_eqb a "#") eqn:E.
      * apply ci_eqb_hash_r in E. subst a. discriminate Ha.
      * reflexivity.
    + destruct (Js.ci_eqb a b) eqn:Eab; [|reflexivity].
      specialize (IH p Hq).
      destruct (Js.ci_prefix q (p ++ String "#" X)) as [[m r]|].
      * destruct IH as (r0 & -> & ->). now exists r0.
      * intros Y. now rewrite IH.
Qed.

(** ** The digits of the pattern *)

Lemma span_digits_sound s d r :
  Js.span_digits s = (d, r) ->
  s = (d ++ r)%string /\ all_digits d = true
  /\ Js.span_digits r = (EmptyString, r).
Proof.
  revert d r. induction s as [|c s IH]; intros d r; cbn.
  - intros H. injection H as <- <-. repeat split.
  - destruct (Js.is_digit c) eqn:Ec.
    + destruct (Js.span_digits s) as [d' r'] eqn:E.
      intros H. injection H as <- <-.
      destruct (IH d' r' eq_refl) as (-> & Hd & Hr).
      cbn. rewrite Ec, Hd. repeat split. exact Hr.
    + intros H. injection H as <- <-. cbn. rewrite Ec. repeat split.
Qed.

Lemma span_digits_app d r :
  all_digits d = true ->
  Js.span_digits r = (EmptyString, r) ->
  Js.span_digits (d ++ r) = (d, r).
Proof.
  intros Hd Hr. induction d as [|c d IH]; cbn.
  - exact Hr.
  - cbn in Hd. apply andb_prop in Hd. destruct Hd as [Hc Hd].
    rewrite Hc, (IH Hd). reflexivity.
Qed.

Lemma span_digits_hash r0 X :
  Js.span_digits (r0 ++ String "#" X)
  = (fst (Js.span_digits r0), (snd (Js.span_digits r0) ++ String "#" X)%string).
Proof.
  induction r0 as [|c r0 IH]; cbn.
  - reflexivity.
  - destruct (Js.is_digit c); [|reflexivity].
    rewrite IH. now destruct (Js.span_digits r0).
Qed.

Lemma span_digits_all d :
  all_digits d = true -> Js.span_digits d = (d, EmptyString).
Proof.
  intros Hd. rewrite <- (span_digits_app d EmptyString Hd eq_refl).
  now rewrite append_nil_r.
Qed.

Lemma all_digits_string_of_uint u :
  all_digits (NilEmpty.string_of_uint u) = true.
Proof. induction u; cbn; auto. Qed.

Lemma show_N_digits n : all_digits (Js.show_N (Some n)) = true.
Proof. apply all_digits_string_of_uint. Qed.

Lemma show_N_nonempty n : Js.show_N (Some n) <> EmptyString.
Proof.
  unfold Js.show_N. destruct n as [|p]; [discriminate|].
  cbn [N.to_uint]. pose proof (DecimalPos.Unsigned.to_uint_nonnil p) as H.
  destruct (Pos.to_uint p); [congruence | discriminate ..].
Qed.

Lemma all_digits_uint d :
  all_digits d = true -> exists u, NilEmpty.uint_of_string d = Some u.
Proof.
  induction d as [|c d IH]; cbn.
  - now exists Decimal.Nil.
  - intros H. apply andb_prop in H. destruct H as [Hc Hd].
    destruct (IH Hd) as (u & ->). exact (digit_char c Hc u).
Qed.

Lemma parseInt_digits d :
  all_digits d = true -> d <> EmptyString ->
  exists n, Js.parseInt d = Some n.
Proof.
  intros Hd Hne. unfold Js.parseInt.
  rewrite (span_digits_all d Hd). cbn [fst].
  destruct (all_digits_uint d Hd) as (u & Hu).
  destruct d as [|c d]; [congruence|]. rewrite Hu. now eexists.
Qed.

Lemma parseInt_show n : Js.parseInt (Js.show_N (Some n)) = Some n.
Proof.
  unfold Js.parseInt.
  rewrite (span_digits_all _ (show_N_digits n)).
  cbn [fst]. pose proof (show_N_nonempty n) as Hne.
  destruct (Js.show_N (Some n)) as [|c d] eqn:E; [congruence|].
  rewrite <- E. unfold Js.show_N. rewrite NilEmpty.usu. cbn.
  now rewrite DecimalN.Unsigned.of_to.
Qed.

Lemma strip_no_digit m z :
  no_digit m = true ->
  Js.strip_leading_non_digits (m ++ z) = Js.strip_leading_non_digits z.
Proof.
  induction m as [|c m IH]; cbn; [reflexivity|].
  intros H. apply andb_prop in H. destruct H as [Hc Hm].
  apply negb_true_iff in Hc. rewrite Hc. now apply IH.
Qed.

Lemma strip_digits d :
  all_digits d = true -> Js.strip_leading_non_digits d = d.
Proof.
  destruct d as [|c d]; cbn; [reflexivity|].
  intros H. apply andb_prop in H. destruct H as [Hc _]. now rewrite Hc.
Qed.

(** ** One match of the pattern *)

Lemma ci_prefix_cons_eq a q b s :
  Js.ci_prefix (String a q) (String b s)
  = if Js.ci_eqb a b
    then match Js.ci_prefix q s with
         | Some (m, r) => Some (String b m, r)
         | None => None
         end
    else None.
Proof. reflexivity. Qed.

Lemma tag_unfold : media_sequence_tag = String "#" tag_tail.
Proof. reflexivity. Qed.

Lemma match_here_sound s m post :
  match_here s = Some (m, post) ->
  exists lit d,
    m = String "#" (lit ++ d)
    /\ s = (m ++ post)%string
    /\ Js.ci_prefix tag_tail (lit ++ d ++ post) = Some (lit, (d ++ post)%string)
    /\ Js.has_char "#" lit = false
    /\ no_digit lit = true
    /\ all_digits d = true
    /\ d <> EmptyString
    /\ Js.span_digits post = (EmptyString, post).
Proof.
  unfold match_here. rewrite tag_unfold.
  destruct s as [|c s]; [discriminate|]. rewrite ci_prefix_cons_eq.
  destruct (Js.ci_eqb "#" c) eqn:Ec; [|discriminate].
  apply ci_eqb_hash_l in Ec. subst c.
  destruct (Js.ci_prefix tag_tail s) as [[lit r]|] eqn:E; [|discriminate].
  destruct (Js.span_digits r) as [d r'] eqn:Ed.
  destruct d as [|c d]; [discriminate|].
  intros H. injection H as <- <-.
  destruct (span_digits_sound _ _ _ Ed) as (-> & Hd & Hr).
  pose proof (ci_prefix_sound _ _ _ _ E) as ->.
  exists lit, (String c d). repeat split; auto.
  - cbn. now rewrite !append_assoc.
  - exact (ci_prefix_no_hash tag_tail _ _ _ eq_refl E).
  - exact (ci_prefix_no_digit tag_tail _ _ _ eq_refl E).
  - discriminate.
Qed.

(** A match that starts before a ['#'] ends before it, so that what
    follows the ['#'] is of no account. *)
Lemma match_here_before_hash c p X Y :
  match_here (String c (p ++ String "#" X)) = None ->
  match_here (String c (p ++ String "#" Y)) = None.
Proof.
  unfold match_here. rewrite tag_unfold, !ci_prefix_cons_eq.
  destruct (Js.ci_eqb "#" c); [|reflexivity].
  pose proof (ci_prefix_before_hash tag_tail p X eq_refl) as HX.
  destruct (Js.ci_prefix tag_tail (p ++ String "#" X)) as [[m r]|] eqn:E.
  - destruct HX as (r0 & -> & ->).
    rewrite append_assoc.
    rewrite append_assoc in E.
    rewrite (ci_prefix_stable _ _ _ _ E (r0 ++ String "#" Y)).
    rewrite !span_digits_hash. cbn [fst snd].
    destruct (fst (Js.span_digits r0)); [reflexivity | discriminate].
  - intros _. now rewrite HX.
Qed.

Lemma match_here_new n post :
  Js.span_digits post = (EmptyString, post) ->
  match_here (media_sequence_tag ++ Js.show_N (Some n) ++ post)
  = Some ((media_sequence_tag ++ Js.show_N (Some n))%string, post).
Proof.
  intros Hpost. unfold match_here.
  assert (E : Js.ci_prefix media_sequence_tag media_sequence_tag
              = Some (media_sequence_tag, EmptyString)) by reflexivity.
  rewrite (ci_prefix_stable _ _ _ _ E).
  rewrite (span_digits_app _ _ (show_N_digits n) Hpost).
  pose proof (show_N_nonempty n) as Hne.
  destruct (Js.show_N (Some n)); [congruence | reflexivity].
Qed.

(** ** The leftmost match *)

Lemma regEx_exec_eq s :
  regEx_exec s
  = match match_here s with
    | Some (m, r) => Some (EmptyString, m, r)
    | None =>
        match s with
        | EmptyString => None
        | String c s' =>
            match regEx_exec s' with
            | Some (pre, m, post) => Some (String c pre, m, post)
            | None => None
            end
        end
    end.
Proof. destruct s; reflexivity. Qed.

Lemma regEx_exec_sound s pre m post :
  regEx_exec s = Some (pre, m, post) ->
  s = (pre ++ m ++ post)%string
  /\ match_here (m ++ post) = Some (m, post).
Proof.
  revert pre. induction s as [|c s IH]; intros pre; rewrite regEx_exec_eq.
  - destruct (match_here EmptyString) as [[m' r']|] eqn:E; [|discriminate].
    intros H. injection H as <- <- <-.
    destruct (match_here_sound _ _ _ E) as (lit & d & _ & Hs & _).
    cbn. rewrite <- Hs. split; [reflexivity | exact E].
  - destruct (match_here (String c s)) as [[m' r']|] eqn:E.
    + intros H. injection H as <- <- <-.
      destruct (match_here_sound _ _ _ E) as (lit & d & _ & Hs & _).
      cbn [append]. rewrite <- Hs. split; [reflexivity | exact E].
    + destruct (regEx_exec s) as [[[pre' m'] post']|]; [|discriminate].
      intros H. injection H as <- <- <-.
      destruct (IH pre' eq_refl) as [-> Hm]. split; [reflexivity | exact Hm].
Qed.

(** Replacing the leftmost match by another text that matches leaves it
    the leftmost match. *)
Lemma regEx_exec_replace pre X Y m post m' post' :
  regEx_exec (pre ++ String "#" X) = Some (pre, m, post) ->
  match_here (String "#" Y) = Some (m', post') ->
  regEx_exec (pre ++ String "#" Y) = Some (pre, m', post').
Proof.
  intros HX HY. revert HX. induction pre as [|c pre IH];
    cbn [append]; rewrite !(regEx_exec_eq (String _ _)).
  - intros _. now rewrite HY.
  - destruct (match_here (String c (pre ++ String "#" X))) as [[m0 r0]|] eqn:E;
      [discriminate|].
    rewrite (match_here_before_hash c pre X Y E).
    destruct (regEx_exec (pre ++ String "#" X)) as [[[pre0 m0] post0]|] eqn:E0;
      [|discriminate].
    intros H. injection H as -> -> ->. now rewrite IH.
Qed.

(** ** Occurrences of a marker that starts with ['#'] *)

Lemma starts_with_before_hash q p X Y :
  Js.has_char "#" q = false ->
  Js.starts_with q (p ++ String "#" X) = Js.starts_with q (p ++ String "#" Y).
Proof.
  revert p. induction q as [|a q IH]; intros p Hq; [reflexivity|].
  cbn in Hq. apply orb_false_elim in Hq. destruct Hq as [Ha Hq].
  destruct p as [|b p]; cbn.
  - now rewrite Ha.
  - now rewrite (IH p Hq).
Qed.

Lemma includes_eq P s :
  Js.includes P s
  = Js.starts_with P s
    || match s with
       | EmptyString => false
       | String _ s' => Js.includes P s'
       end.
Proof. destruct s; reflexivity. Qed.

Lemma includes_skip P r z :
  Js.has_char "#" r = false ->
  Js.includes (String "#" P) (r ++ z) = Js.includes (String "#" P) z.
Proof.
  induction r as [|c r IH]; cbn [append]; [reflexivity|].
  intros H. cbn in H. apply orb_false_elim in H. destruct H as [Hc Hr].
  rewrite includes_eq. cbn [Js.starts_with].
  rewrite Ascii.eqb_sym, Hc. cbn. now apply IH.
Qed.

Lemma includes_hash_block P pre r r' post :
  Js.has_char "#" P = false ->
  Js.has_char "#" r = false ->
  Js.has_char "#" r' = false ->
  Js.starts_with (String "#" P) (String "#" (r ++ post)) = false ->
  Js.starts_with (String "#" P) (String "#" (r' ++ post)) = false ->
  Js.includes (String "#" P) (pre ++ String "#" (r ++ post))
  = Js.includes (String "#" P) (pre ++ String "#" (r' ++ post)).
Proof.
  intros HP Hr Hr' Hs Hs'. induction pre as [|c pre IH]; cbn [append].
  - rewrite (includes_eq _ (String "#" (r ++ post))), Hs.
    rewrite (includes_eq _ (String "#" (r' ++ post))), Hs'.
    cbn [orb]. now rewrite !includes_skip.
  - rewrite (includes_eq _ (String c (pre ++ String "#" (r ++ post)))).
    rewrite (includes_eq _ (String c (pre ++ String "#" (r' ++ post)))).
    rewrite IH. f_equal. cbn [Js.starts_with].
    now rewrite (starts_with_before_hash P pre (r ++ post) (r' ++ post) HP).
Qed.

Lemma ci_tail_not_extinf s m r :
  Js.ci_prefix tag_tail s = Some (m, r) ->
  Js.starts_with "EXTINF:" s = false.
Proof.
  unfold tag_tail.
  destruct s as [|c1 [|c2 [|c3 [|c4 s]]]];
    try (intros _; cbn; now rewrite ?andb_false_r).
  rewrite !ci_prefix_cons_eq.
  destruct (Js.ci_eqb "E" c1); [|discriminate].
  destruct (Js.ci_eqb "X" c2); [|discriminate].
  destruct (Js.ci_eqb "T" c3); [|discriminate].
  destruct (Js.ci_eqb "-" c4) eqn:E4; [|discriminate].
  apply ci_eqb_dash in E4. subst c4. intros _. cbn.
  now rewrite !andb_false_r.
Qed.

(** ** The update of the media-sequence directive *)

Lemma bumpMediaSequence_shape first new :
  bumpMediaSequence first = Some new ->
  exists pre lit d post n,
    first = (pre ++ String "#" ((lit ++ d) ++ post))%string
    /\ new = (pre ++ String "#"
                 ((tag_tail ++ Js.show_N (Some (N.succ n))) ++ post))%string
    /\ regEx_exec first = Some (pre, String "#" (lit ++ d), post)
    /\ Js.parseInt (Js.strip_leading_non_digits (String "#" (lit ++ d)))
       = Some n
    /\ Js.ci_prefix tag_tail (lit ++ d ++ post) = Some (lit, (d ++ post)%string)
    /\ Js.has_char "#" lit = false
    /\ all_digits d = true
    /\ Js.span_digits post = (EmptyString, post).
Proof.
  unfold bumpMediaSequence.
  destruct (regEx_exec first) as [[[pre m] post]|] eqn:E; [|discriminate].
  intros H. injection H as <-.
  destruct (regEx_exec_sound _ _ _ _ E) as [Hfirst Hm].
  destruct (match_here_sound _ _ _ Hm)
    as (lit & d & -> & _ & Hci & Hhash & Hnd & Hd & Hne & Hpost).
  assert (Hstrip : Js.strip_leading_non_digits (String "#" (lit ++ d)) = d).
  { cbn. rewrite (strip_no_digit lit d Hnd). now apply strip_digits. }
  destruct (parseInt_digits d Hd Hne) as (n & Hn).
  exists pre, lit, d, post, n. rewrite Hstrip, Hn. cbn [option_map].
  repeat split; auto.
Qed.

(** The update does not change whether the element counts as a segment
    entry. *)
Lemma bumpMediaSequence_includes first new :
  bumpMediaSequence first = Some new ->
  Js.includes extinf_marker new = Js.includes extinf_marker first.
Proof.
  intros H. apply bumpMediaSequence_shape in H.
  destruct H as (pre & lit & d & post & n & -> & -> & _ & _ & Hci & Hl & Hd & _).
  symmetry. apply (includes_hash_block "EXTINF:"); try reflexivity.
  - now rewrite has_char_app, Hl, (all_digits_no_hash _ Hd).
  - now rewrite has_char_app, (all_digits_no_hash _ (show_N_digits _)).
  - cbn. rewrite append_assoc. exact (ci_tail_not_extinf _ _ _ Hci).
Qed.

(** The update increases the number of the directive by one. *)
Lemma bumpMediaSequence_succ first new :
  bumpMediaSequence first = Some new ->
  exists n, sequenceNumber first = Some n
            /\ sequenceNumber new = Some (N.succ n).
Proof.
  intros H. apply bumpMediaSequence_shape in H.
  destruct H as (pre & lit & d & post & n & Hf & -> & Hre & Hn & _ & _ & _ & Hp).
  exists n. unfold sequenceNumber. rewrite Hre. split; [exact Hn|].
  rewrite Hf in Hre.
  rewrite (regEx_exec_replace pre _
             ((tag_tail ++ Js.show_N (Some (N.succ n))) ++ post) _ _
             (media_sequence_tag ++ Js.show_N (Some (N.succ n))) post Hre).
  - rewrite (strip_no_digit media_sequence_tag _ eq_refl).
    rewrite strip_digits by apply show_N_digits. apply parseInt_show.
  - rewrite <- (match_here_new (N.succ n) post Hp).
    rewrite tag_unfold. cbn [append]. now rewrite append_assoc.
Qed.

End StringFacts.

(* ================================================================== *)
(** * Verification: the playlist window *)
(* ================================================================== *)

Lemma includes_segmentTemplate d name :
  Js.includes extinf_marker (segmentTemplate d name) = true.
Proof. unfold segmentTemplate. rewrite StringFacts.includes_eq. reflexivity. Qed.

Lemma segmentItems_push a d name :
  segmentItems (a ++ [segmentTemplate d name])
  = segmentItems a ++ [segmentTemplate d name].
Proof.
  unfold segmentItems. rewrite filter_app. cbn [filter].
  now rewrite includes_segmentTemplate.
Qed.

(** Splicing out the oldest entry: the element removed is the first
    segment entry, the other entries stay in order, and an element 0 that
    is not an entry stays where it is. *)
Lemma evicted_oldest a old :
  hd_error (segmentItems a) = Some old ->
  exists k,
    Js.indexOf (Some old) a = Some k
    /\ evicted a = Js.remove_nth k a
    /\ nth_error a k = Some old
    /\ segmentItems (evicted a) = tl (segmentItems a)
    /\ List.length a = S (List.length (evicted a))
    /\ (forall h, hd_error a = Some h ->
                  Js.includes extinf_marker h = false ->
                  hd_error (evicted a) = Some h).
Proof.
  unfold evicted. intros H. rewrite H. cbn [Js.splice1].
  revert H. induction a as [|y a IH]; [discriminate|].
  unfold segmentItems in *. cbn [filter].
  destruct (Js.includes extinf_marker y) eqn:Ey.
  - cbn [hd_error]. intros H. injection H as ->.
    exists 0%nat. cbn [Js.indexOf]. rewrite String.eqb_refl.
    cbn. repeat split.
    intros h Hh Hn. injection Hh as ->. congruence.
  - intros H. destruct (IH H) as (k & Hk & _ & Hn & Hs & Hl & _).
    exists (S k). cbn [Js.indexOf].
    assert (Hne : (y =? old)%string = false).
    { apply String.eqb_neq. intros ->.
      assert (Hin : In old (filter (Js.includes extinf_marker) a)).
      { destruct (filter (Js.includes extinf_marker) a); [discriminate|].
        injection H as ->. now left. }
      apply filter_In in Hin. destruct Hin as [_ Ho]. congruence. }
    rewrite Hne, Hk. cbn [option_map Js.splice1 Js.remove_nth nth_error filter].
    rewrite Ey. rewrite Hk in Hs. cbn [Js.splice1] in Hs, Hl.
    rewrite Hk in Hl. cbn [Js.splice1] in Hl.
    repeat split; auto.
    cbn [List.length]. now rewrite Hl.
Qed.

Lemma indexOf_undefined a : Js.indexOf None a = None.
Proof. induction a as [|y a IH]; cbn; [reflexivity | now rewrite IH]. Qed.

(** Without any entry the splice takes the last element, which is no
    entry either. *)
Lemma evicted_no_entry a :
  segmentItems a = [] -> entry_count (evicted a) = 0%nat.
Proof.
  intros H. unfold evicted. rewrite H. cbn [hd_error].
  rewrite indexOf_undefined. cbn [Js.splice1].
  unfold entry_count, segmentItems in *.
  induction a as [|y l IH]; [reflexivity|].
  cbn [filter] in H.
  destruct (Js.includes extinf_marker y) eqn:Ey; [discriminate H|].
  destruct l as [|z l]; [reflexivity|].
  cbn [removelast filter]. rewrite Ey. exact (IH H).
Qed.

Lemma entry_count_set_first newFirst e :
  bumpMediaSequence (Js.str (hd_error e)) = Some newFirst ->
  entry_count (Js.set_first newFirst e) = entry_count e
  /\ List.length (Js.set_first newFirst e) = List.length e
  /\ hd_error (Js.set_first newFirst e) = Some newFirst.
Proof.
  intros H. destruct e as [|h e]; [discriminate H|].
  cbn [hd_error Js.str] in H.
  apply StringFacts.bumpMediaSequence_includes in H.
  unfold entry_count, segmentItems. cbn [Js.set_first filter hd_error].
  rewrite H. repeat split.
  now destruct (Js.includes extinf_marker h).
Qed.

Section PlaylistFacts.

Variable env : environment.

Lemma template_with_template t a w :
  mediaPlaylistTemplate t (with_template t a w) = a.
Proof. now destruct t. Qed.

(** What an update of the playlist that returns has done. *)
Lemma updateMediaPlaylist_returns t path d name w w' :
  updateMediaPlaylist env t path d name w = (w', inr tt) ->
  let a := mediaPlaylistTemplate t w in
  let item := segmentTemplate d (name ++ ".mp4") in
  this w' = this w
  /\ if Z.of_nat (entry_count a) =? maxSegmentNum_ (this w)
     then exists old newFirst,
            hd_error (segmentItems a) = Some old
            /\ bumpMediaSequence (Js.str (hd_error (evicted a))) = Some newFirst
            /\ mediaPlaylistTemplate t w'
               = Js.set_first newFirst (evicted a) ++ [item]
            /\ history w'
               = history w
                 ++ [Unlink (Js.str (resultPath_ (this w)) ++ pathSuffix t
                             ++ Js.split_pop Js.LF old) true;
                     WriteFile path
                       (Js.join Js.LF (mediaPlaylistTemplate t w')) true]
     else mediaPlaylistTemplate t w' = a ++ [item]
          /\ history w'
             = history w ++ [WriteFile path (Js.join Js.LF (a ++ [item])) true].
Proof.
  unfold updateMediaPlaylist, bind, get_this, get_template, put_template.
  cbv zeta. fold (entry_count (mediaPlaylistTemplate t w)).
  destruct (Z.of_nat (entry_count (mediaPlaylistTemplate t w))
            =? maxSegmentNum_ (this w)).
  - fold (evicted (mediaPlaylistTemplate t w)).
    destruct (hd_error (segmentItems (mediaPlaylistTemplate t w)))
      as [old|] eqn:Eold; [|discriminate].
    unfold unlinkSync.
    replace (this (with_template t (evicted (mediaPlaylistTemplate t w)) w))
      with (this w) by now destruct t.
    replace (history (with_template t (evicted (mediaPlaylistTemplate t w)) w))
      with (history w) by now destruct t.
    destruct (unlink_ok env (history w) _); [|discriminate].
    replace (mediaPlaylistTemplate t (record _ (with_template t _ w)))
      with (evicted (mediaPlaylistTemplate t w)) by now destruct t.
    destruct (bumpMediaSequence _) as [newFirst|] eqn:Eb; [|discriminate].
    unfold writeFileSync.
    match goal with
    | |- context [write_ok env ?h ?p ?c] => destruct (write_ok env h p c)
    end; [|discriminate].
    intros H. injection H as <-. split; [now destruct t|].
    exists old, newFirst. repeat split.
    + now destruct t.
    + destruct t; cbn; now rewrite <- app_assoc.
  - unfold ret, writeFileSync.
    match goal with
    | |- context [write_ok env ?h ?p ?c] => destruct (write_ok env h p c)
    end; [|discriminate].
    intros H. injection H as <-. split; [now destruct t|].
    split; now destruct t.
Qed.

(** An update of the playlist never throws the structured error. *)
Lemma updateMediaPlaylist_throws t path d name w w' x :
  updateMediaPlaylist env t path d name w = (w', inl x) ->
  is_structured x = false.
Proof.
  unfold updateMediaPlaylist, bind, get_this, get_template, put_template.
  cbv zeta.
  destruct (Z.of_nat _ =? maxSegmentNum_ (this w)).
  - destruct (hd_error (segmentItems (mediaPlaylistTemplate t w)))
      as [old|]; [|intros H; now injection H as _ <-].
    unfold unlinkSync.
    match goal with
    | |- context [unlink_ok env ?h ?p] => destruct (unlink_ok env h p)
    end; [|intros H; now injection H as _ <-].
    destruct (bumpMediaSequence _) as [newFirst|];
      [|intros H; now injection H as _ <-].
    unfold writeFileSync.
    match goal with
    | |- context [write_ok env ?h ?p ?c] => destruct (write_ok env h p c)
    end; [discriminate|intros H; now injection H as _ <-].
  - unfold ret, writeFileSync.
    match goal with
    | |- context [write_ok env ?h ?p ?c] => destruct (write_ok env h p c)
    end; [discriminate|intros H; now injection H as _ <-].
Qed.

(** With a file system that obeys, an update that finds an oldest entry
    to evict and a media-sequence directive in the element that is first
    once that entry is spliced out, or that has nothing to evict,
    returns. *)
Lemma updateMediaPlaylist_completes t path d name w :
  (forall h p, unlink_ok env h p = true) ->
  (forall h p c, write_ok env h p c = true) ->
  let a := mediaPlaylistTemplate t w in
  (Z.of_nat (entry_count a) = maxSegmentNum_ (this w) ->
   segmentItems a <> []
   /\ regEx_exec (Js.str (hd_error (evicted a))) <> None) ->
  snd (updateMediaPlaylist env t path d name w) = inr tt.
Proof.
  intros Hu Hw a Hpre.
  unfold updateMediaPlaylist, bind, get_this, get_template, put_template.
  cbv zeta. fold a. fold (entry_count a).
  destruct (Z.eqb_spec (Z.of_nat (entry_count a)) (maxSegmentNum_ (this w)))
    as [E|N].
  - destruct (Hpre E) as [Hne Hm]. fold (evicted a).
    destruct (hd_error (segmentItems a)) as [old|] eqn:Eold.
    2:{ destruct (segmentItems a); [congruence | discriminate Eold]. }
    unfold unlinkSync. rewrite Hu.
    replace (mediaPlaylistTemplate t (record _ (with_template t _ w)))
      with (evicted a) by now destruct t.
    unfold bumpMediaSequence.
    destruct (regEx_exec (Js.str (hd_error (evicted a)))) as [[[pre m] post]|];
      [|congruence].
    unfold writeFileSync. rewrite Hw. reflexivity.
  - unfold ret, writeFileSync. rewrite Hw. reflexivity.
Qed.

(** Whatever its outcome, an update leaves at most maxSegmentNum entries
    in a playlist that had at most that many. *)
Lemma updateMediaPlaylist_bound t path d name w w' r :
  updateMediaPlaylist env t path d name w = (w', r) ->
  Z.of_nat (entry_count (mediaPlaylistTemplate t w)) <= maxSegmentNum_ (this w) ->
  Z.of_nat (entry_count (mediaPlaylistTemplate t w')) <= maxSegmentNum_ (this w).
Proof.
  unfold updateMediaPlaylist, bind, get_this, get_template, put_template.
  cbv zeta. fold (entry_count (mediaPlaylistTemplate t w)).
  set (a := mediaPlaylistTemplate t w).
  set (item := segmentTemplate d (name ++ ".mp4")).
  assert (Hpush : forall e, entry_count (e ++ [item]) = S (entry_count e)).
  { intros e. unfold entry_count, item. rewrite segmentItems_push, length_app.
    cbn. lia. }
  destruct (Z.eqb_spec (Z.of_nat (entry_count a)) (maxSegmentNum_ (this w)))
    as [E|N].
  - fold (evicted a).
    destruct (hd_error (segmentItems a)) as [old|] eqn:Eold.
    + destruct (evicted_oldest a old Eold) as (k & _ & _ & _ & Hs & _).
      assert (Hc : S (entry_count (evicted a)) = entry_count a).
      { unfold entry_count. rewrite Hs. clear - Eold.
        destruct (segmentItems a); [discriminate Eold | reflexivity]. }
      unfold unlinkSync.
      match goal with
      | |- context [unlink_ok env ?h ?p] => destruct (unlink_ok env h p)
      end.
      * replace (mediaPlaylistTemplate t (record _ (with_template t _ w)))
          with (evicted a) by now destruct t.
        destruct (bumpMediaSequence _) as [newFirst|] eqn:Eb.
        -- destruct (entry_count_set_first _ _ Eb) as (Hn & _).
           unfold writeFileSync.
           match goal with
           | |- context [write_ok env ?h ?p ?c] => destruct (write_ok env h p c)
           end; intros H _; injection H as <- _;
             rewrite !template_with_template;
             (replace (mediaPlaylistTemplate t (record _ _))
                with (Js.set_first newFirst (evicted a) ++ [item])
                by now destruct t);
             rewrite ?Hpush, ?Hn; lia.
        -- intros H _. injection H as <- _.
           replace (mediaPlaylistTemplate t (record _ (with_template t _ w)))
             with (evicted a) by now destruct t.
           lia.
      * intros H _. injection H as <- _.
        replace (mediaPlaylistTemplate t (record _ (with_template t _ w)))
          with (evicted a) by now destruct t.
        lia.
    + intros H _. injection H as <- _. rewrite template_with_template.
      assert (Hnil : entry_count (evicted a) = 0%nat).
      { apply evicted_no_entry. clear - Eold.
        destruct (segmentItems a); [reflexivity | discriminate Eold]. }
      lia.
  - unfold ret, writeFileSync.
    match goal with
    | |- context [write_ok env ?h ?p ?c] => destruct (write_ok env h p c)
    end; intros H Hle; injection H as <- _;
      (replace (mediaPlaylistTemplate t (record _ _)) with (a ++ [item])
         by now destruct t);
      rewrite Hpush; lia.
Qed.

End PlaylistFacts.



(** C10 (as the code has it). Take an append that triggers the eviction.
    The sequence number is parsed from element 0 of the line sequence as
    it stands once the oldest entry is spliced out - the playlist's own
    element 0 whenever the playlist has an entry and that element is not
    one.  The
    append never throws the structured error; if it completes, that
    element exists and holds a media-sequence directive; and if that
    element holds none, the append throws an unstructured exception. *)
Theorem C10_eviction_needs_header_first
    (env : environment) (t : track) (path : string) (d : option Z)
    (name : string) (w w' : world) (r : exn + unit) :
  updateMediaPlaylist env t path d name w = (w', r) ->
  let a := mediaPlaylistTemplate t w in
  Z.of_nat (entry_count a) = maxSegmentNum_ (this w) ->
  (forall x, r = inl x -> is_structured x = false)
  /\ (r = inr tt ->
      exists h, hd_error (evicted a) = Some h /\ regEx_exec h <> None)
  /\ (regEx_exec (Js.str (hd_error (evicted a))) = None ->
      exists x, r = inl x /\ is_structured x = false)
  /\ (forall h old, hd_error (segmentItems a) = Some old ->
                    hd_error a = Some h ->
                    Js.includes extinf_marker h = false ->
                    hd_error (evicted a) = Some h).
Proof.
  intros H a Hfull.
  assert (Hret : r = inr tt ->
                 exists h, hd_error (evicted a) = Some h
                           /\ regEx_exec h <> None).
  { intros ->. apply updateMediaPlaylist_returns in H. cbv zeta in H.
    fold a in H. destruct H as [_ H].
    apply Z.eqb_eq in Hfull. rewrite Hfull in H.
    destruct H as (old & newFirst & _ & Hb & _).
    destruct (hd_error (evicted a)) as [h|]; [|discriminate Hb].
    exists h. split; [reflexivity|]. cbn [Js.str] in Hb.
    unfold bumpMediaSequence in Hb.
    destruct (regEx_exec h); [discriminate | discriminate Hb]. }
  repeat split.
  - intros x ->. exact (updateMediaPlaylist_throws env _ _ _ _ _ _ _ H).
  - exact Hret.
  - intros Hnone. destruct r as [x|[]].
    + exists x. split; [reflexivity|].
      exact (updateMediaPlaylist_throws env _ _ _ _ _ _ _ H).
    + destruct (Hret eq_refl) as (h & Hh & Hm). rewrite Hh in Hnone.
      contradiction.
  - intros h old Eold Hh Hnot.
    destruct (evicted_oldest a old Eold) as (_ & _ & _ & _ & _ & _ & Hhd).
    exact (Hhd h Hh Hnot).
Qed.

(** On the sample playlist at capacity, whose element 0 is the header. *)
Lemma C10_eviction_needs_header_first_witness :
  let w := Sample.full in
  let run := updateMediaPlaylist Sample.env_ok Audio "/res/audio/audio.m3u8"
               (Some 6) "1c" w in
  run = (fst run, inr tt)
  /\ Z.of_nat (entry_count (mediaPlaylistTemplate Audio w))
     = maxSegmentNum_ (this w)
  /\ exists h, hd_error (evicted (mediaPlaylistTemplate Audio w)) = Some h
               /\ regEx_exec h <> None.
Proof.
  intros w run.
  assert (E : run = (fst run, inr tt)) by (vm_compute; reflexivity).
  assert (Hfull : Z.of_nat (entry_count (mediaPlaylistTemplate Audio w))
                  = maxSegmentNum_ (this w)) by (vm_compute; reflexivity).
  split; [exact E|]. split; [exact Hfull|].
  exact (proj1 (proj2 (C10_eviction_needs_header_first Sample.env_ok Audio
                         "/res/audio/audio.m3u8" (Some 6) "1c" w (fst run)
                         (inr tt) E Hfull)) eq_refl).
Defined.

(** C10, refuted as stated: the playlist holds its oldest entry at
    element 0 and the media-sequence directive at element 1, with a
    capacity of 1.  The append triggers the eviction, element 0 holds no
    directive, and yet the append completes: the entry is spliced out
    first, which brings the directive to element 0, where its number goes
    from 5 to 6. *)
Lemma C10_header_after_oldest_entry :
  let w := Sample.entry_first in
  let run := updateMediaPlaylist Sample.env_ok Audio "/res/audio/audio.m3u8"
               (Some 6) "1b" w in
  Z.of_nat (entry_count (audioMediaPLTemplate w)) = maxSegmentNum_ (this w)
  /\ regEx_exec (Js.str (hd_error (audioMediaPLTemplate w))) = None
  /\ nth_error (audioMediaPLTemplate w) 1 = Some "#EXT-X-MEDIA-SEQUENCE:5"
  /\ snd run = inr tt
  /\ audioMediaPLTemplate (fst run)
     = ["#EXT-X-MEDIA-SEQUENCE:6"; segmentTemplate (Some 6) "1b.mp4"].
Proof. vm_compute. repeat split. Qed.

(* ================================================================== *)
(** * Verification: which segments are committed *)
(* ================================================================== *)

Section Commit.

Variable env : environment.
Variables aU vU : list string.
Variables aD vD : list Z.
Variables key keyId : option string.

(** A pass over an element named init.mp4 fetches it and does nothing
    else. *)
Lemma processTrack_init i t lv w url :
  nth_error (uriList aU vU t) i = Some url ->
  segmentName url = initFile ->
  let ok := download_ok env (history w) url (saveName (this w) t url) in
  processTrack env aU vU aD vD key keyId i t lv w
  = (after [Download url (saveName (this w) t url) ok] w,
     if ok then inr (assign aU vU aD vD i t lv) else inl (NetError url)).
Proof.
  intros Hurl Hname ok. apply String.eqb_eq in Hname.
  unfold processTrack, bind, get_this. rewrite Hurl.
  unfold socks5_http_download. fold ok. rewrite Hname. cbn [negb].
  destruct ok; reflexivity.
Qed.

(** A pass over any other element, when it returns, has fetched, merged
    and decrypted the element, pushed its entry and written the
    playlist. *)
Lemma processTrack_commits i t lv w url w' lv' :
  nth_error (uriList aU vU t) i = Some url ->
  segmentName url <> initFile ->
  processTrack env aU vU aD vD key keyId i t lv w = (w', inr lv') ->
  let o := this w in
  exists rest,
    history w'
    = history w
      ++ [Download url (saveName o t url) true;
          MergeFiles (inputPathList o t url) (mergeFileName o t url) true;
          Exec (decryptCommand env key keyId o t url) 0]
      ++ rest
    /\ last rest (Sleep 0)
       = WriteFile (mediaPlaylistPath o t)
           (Js.join Js.LF (mediaPlaylistTemplate t w')) true
    /\ last (mediaPlaylistTemplate t w') EmptyString
       = segmentTemplate (nth_error (durationList aD vD t) i)
           (nameOnly url ++ ".mp4").
Proof.
  intros Hurl Hname. apply String.eqb_neq in Hname.
  unfold processTrack, bind, get_this. rewrite Hurl.
  unfold socks5_http_download. rewrite Hname. cbn [negb].
  destruct (download_ok env (history w) url (saveName (this w) t url));
    [|discriminate].
  unfold mergeFiles. cbn [record history this].
  destruct (merge_status env _ _ _); [|discriminate].
  unfold shell_exec. cbn [record history this].
  destruct (Z.eqb_spec (exec_code env
               ((history w ++ [Download url (saveName (this w) t url) true])
                ++ [MergeFiles (inputPathList (this w) t url)
                      (mergeFileName (this w) t url) true])
               (decryptCommand env key keyId (this w) t url)) 0) as [Ec|Ec];
    cbn [negb]; [|discriminate].
  rewrite Ec.
  match goal with
  | |- context [updateMediaPlaylist env t ?p ?d ?n ?w3] =>
      destruct (updateMediaPlaylist env t p d n w3) as [w4 [x|[]]] eqn:EU
  end; [discriminate|].
  intros H. injection H as <- _.
  apply updateMediaPlaylist_returns in EU. cbv zeta in EU.
  destruct EU as [_ EU]. cbn [record history this] in EU.
  match type of EU with
  | if ?b then _ else _ => destruct b
  end.
  - destruct EU as (old & newFirst & _ & _ & Ha & Hh).
    eexists. rewrite Hh, <- !app_assoc. cbn [app]. split; [reflexivity|].
    split; [reflexivity|]. rewrite Ha. apply last_last.
  - destruct EU as [Ha Hh].
    eexists. rewrite Hh, <- !app_assoc. cbn [app]. split; [reflexivity|].
    split; [now rewrite Ha|]. rewrite Ha. apply last_last.
Qed.

End Commit.





(* ================================================================== *)
(** * Verification: the continuity token *)
(* ================================================================== *)

Section OtherTrack.

Variable env : environment.
Variable t' : track.

Lemma keeps_ret {A : Type} (a : A) : keeps_template t' (ret a).
Proof. intros w w' r H. now injection H as <- _. Qed.

Lemma keeps_throw {A : Type} (x : exn) : keeps_template t' (@throw A x).
Proof. intros w w' r H. now injection H as <- _. Qed.

Lemma keeps_bind {A B : Type} (m : M A) (k : A -> M B) :
  keeps_template t' m -> (forall a, keeps_template t' (k a)) ->
  keeps_template t' (bind m k).
Proof.
  intros Hm Hk w w' r H. unfold bind in H.
  destruct (m w) as [w1 [x|a]] eqn:E.
  - injection H as <- _. exact (Hm _ _ _ E).
  - rewrite (Hk a _ _ _ H). exact (Hm _ _ _ E).
Qed.

Lemma keeps_get_this : keeps_template t' get_this.
Proof. intros w w' r H. now injection H as <- _. Qed.

Lemma keeps_get_template t : keeps_template t' (get_template t).
Proof. intros w w' r H. now injection H as <- _. Qed.

Lemma keeps_put_template a : keeps_template t' (put_template (other t') a).
Proof. intros w w' r H. injection H as <- _. now destruct t'. Qed.

Lemma keeps_download url dest :
  keeps_template t' (socks5_http_download env url dest).
Proof. intros w w' r H. injection H as <- _. now destruct t'. Qed.

Lemma keeps_merge inputs output :
  keeps_template t' (mergeFiles env inputs output).
Proof. intros w w' r H. injection H as <- _. now destruct t'. Qed.

Lemma keeps_exec command : keeps_template t' (shell_exec env command).
Proof. intros w w' r H. injection H as <- _. now destruct t'. Qed.

Lemma keeps_unlink path : keeps_template t' (unlinkSync env path).
Proof. intros w w' r H. injection H as <- _. now destruct t'. Qed.

Lemma keeps_write path content :
  keeps_template t' (writeFileSync env path content).
Proof. intros w w' r H. injection H as <- _. now destruct t'. Qed.

Ltac keeps :=
  repeat first
    [ apply keeps_ret
    | apply keeps_throw
    | apply keeps_get_this
    | apply keeps_get_template
    | apply keeps_put_template
    | apply keeps_download
    | apply keeps_merge
    | apply keeps_exec
    | apply keeps_unlink
    | apply keeps_write
    | apply keeps_bind; [|intros ?]
    | match goal with
      | |- keeps_template _ (if ?b then _ else _) => destruct b
      | |- keeps_template _ (match ?x with _ => _ end) => destruct x
      end ].

Lemma keeps_updateMediaPlaylist path d name :
  keeps_template t' (updateMediaPlaylist env (other t') path d name).
Proof. unfold updateMediaPlaylist. keeps. Qed.

(** A pass for one track leaves the playlist of the other track alone. *)
Lemma keeps_processTrack aU vU aD vD key keyId i lv :
  keeps_template t' (processTrack env aU vU aD vD key keyId i (other t') lv).
Proof.
  unfold processTrack. keeps.
Qed.

End OtherTrack.

Section LastPass.

Variable env : environment.

(** The last pass over track [t] in a cycle that completes: when its
    element is not named init.mp4, its successful decryption is in the
    history of the cycle and its entry is the last element of the track's
    playlist at the end of the cycle. *)
Lemma last_pass_committed upd w w' tok t url :
  processSegments env upd w = (w', inr tok) ->
  let o := alignTracks (this w) in
  last_error (fst (trackLists t o)) = Some url ->
  segmentName url <> initFile ->
  In (Exec (decryptCommand env (decryptKey_ o) (keyId_ o) o t url) 0)
     (history w')
  /\ last (mediaPlaylistTemplate t w') EmptyString
     = segmentTemplate
         (nth_error (snd (trackLists t o))
                    (List.length (audioSegmentURIList_ o) - 1))
         (nameOnly url ++ ".mp4").
Proof.
  intros H o Hlast Hname.
  pose proof (alignTracks_lengths (this w)) as Hlen. fold o in Hlen.
  rewrite processSegments_unfold in H. cbv zeta in H. fold o in H.
  destruct (List.length (audioSegmentURIList_ o)) as [|n] eqn:En.
  { exfalso. unfold last_error in Hlast.
    destruct t; cbn [trackLists fst] in Hlast.
    - apply length_zero_iff_nil in En. rewrite En in Hlast. discriminate.
    - apply length_zero_iff_nil in Hlen.
      rewrite Hlen in Hlast. discriminate. }
  assert (Hurl : nth_error (uriList (audioSegmentURIList_ o)
                              (videoSegmentURIList_ o) t) n = Some url).
  { unfold last_error in Hlast. destruct t; cbn [trackLists fst] in Hlast.
    - rewrite En in Hlast. cbn in Hlast. now rewrite Nat.sub_0_r in Hlast.
    - rewrite Hlen in Hlast. cbn in Hlast. now rewrite Nat.sub_0_r in Hlast. }
  rewrite seq_S in H. cbn [Nat.add] in H. rewrite for_each_app in H.
  destruct (bind _ _ (cycle_start env w)) as [w2 [x|lv]] eqn:Eloop;
    [discriminate|].
  apply finish_returns in H. cbv zeta in H.
  destruct H as (Hh' & _ & _ & HtA & HtV).
  apply bind_inr in Eloop. destruct Eloop as (w1 & lv1 & Hbefore & Hstep).
  cbn [for_each] in Hstep.
  apply bind_inr in Hstep. destruct Hstep as (w2' & lv2 & Hindex & Hret).
  injection Hret as <- <-. unfold processIndex in Hindex.
  apply bind_inr in Hindex. destruct Hindex as (wa & lva & Haudio & Hvideo).
  assert (T1 : this w1 = o).
  { apply pipeline_only_for_each in Hbefore;
      [|intros; apply pipeline_only_processIndex].
    exact (proj1 Hbefore). }
  assert (Ta : this wa = o).
  { apply pipeline_only_processTrack in Haudio. rewrite <- T1.
    exact (proj1 Haudio). }
  cbn [Nat.sub]. rewrite Nat.sub_0_r.
  assert (Htpl : mediaPlaylistTemplate t w' = mediaPlaylistTemplate t w2').
  { now destruct t. }
  rewrite Htpl, Hh'.
  destruct t; cbn [trackLists snd].
  - destruct (processTrack_commits env _ _ _ _ _ _ _ _ _ _ _ _ _ Hurl Hname
                Haudio) as (rest & Hh & _ & Ha).
    rewrite T1 in Hh. cbn [durationList] in Ha.
    pose proof (keeps_processTrack env Audio _ _ _ _ _ _ _ _ _ _ _ Hvideo)
      as Hkeep. cbn [other] in Hkeep.
    apply pipeline_only_processTrack in Hvideo.
    destruct Hvideo as (_ & evs & Hh2 & _).
    split.
    + rewrite Hh2, Hh. apply in_or_app. left. apply in_or_app. left.
      apply in_or_app. left. apply in_or_app. right. cbn. auto.
    + cbn [mediaPlaylistTemplate] in Hkeep |- *. rewrite Hkeep. exact Ha.
  - destruct (processTrack_commits env _ _ _ _ _ _ _ _ _ _ _ _ _ Hurl Hname
                Hvideo) as (rest & Hh & _ & Ha).
    rewrite Ta in Hh. cbn [durationList] in Ha.
    split.
    + rewrite Hh. apply in_or_app. left. apply in_or_app. left.
      apply in_or_app. right. cbn. auto.
    + exact Ha.
Qed.

End LastPass.

(** C7 (as the code has it). A cycle that completes returns, for each
    track, the URI of the final element of that track's aligned list -
    the last element the loop fetched - and null when the aligned list is
    empty.  That element is the last segment committed for the track
    whenever it is not named init.mp4: its decryption has exited with
    code 0 and its entry is the last element of the playlist. *)
Theorem C7_token_is_last_list_element
    (env : environment) (upd : Z) (w w' : world) (tok : token) :
  processSegments env upd w = (w', inr tok) ->
  let o := alignTracks (this w) in
  audio tok = last_error (audioSegmentURIList_ o)
  /\ video tok = last_error (videoSegmentURIList_ o)
  /\ forall t url,
       of_track t (audio tok) (video tok) = Some url ->
       segmentName url <> initFile ->
       In (Exec (decryptCommand env (decryptKey_ o) (keyId_ o) o t url) 0)
          (history w')
       /\ last (mediaPlaylistTemplate t w') EmptyString
          = segmentTemplate
              (nth_error (snd (trackLists t o))
                         (List.length (audioSegmentURIList_ o) - 1))
              (nameOnly url ++ ".mp4").
Proof.
  intros H o.
  assert (Htok : audio tok = last_error (audioSegmentURIList_ o)
                 /\ video tok = last_error (videoSegmentURIList_ o)).
  { pose proof H as H'. apply cycle_returns in H'. cbv zeta in H'.
    destruct H' as (evs & _ & _ & ->). cbn [audio video].
    pose proof (alignTracks_lengths (this w)) as Hlen. fold o in Hlen |- *.
    unfold final_locals, last_error. rewrite Hlen.
    destruct (audioSegmentURIList_ o) as [|a0 aU];
      cbn [List.length lastAudioURI lastVideoURI no_locals].
    - apply length_zero_iff_nil in Hlen. rewrite Hlen. split; reflexivity.
    - cbn [Nat.sub]. rewrite Nat.sub_0_r. split; reflexivity. }
  destruct Htok as [Ha Hv]. split; [exact Ha|]. split; [exact Hv|].
  intros t url Hurl Hname.
  apply (last_pass_committed env upd w w' tok t url H); [|exact Hname].
  subst o. destruct t; cbn [of_track] in Hurl; cbn [trackLists fst];
    [rewrite <- Ha | rewrite <- Hv]; exact Hurl.
Qed.

(** A cold cycle over the sample index with capacity 2. *)
Lemma C7_token_is_last_list_element_witness :
  let w := Sample.fresh (Sample.saver 2 Sample.cold) in
  let run := processSegments Sample.env_ok 2000 w in
  let tok := {| audio := Some "http://cdn/t/1c.m4s";
                video := Some "http://cdn/t/1c.m4s" |} in
  run = (fst run, inr tok)
  /\ audio tok = last_error (audioSegmentURIList_ (alignTracks (this w)))
  /\ last (audioMediaPLTemplate (fst run)) EmptyString
     = segmentTemplate (Some 6) "1c.mp4".
Proof.
  intros w run tok.
  assert (E : run = (fst run, inr tok)) by (vm_compute; reflexivity).
  split; [exact E|].
  destruct (C7_token_is_last_list_element Sample.env_ok 2000 w (fst run) tok E)
    as (Ha & _ & Hc).
  split; [exact Ha|].
  destruct (Hc Audio "http://cdn/t/1c.m4s" eq_refl) as [_ Hl].
  - discriminate.
  - exact Hl.
Defined.

(** C7, refuted as stated: with a window of capacity 0 the lists of both
    tracks hold the init element alone; the cycle completes, commits
    nothing (no successful decryption, no playlist write, both playlists
    as they were) and returns the URI of the init segment for both
    tracks. *)
Lemma C7_token_names_uncommitted_init :
  let w := Sample.fresh (Sample.saver 0 Sample.cold) in
  let run := processSegments Sample.env_ok 2000 w in
  snd run = inr {| audio := Some "http://cdn/t/init.mp4";
                   video := Some "http://cdn/t/init.mp4" |}
  /\ filter is_commit (history (fst run)) = []
  /\ audioMediaPLTemplate (fst run) = audioMediaPLTemplate w
  /\ videoMediaPLTemplate (fst run) = videoMediaPLTemplate w.
Proof. vm_compute. repeat split. Qed.
(* ================================================================== *)
(** * Further properties: reconciliation *)
(* ================================================================== *)

(** During the scan the pushed URIs and durations are, at every moment, a
    suffix of the references visited so far, the same for both lists. *)
Lemma visit_suffix lastSegmentURI refs st :
  foundLatestName st = false ->
  exists k,
    segmentURIList (fold_left (visit lastSegmentURI) refs st)
      = segmentURIList st ++ skipn k (map uri refs)
    /\ segmentDurationList (fold_left (visit lastSegmentURI) refs st)
      = segmentDurationList st ++ skipn k (map duration refs).
Proof.
  revert st. induction refs as [|r refs IH]; intros st Hf.
  - exists 0%nat. cbn. now rewrite !app_nil_r.
  - cbn [fold_left].
    destruct (uri_equals (uri r) lastSegmentURI) eqn:E.
    + destruct (visit_after_found lastSegmentURI refs
                  (visit lastSegmentURI st r)) as [HU HD].
      * cbn. now rewrite Hf, E.
      * exists 1%nat. rewrite HU, HD. cbn. now rewrite Hf.
    + destruct (IH (visit lastSegmentURI st r)) as (k & HU & HD).
      * cbn. now rewrite Hf, E.
      * exists (S k). rewrite HU, HD. cbn. now rewrite Hf.
Qed.

Lemma segmentInfo_suffix maxSegmentNum r0 rest lastSegmentURI :
  exists k,
    segmentInfo maxSegmentNum {| references := r0 :: rest |} lastSegmentURI
    = Some (initSegmentUri r0 :: skipn k (map uri (r0 :: rest)),
            0 :: skipn k (map duration (r0 :: rest))).
Proof.
  unfold segmentInfo, forEachTopLevelReference. cbn [references].
  match goal with |- context [fold_left _ _ ?s] => set (st0 := s) end.
  destruct (visit_suffix lastSegmentURI (r0 :: rest) st0 eq_refl)
    as (k & HU & HD).
  destruct (visit_totals lastSegmentURI (r0 :: rest) st0) as [HT HS].
  rewrite HU, HD, HT, HS.
  cbn [st0 segmentURIList segmentDurationList totalList totalSegList app].
  match goal with |- context [if ?b then _ else _] => destruct b eqn:Eb end.
  - apply andb_prop in Eb. destruct Eb as [Eb _].
    apply Nat.eqb_eq in Eb. cbn [List.length] in Eb.
    injection Eb as Eb. apply length_zero_iff_nil in Eb.
    change (uri r0 :: map uri rest) with (map uri (r0 :: rest)) in Eb.
    assert (Ed : skipn k (map duration (r0 :: rest)) = []).
    { apply length_zero_iff_nil. rewrite length_skipn, length_map.
      apply (f_equal (@List.length string)) in Eb.
      rewrite length_skipn, length_map in Eb. exact Eb. }
    rewrite Eb, Ed. cbn [app]. unfold slice_from.
    rewrite !length_map.
    now exists (Z.to_nat (Z.max 0 (Z.of_nat (List.length (r0 :: rest))
                                   - maxSegmentNum))).
  - now exists k.
Qed.

(** X1. The constructor leaves, for each track, a URI list and a duration
    list of the same length. *)
Theorem X1_constructor_pairs_lists
    (ai vi : segment_index) (key keyId script res dl mg : string)
    (maxSegmentNum : Z) (apl vpl : string) (tok : token) :
  lists_paired (constructor ai vi key keyId script res dl mg maxSegmentNum
                  apl vpl tok).
Proof.
  assert (H : forall t,
             List.length (fst (trackLists t
               (constructor ai vi key keyId script res dl mg maxSegmentNum
                  apl vpl tok)))
             = List.length (snd (trackLists t
               (constructor ai vi key keyId script res dl mg maxSegmentNum
                  apl vpl tok)))).
  { intros t. rewrite trackLists_constructor.
    destruct (of_track t ai vi) as [[|r0 rest]]; [reflexivity|].
    destruct (segmentInfo_suffix maxSegmentNum r0 rest
                (of_track t (audio tok) (video tok))) as (k & ->).
    cbn [fst snd List.length]. now rewrite !length_skipn, !length_map. }
  split; [exact (H Audio) | exact (H Video)].
Qed.

(** X2. Whatever the last-processed URI and the capacity, the lists of a
    track with a non-empty index are the init element followed by a
    suffix of the index, the same suffix for the URIs and for the
    durations: the references come in index order, without gap, each with
    its own duration. *)
Theorem X2_reconciled_lists_are_a_suffix
    (t : track) (ai vi : segment_index)
    (key keyId script res dl mg : string) (maxSegmentNum : Z)
    (apl vpl : string) (tok : token) (r0 : segment_reference)
    (rest : list segment_reference) :
  references (of_track t ai vi) = r0 :: rest ->
  exists k,
    trackLists t (constructor ai vi key keyId script res dl mg maxSegmentNum
                    apl vpl tok)
    = (initSegmentUri r0 :: skipn k (map uri (r0 :: rest)),
       0 :: skipn k (map duration (r0 :: rest))).
Proof.
  intros Hrefs. rewrite trackLists_constructor.
  destruct (of_track t ai vi) as [refs]. cbn [references] in Hrefs.
  subst refs.
  destruct (segmentInfo_suffix maxSegmentNum r0 rest
              (of_track t (audio tok) (video tok))) as (k & ->).
  now exists k.
Qed.

(** On the sample index, at a cold start. *)
Lemma X2_reconciled_lists_are_a_suffix_witness :
  exists k,
    trackLists Audio (Sample.saver 2 Sample.cold)
    = ("http://cdn/t/init.mp4"
         :: skipn k (map uri (references Sample.index3)),
       0 :: skipn k (map duration (references Sample.index3))).
Proof.
  exact (X2_reconciled_lists_are_a_suffix Audio Sample.index3 Sample.index3
           "key" "kid" "./decrypt.sh" "/res/" "/dl/" "/mg/" 2
           "audio.m3u8" "video.m3u8" Sample.cold _ _ eq_refl).
Defined.

(** X3. When the last-processed URI is met at a reference that is not the
    final one, the lists are the init element and all the references
    after its first occurrence, however many they are: the capacity does
    not bound them. *)
Theorem X3_found_before_the_end
    (t : track) (ai vi : segment_index)
    (key keyId script res dl mg : string) (maxSegmentNum : Z)
    (apl vpl : string) (tok : token)
    (pre : list segment_reference) (r p : segment_reference)
    (post : list segment_reference) :
  references (of_track t ai vi) = pre ++ r :: p :: post ->
  absent (of_track t (audio tok) (video tok)) pre ->
  uri_equals (uri r) (of_track t (audio tok) (video tok)) = true ->
  trackLists t (constructor ai vi key keyId script res dl mg maxSegmentNum
                  apl vpl tok)
  = (initSegmentUri (hd r pre) :: map uri (p :: post),
     0 :: map duration (p :: post)).
Proof.
  intros Hrefs Habs Heq. rewrite trackLists_constructor.
  destruct (of_track t ai vi) as [refs]. cbn [references] in Hrefs.
  subst refs.
  now rewrite (segmentInfo_found_inner maxSegmentNum _ pre r p post Habs Heq).
Qed.

(** On the sample index with capacity 0 and its first reference processed
    last: both later references are listed. *)
Lemma X3_found_before_the_end_witness :
  trackLists Audio
    (Sample.saver 0 {| audio := Some "http://cdn/t/1a.m4s"; video := None |})
  = (["http://cdn/t/init.mp4"; "http://cdn/t/1b.m4s"; "http://cdn/t/1c.m4s"],
     [0; 6; 6]).
Proof.
  apply (X3_found_before_the_end Audio Sample.index3 Sample.index3
           "key" "kid" "./decrypt.sh" "/res/" "/dl/" "/mg/" 0
           "audio.m3u8" "video.m3u8"
           {| audio := Some "http://cdn/t/1a.m4s"; video := None |}
           [] (Sample.ref "1a.m4s" 0 6) (Sample.ref "1b.m4s" 6 12)
           [Sample.ref "1c.m4s" 12 18]).
  - reflexivity.
  - intros r [].
  - reflexivity.
Defined.

(* ================================================================== *)
(** * Further properties: file names and the continuity diagnostic *)
(* ================================================================== *)

Module NameFacts.

Lemma has_char_split_pop c s : Js.has_char c (Js.split_pop c s) = false.
Proof.
  induction s as [|a s IH]; cbn; [reflexivity|].
  destruct (Js.has_char c s) eqn:E; [exact IH|].
  destruct (Ascii.eqb a c) eqn:Ea; [exact E|].
  cbn. now rewrite Ea, E.
Qed.

Lemma split_pop_app c pre rest :
  Js.has_char c rest = false ->
  Js.split_pop c (pre ++ String c rest) = rest.
Proof.
  intros H. induction pre as [|a pre IH]; cbn.
  - now rewrite H, Ascii.eqb_refl.
  - rewrite StringFacts.has_char_app. cbn. rewrite Ascii.eqb_refl.
    now rewrite orb_true_r.
Qed.

(** A string with the character [c] is a prefix, [c], and what follows
    the last [c]. *)
Lemma split_pop_decompose c s :
  Js.has_char c s = true ->
  exists pre, s = (pre ++ String c (Js.split_pop c s))%string.
Proof.
  induction s as [|a s IH]; cbn; [discriminate|].
  destruct (Js.has_char c s) eqn:E.
  - intros _. destruct (IH eq_refl) as (pre & Hs).
    exists (String a pre). cbn. now rewrite <- Hs.
  - rewrite orb_false_r. intros Ea. rewrite Ea.
    apply Ascii.eqb_eq in Ea. subst a. now exists EmptyString.
Qed.

Lemma length_append a b :
  String.length (a ++ b) = (String.length a + String.length b)%nat.
Proof. induction a as [|x a IH]; cbn; [reflexivity | now rewrite IH]. Qed.

Lemma substring_prefix pre suf :
  substring 0 (String.length pre) (pre ++ suf) = pre.
Proof.
  induction pre as [|x pre IH]; cbn.
  - now destruct suf.
  - now rewrite IH.
Qed.

Lemma substring_all s : substring 0 (String.length s) s = s.
Proof. induction s as [|x s IH]; cbn; [reflexivity | now rewrite IH]. Qed.

Lemma substring_suffix pre suf :
  substring (String.length pre) (String.length suf) (pre ++ suf) = suf.
Proof.
  induction pre as [|x pre IH]; cbn; [apply substring_all | exact IH].
Qed.

Lemma ends_with_app pre suf : Js.ends_with suf (pre ++ suf) = true.
Proof.
  unfold Js.ends_with. rewrite length_append.
  replace (String.length pre + String.length suf - String.length suf)%nat
    with (String.length pre) by lia.
  rewrite substring_suffix, String.eqb_refl. cbn.
  apply Nat.leb_le. lia.
Qed.

(** [basename] cuts off what [extname] returns. *)
Lemma basename_extname name :
  (Js.basename name (Js.extname name) ++ Js.extname name)%string = name.
Proof.
  unfold Js.extname.
  destruct (Js.has_char "." name) eqn:Hdot.
  2:{ cbn. apply StringFacts.append_nil_r. }
  destruct (String.eqb_spec (String "." (Js.split_pop "." name)) name)
    as [E|N].
  { cbn. apply StringFacts.append_nil_r. }
  destruct (String.eqb_spec name "..") as [E2|N2].
  { cbn. apply StringFacts.append_nil_r. }
  destruct (split_pop_decompose "." name Hdot) as (pre & Hname).
  set (ext := String "." (Js.split_pop "." name)) in *.
  unfold Js.basename.
  change (String.eqb ext EmptyString) with false. cbv iota.
  destruct (String.eqb_spec ext name) as [E3|_]; [contradiction|].
  clearbody ext. subst name.
  rewrite ends_with_app, length_append.
  replace (String.length pre + String.length ext - String.length ext)%nat
    with (String.length pre) by lia.
  now rewrite substring_prefix.
Qed.

End NameFacts.



Module HexFacts.

Lemma lower_hex_show_uint u :
  lower_hex (HexadecimalString.NilEmpty.string_of_uint u) = true.
Proof. induction u; cbn; auto. Qed.

Lemma lower_hex_span s : lower_hex s = true -> Hex.span_hex s = s.
Proof.
  induction s as [|c s IH]; cbn; [reflexivity|].
  intros H. apply andb_prop in H. destruct H as [Hc Hs].
  rewrite (IH Hs).
  destruct c as [[] [] [] [] [] [] [] []];
    first [discriminate Hc | reflexivity].
Qed.

Lemma lower_hex_no_char s c :
  lower_hex s = true ->
  lower_hex (String c EmptyString) = false ->
  Js.has_char c s = false.
Proof.
  intros Hs Hc. induction s as [|a s IH]; cbn; [reflexivity|].
  cbn in Hs. apply andb_prop in Hs. destruct Hs as [Ha Hs].
  rewrite (IH Hs), orb_false_r.
  destruct (Ascii.eqb_spec a c) as [->|]; [|reflexivity].
  cbn in Hc. rewrite Ha in Hc. discriminate Hc.
Qed.

Lemma show_nonempty n : Hex.show n <> EmptyString.
Proof.
  unfold Hex.show. destruct n as [|p]; [discriminate|].
  cbn [N.to_hex_uint].
  pose proof (HexadecimalPos.Unsigned.to_uint_nonnil p) as H.
  destruct (Pos.to_hex_uint p); [congruence | discriminate ..].
Qed.

(** Reading a numeral back gives the number. *)
Lemma parseInt_0x_show n : Hex.parseInt_0x (Hex.show n) = Some n.
Proof.
  assert (Hs : Hex.span_hex (Hex.show n) = Hex.show n)
    by apply lower_hex_span, lower_hex_show_uint.
  unfold Hex.parseInt_0x. rewrite Hs.
  pose proof (show_nonempty n) as Hne.
  destruct (Hex.show n) as [|c d] eqn:E; [congruence|].
  rewrite <- E. unfold Hex.show.
  rewrite HexadecimalString.NilEmpty.usu. cbn.
  now rewrite HexadecimalN.Unsigned.of_to.
Qed.

Lemma append_cancel_r a b c : (a ++ c = b ++ c)%string -> a = b.
Proof.
  revert b. induction a as [|x a IH]; intros b H.
  - destruct b as [|y b]; [reflexivity|].
    apply (f_equal String.length) in H.
    rewrite !NameFacts.length_append in H. cbn in H. lia.
  - destruct b as [|y b].
    + apply (f_equal String.length) in H.
      rewrite !NameFacts.length_append in H. cbn in H. lia.
    + cbn in H. injection H as -> H. f_equal. now apply IH.
Qed.

(** Lines 169-177 on a URL whose last component is a numeral and an
    extension. *)
Lemma index_numberedUrl (dir : string) (n : N) (ext : string) :
  Js.has_char "/" ext = false ->
  Js.has_char "." ext = false ->
  getDecimalIndexFromURI_ (Some (numberedUrl dir n ext)) = Some n.
Proof.
  intros Hslash Hdot. unfold getDecimalIndexFromURI_, numberedUrl.
  set (name := (Hex.show n ++ "." ++ ext)%string).
  assert (Hshow : lower_hex (Hex.show n) = true)
    by apply lower_hex_show_uint.
  assert (Hname : Js.split_pop "/" (dir ++ "/" ++ name) = name).
  { apply NameFacts.split_pop_app. unfold name.
    rewrite StringFacts.has_char_app.
    rewrite (lower_hex_no_char _ "/" Hshow eq_refl).
    cbn. exact Hslash. }
  cbv zeta. rewrite Hname.
  assert (Hext : Js.extname name = String "." ext).
  { unfold Js.extname.
    assert (Hd : Js.has_char "." name = true).
    { unfold name. rewrite StringFacts.has_char_app. cbn.
      now rewrite orb_true_r. }
    rewrite Hd.
    assert (Hsp : Js.split_pop "." name = ext).
    { unfold name. now apply NameFacts.split_pop_app. }
    rewrite Hsp.
    pose proof (show_nonempty n) as Hne.
    assert (Hlen : String.length name
                   = (String.length (Hex.show n) + S (String.length ext))%nat).
    { unfold name. now rewrite NameFacts.length_append. }
    destruct (String.eqb_spec (String "." ext) name) as [E|_].
    { exfalso. apply (f_equal String.length) in E. rewrite Hlen in E.
      cbn in E. destruct (Hex.show n); [congruence | cbn in E; lia]. }
    destruct (String.eqb_spec name "..") as [E|_]; [|reflexivity].
    exfalso. unfold name in E.
    destruct (Hex.show n) as [|c d] eqn:Es; [congruence|].
    cbn in E. injection E as -> _. cbn in Hshow. discriminate Hshow. }
  pose proof (NameFacts.basename_extname name) as Hb. rewrite Hext in Hb.
  assert (Hbase : Js.basename name (String "." ext) = Hex.show n).
  { apply (append_cancel_r _ _ (String "." ext)). exact Hb. }
  rewrite Hext, Hbase. apply parseInt_0x_show.
Qed.


End HexFacts.





(* ================================================================== *)
(** * Further properties: how a cycle ends *)
(* ================================================================== *)

Section Abort.

Variable env : environment.

(** A pass that throws ends the cycle there, with what it threw. *)
Lemma cycle_aborts_at upd w w1 w' i t lv1 x :
  let o := alignTracks (this w) in
  (i < List.length (audioSegmentURIList_ o))%nat ->
  passesBefore env o i t (cycle_start env w) = (w1, inr lv1) ->
  processTrack env (audioSegmentURIList_ o) (videoSegmentURIList_ o)
    (audioSegmentDurationList_ o) (videoSegmentDurationList_ o)
    (decryptKey_ o) (keyId_ o) i t lv1 w1 = (w', inl x) ->
  processSegments env upd w = (w', inl x).
Proof.
  intros o Hi Hbefore Hstep.
  rewrite processSegments_unfold. cbv zeta. fold o.
  replace (seq 0 (List.length (audioSegmentURIList_ o)))
    with (seq 0 i ++ i :: seq (S i) (List.length (audioSegmentURIList_ o)
                                      - S i)).
  2:{ change (i :: seq (S i) (List.length (audioSegmentURIList_ o) - S i))
        with (seq i (S (List.length (audioSegmentURIList_ o) - S i))).
      rewrite <- seq_app. f_equal. lia. }
  rewrite for_each_app.
  unfold passesBefore in Hbefore.
  apply bind_inr in Hbefore. destruct Hbefore as (w0 & lv0 & Hloop & Hlast).
  unfold bind at 1. rewrite Hloop. cbn [for_each].
  unfold bind at 1. unfold processIndex. unfold bind at 1.
  destruct t.
  - injection Hlast as <- <-. rewrite Hstep. reflexivity.
  - rewrite Hlast. rewrite Hstep. reflexivity.
Qed.

Lemma aborts_bind {A B : Type} (m : M A) (k : A -> M B) :
  aborts_by_failure m -> (forall a, aborts_by_failure (k a)) ->
  aborts_by_failure (bind m k).
Proof.
  intros Hm Hk w w' x H Hs. unfold bind in H.
  destruct (m w) as [w1 [y|a]] eqn:E.
  - injection H as <- <-. exact (Hm _ _ _ E Hs).
  - exact (Hk a _ _ _ H Hs).
Qed.

Lemma aborts_processTrack aU vU aD vD key keyId i t lv :
  aborts_by_failure (processTrack env aU vU aD vD key keyId i t lv).
Proof.
  intros w w' x. unfold processTrack, bind, get_this.
  destruct (nth_error (uriList aU vU t) i) as [url|];
    [|intros H Hs; injection H as _ <-; discriminate Hs].
  unfold socks5_http_download.
  destruct (download_ok env (history w) url (saveName (this w) t url));
    [|intros H Hs; injection H as _ <-; discriminate Hs].
  destruct (negb (segmentName url =? initFile)%string); [|discriminate].
  unfold mergeFiles. cbn [record history this].
  destruct (merge_status env _ _ _) eqn:Em.
  - unfold shell_exec. cbn [record history this].
    match goal with
    | |- context [exec_code env ?h ?c] =>
        destruct (Z.eqb_spec (exec_code env h c) 0) as [Ec|Ec]
    end; cbn [negb].
    + rewrite Ec.
      match goal with
      | |- context [updateMediaPlaylist env t ?p ?d ?n ?w3] =>
          destruct (updateMediaPlaylist env t p d n w3) as [w4 [y|[]]] eqn:EU
      end; [|discriminate].
      intros H Hs. injection H as _ <-.
      apply updateMediaPlaylist_throws in EU. congruence.
    + intros H _. injection H as <- <-. split; [reflexivity|].
      eexists _, _. cbn [record history]. split; [reflexivity|].
      cbn. now apply Z.eqb_neq in Ec; rewrite Ec.
  - intros H _. injection H as <- <-. split; [reflexivity|].
    eexists _, _. cbn [record history]. split; reflexivity.
Qed.

Lemma aborts_for_each {A S : Type} (body : A -> S -> M S) xs s :
  (forall x s', aborts_by_failure (body x s')) ->
  aborts_by_failure (for_each body xs s).
Proof.
  intros Hb. revert s. induction xs as [|x xs IH]; intros s; cbn [for_each].
  - intros w w' y H. discriminate H.
  - apply aborts_bind; [apply Hb | exact IH].
Qed.

End Abort.

(** X8. Let every pass before the one for the element at index [i] of
    track [t] have completed, leaving the world [w1], and let the fetch of
    that element be rejected.  Then the cycle is rejected with the error
    of the fetch; the rejected fetch is the last call made: nothing is
    merged, no directory is emptied, the lists are not cleared.  This
    holds for the init element as for any other. *)
Theorem X8_download_failure_aborts
    (env : environment) (updateDuration : Z) (w w1 : world) (i : nat)
    (t : track) (url : string) (lv1 : locals) :
  let o := alignTracks (this w) in
  (i < List.length (audioSegmentURIList_ o))%nat ->
  nth_error (fst (trackLists t o)) i = Some url ->
  passesBefore env o i t (cycle_start env w) = (w1, inr lv1) ->
  download_ok env (history w1) url (saveName o t url) = false ->
  processSegments env updateDuration w
  = (after [Download url (saveName o t url) false] w1, inl (NetError url))
  /\ this (after [Download url (saveName o t url) false] w1) = o.
Proof.
  intros o Hi Hurl Hbefore Hdl.
  assert (Hthis : this w1 = o) by exact (passesBefore_this env _ _ _ _ _ _ Hbefore).
  split; [|exact Hthis].
  apply (cycle_aborts_at env updateDuration w w1 _ i t lv1 _ Hi Hbefore).
  fold o. unfold processTrack, bind, get_this.
  replace (nth_error (uriList (audioSegmentURIList_ o)
                        (videoSegmentURIList_ o) t) i) with (Some url)
    by (destruct t; exact (eq_sym Hurl)).
  unfold socks5_http_download. rewrite Hthis, Hdl. reflexivity.
Qed.


(** The third audio segment of the sample index cannot be fetched. *)
Lemma X8_download_failure_aborts_witness :
  let env := Scenario.env_fetch_fails in
  let w := Sample.fresh (Sample.saver 3 Sample.cold) in
  let o := alignTracks (this w) in
  let url := "http://cdn/t/1c.m4s" in
  let before := passesBefore env o 3 Audio (cycle_start env w) in
  processSegments env 2000 w
  = (after [Download url (saveName o Audio url) false] (fst before),
     inl (NetError url)).
Proof.
  intros env w o url before.
  set (lv1 := {| lastAudioURI := Some "http://cdn/t/1b.m4s";
                 lastVideoURI := Some "http://cdn/t/1b.m4s";
                 segmentDuration := Some 6 |}).
  assert (Hb : before = (fst before, inr lv1)) by (vm_compute; reflexivity).
  apply (X8_download_failure_aborts env 2000 w (fst before) 3 Audio url lv1).
  - vm_compute. lia.
  - reflexivity.
  - exact Hb.
  - reflexivity.
Defined.


Section Idle.

Variable env : environment.

Lemma alignTracks_empty o :
  audioSegmentURIList_ o = [] \/ videoSegmentURIList_ o = [] ->
  audioSegmentURIList_ (alignTracks o) = [].
Proof.
  intros H. destruct (alignTracks_prefixes o) as (Ha & _). cbv zeta in Ha.
  rewrite Ha. destruct H as [-> | ->]; [apply firstn_nil|].
  cbn [List.length]. now rewrite Nat.min_0_r.
Qed.

(** Without a duration the tail of the cycle only empties the
    directories and reads the clock. *)
Lemma finish_housekeeping cs upd lv w2 w3 r :
  finish env cs upd lv w2 = (w3, r) ->
  segmentDuration lv = None ->
  (exists evs, history w3 = history w2 ++ evs
               /\ forallb is_housekeeping evs = true)
  /\ audioMediaPLTemplate w3 = audioMediaPLTemplate w2
  /\ videoMediaPLTemplate w3 = videoMediaPLTemplate w2
  /\ forall tok, r = inr tok ->
       tok = {| audio := lastAudioURI lv; video := lastVideoURI lv |}.
Proof.
  intros H Hd. unfold finish, bind, get_this, emptyDirSync, Date_now in H.
  rewrite Hd in H. cbn [record this history pace] in H.
  repeat match type of H with
         | context [emptydir_ok env ?h ?p] =>
             destruct (emptydir_ok env h p)
         end;
    injection H as <- <-; cbn [history record with_this ret fst snd];
    (split; [eexists; rewrite <- ?app_assoc; split; [reflexivity|reflexivity]|]);
    (split; [reflexivity|]); (split; [reflexivity|]);
    intros tok Ht; first [discriminate Ht | now injection Ht].
Qed.

(** A cycle over an empty audio list reads the clock, empties the
    directories and returns the token of two nulls. *)
Lemma idle_cycle upd w w' r :
  audioSegmentURIList_ (alignTracks (this w)) = [] ->
  processSegments env upd w = (w', r) ->
  (exists evs, history w' = history w ++ evs
               /\ forallb is_housekeeping evs = true)
  /\ audioMediaPLTemplate w' = audioMediaPLTemplate w
  /\ videoMediaPLTemplate w' = videoMediaPLTemplate w
  /\ forall tok, r = inr tok -> tok = {| audio := None; video := None |}.
Proof.
  intros He. rewrite processSegments_unfold. cbv zeta. rewrite He.
  cbn [List.length seq for_each]. unfold ret at 1. intros F.
  apply finish_housekeeping in F; [|reflexivity].
  destruct F as ((evs & Hh & Hk) & Ha & Hv & Ht).
  split; [|auto].
  exists (DateNow (clock env (history w)) :: evs).
  cbn [cycle_start record history with_this] in Hh.
  rewrite Hh, <- app_assoc. split; [reflexivity|]. cbn. exact Hk.
Qed.

(** A cycle that returns leaves the object cleared. *)
Lemma cycle_returns_this upd w w' tok :
  processSegments env upd w = (w', inr tok) ->
  this w' = clearReference_ (alignTracks (this w)).
Proof.
  rewrite processSegments_unfold. cbv zeta.
  destruct (for_each _ _ no_locals (cycle_start env w)) as [w2 [x|lv]] eqn:E;
    [discriminate|].
  intros F. apply finish_returns in F. cbv zeta in F.
  destruct F as (_ & _ & Hthis & _).
  apply pipeline_only_for_each in E;
    [|intros; apply pipeline_only_processIndex].
  destruct E as (T & _). rewrite Hthis, T. reflexivity.
Qed.

End Idle.

(** X10. When either track's URI list is empty the cycle processes
    nothing: all it does is read the clock and empty the scratch
    directories - no fetch, no merge, no decryption, no playlist write, no
    sleep - both playlist arrays are untouched, and the token it returns,
    if it returns, holds two nulls. *)
Theorem X10_empty_track_idles
    (env : environment) (updateDuration : Z) (w w' : world)
    (r : exn + token) :
  audioSegmentURIList_ (this w) = [] \/ videoSegmentURIList_ (this w) = [] ->
  processSegments env updateDuration w = (w', r) ->
  (exists evs, history w' = history w ++ evs
               /\ forallb is_housekeeping evs = true)
  /\ audioMediaPLTemplate w' = audioMediaPLTemplate w
  /\ videoMediaPLTemplate w' = videoMediaPLTemplate w
  /\ forall tok, r = inr tok -> tok = {| audio := None; video := None |}.
Proof.
  intros He H.
  exact (idle_cycle env updateDuration w w' r (alignTracks_empty _ He) H).
Qed.

(** X11. The object serves one cycle: a cycle that returns leaves all
    four lists empty and the key fields null, so that a second cycle on
    the same object processes nothing and, if it returns, returns the
    token of two nulls instead of the last-processed URIs. *)
Theorem X11_second_cycle_idles
    (env : environment) (upd upd' : Z) (w w1 w2 : world) (tok : token)
    (r : exn + token) :
  processSegments env upd w = (w1, inr tok) ->
  processSegments env upd' w1 = (w2, r) ->
  (forall t, trackLists t (this w1) = ([], []))
  /\ decryptKey_ (this w1) = None /\ keyId_ (this w1) = None
  /\ (exists evs, history w2 = history w1 ++ evs
                  /\ forallb is_housekeeping evs = true)
  /\ forall tok', r = inr tok' -> tok' = {| audio := None; video := None |}.
Proof.
  intros H1 H2.
  pose proof (cycle_returns_this env upd w w1 tok H1) as Hthis.
  split; [intros []; rewrite Hthis; reflexivity|].
  split; [rewrite Hthis; reflexivity|].
  split; [rewrite Hthis; reflexivity|].
  assert (He : audioSegmentURIList_ (alignTracks (this w1)) = []).
  { apply alignTracks_empty. left. rewrite Hthis. reflexivity. }
  destruct (idle_cycle env upd' w1 w2 r He H2) as (Hh & _ & _ & Ht).
  split; assumption.
Qed.

(** On the sample object with an empty video index. *)
Lemma X10_empty_track_idles_witness :
  let o := constructor Sample.index3 Sample.index0 "key" "kid" "./decrypt.sh"
             "/res/" "/dl/" "/mg/" 3 "audio.m3u8" "video.m3u8" Sample.cold in
  let run := processSegments Sample.env_ok 2000 (Sample.fresh o) in
  audioSegmentURIList_ o <> []
  /\ videoSegmentURIList_ o = []
  /\ forall tok, snd run = inr tok -> tok = {| audio := None; video := None |}.
Proof.
  intros o run.
  assert (E : run = (fst run, snd run)) by (destruct run; reflexivity).
  split; [discriminate|]. split; [reflexivity|].
  exact (proj2 (proj2 (proj2
           (X10_empty_track_idles Sample.env_ok 2000 (Sample.fresh o)
              (fst run) (snd run) (or_intror eq_refl) E)))).
Defined.

(** Two cycles in a row on the sample object. *)
Lemma X11_second_cycle_idles_witness :
  let w := Sample.fresh (Sample.saver 2 Sample.cold) in
  let first := processSegments Sample.env_ok 2000 w in
  let second := processSegments Sample.env_ok 2000 (fst first) in
  snd first = inr {| audio := Some "http://cdn/t/1c.m4s";
                     video := Some "http://cdn/t/1c.m4s" |}
  /\ forall tok', snd second = inr tok' ->
                  tok' = {| audio := None; video := None |}.
Proof.
  intros w first second.
  assert (E1 : first = (fst first,
                        inr {| audio := Some "http://cdn/t/1c.m4s";
                               video := Some "http://cdn/t/1c.m4s" |}))
    by (vm_compute; reflexivity).
  assert (E2 : second = (fst second, snd second))
    by (destruct second; reflexivity).
  split; [rewrite E1; reflexivity|].
  exact (proj2 (proj2 (proj2 (proj2
           (X11_second_cycle_idles Sample.env_ok 2000 2000 w (fst first)
              (fst second) _ (snd second) E1 E2))))).
Defined.

(* ================================================================== *)
(** * Further properties: what a cycle fetches *)
(* ================================================================== *)

Lemma flat_map_seq_combine {A B C : Type} (G : A -> B -> list C)
    (l1 : list A) (l2 : list B) :
  List.length l1 = List.length l2 ->
  flat_map (fun i => match nth_error l1 i, nth_error l2 i with
                     | Some a, Some b => G a b
                     | _, _ => []
                     end) (seq 0 (List.length l1))
  = flat_map (fun '(a, b) => G a b) (combine l1 l2).
Proof.
  revert l2. induction l1 as [|a l1 IH]; intros [|b l2] H;
    try discriminate H; [reflexivity|].
  cbn [List.length seq combine flat_map nth_error]. f_equal.
  rewrite <- seq_shift, flat_map_concat_map, map_map, <- flat_map_concat_map.
  cbn [nth_error]. apply IH. now injection H.
Qed.

Section Fetches.

Variable env : environment.
Variables aU vU : list string.
Variables aD vD : list Z.
Variables key keyId : option string.

(** A pass that returns has fetched its element once, first of all. *)
Lemma processTrack_fetches i t lv w w' lv' :
  processTrack env aU vU aD vD key keyId i t lv w = (w', inr lv') ->
  exists url rest,
    nth_error (uriList aU vU t) i = Some url
    /\ history w'
       = history w ++ Download url (saveName (this w) t url) true :: rest
    /\ filter is_Download rest = []
    /\ this w' = this w.
Proof.
  intros H.
  assert (Hthis : this w' = this w).
  { exact (proj1 (pipeline_only_processTrack env aU vU aD vD key keyId
                    i t lv _ _ _ H)). }
  revert H. unfold processTrack, bind, get_this.
  destruct (nth_error (uriList aU vU t) i) as [url|]; [|discriminate].
  unfold socks5_http_download.
  destruct (download_ok env (history w) url (saveName (this w) t url));
    [|discriminate].
  destruct (negb (segmentName url =? initFile)%string).
  2:{ intros H. injection H as <- _. exists url, []. cbn. auto. }
  unfold mergeFiles. cbn [record history this].
  destruct (merge_status env _ _ _); [|discriminate].
  unfold shell_exec. cbn [record history this].
  match goal with
  | |- context [exec_code env ?h ?c] =>
      destruct (Z.eqb_spec (exec_code env h c) 0) as [Ec|Ec]
  end; cbn [negb]; [|discriminate].
  rewrite Ec.
  match goal with
  | |- context [updateMediaPlaylist env t ?p ?d ?n ?w3] =>
      destruct (updateMediaPlaylist env t p d n w3) as [w4 [x|[]]] eqn:EU
  end; [discriminate|].
  intros H. injection H as <- _.
  apply updateMediaPlaylist_returns in EU. cbv zeta in EU.
  destruct EU as [_ EU]. cbn [record history this] in EU.
  exists url.
  match type of EU with
  | if ?b then _ else _ => destruct b
  end.
  - destruct EU as (old & newFirst & _ & _ & _ & Hh).
    eexists. rewrite Hh, <- !app_assoc. cbn [app].
    split; [reflexivity|]. split; [reflexivity|]. split; [reflexivity|].
    exact Hthis.
  - destruct EU as [_ Hh].
    eexists. rewrite Hh, <- !app_assoc. cbn [app].
    split; [reflexivity|]. split; [reflexivity|]. split; [reflexivity|].
    exact Hthis.
Qed.

(** The fetches of the passes at the indexes [xs], in order. *)
Lemma for_each_fetches xs lv w w' lv' :
  for_each (processIndex env aU vU aD vD key keyId) xs lv w = (w', inr lv') ->
  exists evs,
    history w' = history w ++ evs
    /\ filter is_Download evs
       = flat_map (fun i => match nth_error aU i, nth_error vU i with
                            | Some a, Some v =>
                                [Download a (saveName (this w) Audio a) true;
                                 Download v (saveName (this w) Video v) true]
                            | _, _ => []
                            end) xs
    /\ this w' = this w.
Proof.
  revert lv w. induction xs as [|i xs IH]; intros lv w; cbn [for_each].
  - intros H. injection H as <- _. exists []. now rewrite app_nil_r.
  - intros H. apply bind_inr in H. destruct H as (w1 & lv1 & Hi & Hrest).
    unfold processIndex in Hi. apply bind_inr in Hi.
    destruct Hi as (wa & lva & Ha & Hv).
    apply processTrack_fetches in Ha.
    destruct Ha as (a & ra & Hna & Hha & Hfa & Hta).
    apply processTrack_fetches in Hv.
    destruct Hv as (v & rv & Hnv & Hhv & Hfv & Htv).
    destruct (IH _ _ Hrest) as (evs & Hh & Hf & Ht).
    cbn [uriList] in Hna, Hnv.
    exists ((Download a (saveName (this w) Audio a) true :: ra)
            ++ (Download v (saveName (this w) Video v) true :: rv) ++ evs).
    split; [|split].
    + rewrite Hh, Hhv, Hha, Hta, <- !app_assoc. reflexivity.
    + cbn [flat_map]. rewrite Hna, Hnv.
      rewrite !filter_app. cbn [filter is_Download]. rewrite Hfa, Hfv, Hf.
      rewrite Htv, Hta. reflexivity.
    + now rewrite Ht, Htv, Hta.
Qed.

End Fetches.

(** X12. A cycle that returns has fetched every element of the aligned
    lists exactly once, index by index, the audio element before the
    video element, each into the download directory of its track; it has
    made no other fetch. *)
Theorem X12_cycle_fetches_each_element_once
    (env : environment) (updateDuration : Z) (w w' : world) (tok : token) :
  processSegments env updateDuration w = (w', inr tok) ->
  exists evs,
    history w' = history w ++ evs
    /\ filter is_Download evs = fetches (alignTracks (this w)).
Proof.
  rewrite processSegments_unfold. cbv zeta.
  set (o := alignTracks (this w)).
  destruct (for_each _ _ no_locals (cycle_start env w)) as [w2 [x|lv]] eqn:E;
    [discriminate|].
  intros F. apply for_each_fetches in E.
  destruct E as (evs & Hh & Hf & Ht).
  apply finish_returns in F. cbv zeta in F. destruct F as (Hh3 & _).
  cbn [cycle_start record history with_this this] in Hh, Hf. fold o in Hf.
  eexists. rewrite Hh3, Hh, <- !app_assoc. split; [reflexivity|].
  rewrite !filter_app, Hf. cbn [filter is_Download app].
  assert (Hp : forall a b c, filter is_Download (pacer_events a b c) = []).
  { intros a b [d|]; [|reflexivity]. unfold pacer_events.
    now destruct (0 <? d * 1000 - (a - b)). }
  rewrite Hp, !app_nil_r. unfold fetches.
  rewrite <- flat_map_seq_combine; [reflexivity|].
  symmetry. apply alignTracks_lengths.
Qed.

(** The cold cycle on the sample object with capacity 1: the init element
    and the last segment of each track. *)
Lemma X12_cycle_fetches_each_element_once_witness :
  let w := Sample.fresh (Sample.saver 1 Sample.cold) in
  let run := processSegments Sample.env_ok 2000 w in
  exists evs,
    history (fst run) = history w ++ evs
    /\ filter is_Download evs
       = [Download "http://cdn/t/init.mp4" "/dl/audio/init.mp4" true;
          Download "http://cdn/t/init.mp4" "/dl/video/init.mp4" true;
          Download "http://cdn/t/1c.m4s" "/dl/audio/1c.m4s" true;
          Download "http://cdn/t/1c.m4s" "/dl/video/1c.m4s" true].
Proof.
  intros w run.
  assert (E : run = (fst run,
                     inr {| audio := Some "http://cdn/t/1c.m4s";
                            video := Some "http://cdn/t/1c.m4s" |}))
    by (vm_compute; reflexivity).
  exact (X12_cycle_fetches_each_element_once Sample.env_ok 2000 w (fst run)
           _ E).
Defined.

(* ================================================================== *)
(** * Further properties: durations, evicted files, completion *)
(* ================================================================== *)

Lemma constructor_lengths t ai vi key keyId script res dl mg maxSegmentNum
    apl vpl tok :
  let o := constructor ai vi key keyId script res dl mg maxSegmentNum
             apl vpl tok in
  List.length (fst (trackLists t o)) = List.length (snd (trackLists t o)).
Proof.
  cbv zeta. rewrite trackLists_constructor.
  destruct (of_track t ai vi) as [[|r0 rest]]; [reflexivity|].
  destruct (segmentInfo_suffix maxSegmentNum r0 rest
              (of_track t (audio tok) (video tok))) as (k & ->).
  cbn [fst snd List.length]. now rewrite !length_skipn, !length_map.
Qed.

(** X13. On an object as the constructor builds it, every pass of the
    loops finds both a URL and a duration at its index: the alignment
    shortens the URI lists only, and the loops stay within the shorter
    of them, so that no entry is written with an undefined duration. *)
Theorem X13_every_pass_has_a_duration
    (ai vi : segment_index) (key keyId script res dl mg : string)
    (maxSegmentNum : Z) (apl vpl : string) (tok : token)
    (i : nat) (t : track) :
  let o := alignTracks (constructor ai vi key keyId script res dl mg
                          maxSegmentNum apl vpl tok) in
  (i < List.length (audioSegmentURIList_ o))%nat ->
  exists url d,
    nth_error (fst (trackLists t o)) i = Some url
    /\ nth_error (snd (trackLists t o)) i = Some d.
Proof.
  intros o Hi.
  set (o0 := constructor ai vi key keyId script res dl mg maxSegmentNum
               apl vpl tok) in *.
  destruct (alignTracks_prefixes o0) as (Ha & Hv & Hda & Hdv).
  cbv zeta in Ha, Hv, Hda, Hdv. fold o in Ha, Hv, Hda, Hdv.
  pose proof (alignTracks_lengths o0) as Hl. fold o in Hl.
  pose proof (constructor_lengths t ai vi key keyId script res dl mg
                maxSegmentNum apl vpl tok) as Hp.
  cbv zeta in Hp. fold o0 in Hp.
  assert (HU : (i < List.length (fst (trackLists t o)))%nat)
    by (destruct t; cbn [trackLists fst]; lia).
  assert (HD : (i < List.length (snd (trackLists t o)))%nat).
  { assert (Hle : (List.length (fst (trackLists t o))
                   <= List.length (fst (trackLists t o0)))%nat).
    { destruct t; cbn [trackLists fst]; rewrite ?Ha, ?Hv, length_firstn; lia. }
    replace (snd (trackLists t o)) with (snd (trackLists t o0))
      by (destruct t; cbn [trackLists snd]; congruence).
    lia. }
  destruct (nth_error (fst (trackLists t o)) i) as [url|] eqn:EU.
  2:{ apply nth_error_None in EU. lia. }
  destruct (nth_error (snd (trackLists t o)) i) as [d|] eqn:ED.
  2:{ apply nth_error_None in ED. lia. }
  now exists url, d.
Qed.

(** On the sample object whose video track is the longer one. *)
Lemma X13_every_pass_has_a_duration_witness :
  exists url d,
    nth_error (fst (trackLists Video (alignTracks Sample.uneven))) 1 = Some url
    /\ nth_error (snd (trackLists Video (alignTracks Sample.uneven))) 1
       = Some d.
Proof.
  apply (X13_every_pass_has_a_duration
           {| references := [Sample.ref "1a.m4s" 0 6] |}
           {| references := [Sample.ref "1a.m4s" 0 6;
                             Sample.ref "1b.m4s" 6 12] |}
           "key" "kid" "./decrypt.sh" "/res/" "/dl/" "/mg/" 3
           "audio.m3u8" "video.m3u8" {| audio := None; video := None |}
           1 Video).
  vm_compute. lia.
Defined.

Lemma split_pop_segmentTemplate d name :
  Js.has_char Js.LF name = false ->
  Js.split_pop Js.LF (segmentTemplate d name) = name.
Proof.
  intros H. unfold segmentTemplate.
  rewrite <- !StringFacts.append_assoc.
  now apply NameFacts.split_pop_app.
Qed.

(** X14. The file deleted when an entry leaves the window is the file
    the decryption of that segment was told to write: if the oldest entry
    of a playlist at capacity is the one pushed for the segment at [url],
    an append that returns has unlinked, right before it wrote the
    playlist, the path resultPath + pathSuffix + nameOnly + ".mp4" that
    the decrypt command of [url] names as its output. *)
Theorem X14_evicted_file_is_the_decrypted_file
    (env : environment) (t : track) (path : string) (d dOld : option Z)
    (name url : string) (w w' : world) :
  updateMediaPlaylist env t path d name w = (w', inr tt) ->
  let a := mediaPlaylistTemplate t w in
  Z.of_nat (entry_count a) = maxSegmentNum_ (this w) ->
  hd_error (segmentItems a)
    = Some (segmentTemplate dOld (nameOnly url ++ ".mp4")) ->
  Js.has_char Js.LF (nameOnly url) = false ->
  exists content,
    history w'
    = history w
      ++ [Unlink (Js.str (resultPath_ (this w))
                  ++ resultFileRelativePath t url) true;
          WriteFile path content true].
Proof.
  intros H a Hfull Hold Hlf.
  apply updateMediaPlaylist_returns in H. cbv zeta in H. fold a in H.
  destruct H as [_ H]. apply Z.eqb_eq in Hfull. rewrite Hfull in H.
  destruct H as (old & newFirst & Hold' & _ & _ & Hh).
  rewrite Hold in Hold'. injection Hold' as <-.
  rewrite split_pop_segmentTemplate in Hh.
  - eexists. exact Hh.
  - rewrite StringFacts.has_char_app, Hlf. reflexivity.
Qed.

(** The oldest entry of the sample playlist at capacity is the one of the
    segment 1a.m4s; the file /res/audio/1a.mp4 is unlinked. *)
Lemma X14_evicted_file_is_the_decrypted_file_witness :
  let w := Sample.full in
  let run := updateMediaPlaylist Sample.env_ok Audio "/res/audio/audio.m3u8"
               (Some 6) "1c" w in
  exists content,
    history (fst run)
    = [Unlink "/res/audio/1a.mp4" true;
       WriteFile "/res/audio/audio.m3u8" content true].
Proof.
  intros w run.
  assert (E : run = (fst run, inr tt)) by (vm_compute; reflexivity).
  exact (X14_evicted_file_is_the_decrypted_file Sample.env_ok Audio
           "/res/audio/audio.m3u8" (Some 6) (Some 6) "1c"
           "http://cdn/t/1a.m4s" w (fst run) E eq_refl eq_refl eq_refl).
Defined.

Section Liveness.

Variable env : environment.

Lemma header_first_inv a :
  header_first a = true ->
  exists h rest, a = h :: rest
                 /\ Js.includes extinf_marker h = false
                 /\ regEx_exec h <> None.
Proof.
  destruct a as [|h rest]; [discriminate|]. cbn [header_first].
  intros H. apply andb_prop in H. destruct H as [H1 H2].
  exists h, rest. split; [reflexivity|].
  split; [now apply negb_true_iff in H1|].
  destruct (regEx_exec h); [discriminate | discriminate H2].
Qed.

Lemma header_first_push a item :
  header_first a = true -> header_first (a ++ [item]) = true.
Proof. destruct a; [discriminate | exact (fun H => H)]. Qed.

(** With obeying collaborators an append to a playlist whose element 0
    is its header returns and leaves such a playlist. *)
Lemma append_keeps_header t path d name w :
  (forall h p, unlink_ok env h p = true) ->
  (forall h p c, write_ok env h p c = true) ->
  header_first (mediaPlaylistTemplate t w) = true ->
  maxSegmentNum_ (this w) <> 0 ->
  exists w',
    updateMediaPlaylist env t path d name w = (w', inr tt)
    /\ header_first (mediaPlaylistTemplate t w') = true
    /\ this w' = this w
    /\ mediaPlaylistTemplate (other t) w' = mediaPlaylistTemplate (other t) w.
Proof.
  intros Hu Hw Hwf Hmax.
  set (a := mediaPlaylistTemplate t w).
  destruct (header_first_inv a Hwf) as (h & rest & Ea & Hh & Hm).
  assert (Hev : Z.of_nat (entry_count a) = maxSegmentNum_ (this w) ->
                exists old, hd_error (segmentItems a) = Some old
                            /\ hd_error (evicted a) = Some h).
  { intros E. destruct (segmentItems a) as [|old l] eqn:Es.
    - unfold entry_count in E. rewrite Es in E. cbn in E. congruence.
    - exists old. split; [reflexivity|].
      assert (Ho : hd_error (segmentItems a) = Some old) by now rewrite Es.
      destruct (evicted_oldest a old Ho) as (_ & _ & _ & _ & _ & _ & Hhd).
      apply Hhd; [now rewrite Ea | exact Hh]. }
  assert (Hc : snd (updateMediaPlaylist env t path d name w) = inr tt).
  { apply (updateMediaPlaylist_completes env t path d name w Hu Hw).
    fold a. intros Efull. destruct (Hev Efull) as (old & Ho & Hhd). split.
    - intros Hn. rewrite Hn in Ho. discriminate Ho.
    - now rewrite Hhd. }
  destruct (updateMediaPlaylist env t path d name w) as [w' r] eqn:E.
  cbn [snd] in Hc. subst r.
  exists w'. split; [reflexivity|].
  pose proof E as E'.
  apply updateMediaPlaylist_returns in E. cbv zeta in E. fold a in E.
  destruct E as [Hthis E]. split; [|split; [exact Hthis|]].
  - destruct (Z.eqb_spec (Z.of_nat (entry_count a)) (maxSegmentNum_ (this w)))
      as [Efull|_].
    + destruct E as (old & newFirst & _ & Hb & -> & _).
      destruct (Hev Efull) as (_ & _ & Hhd). rewrite Hhd in Hb.
      cbn [Js.str] in Hb.
      destruct (entry_count_set_first newFirst (evicted a)) as (_ & _ & Hn).
      { now rewrite Hhd. }
      apply header_first_push.
      destruct (Js.set_first newFirst (evicted a)) as [|x l];
        [discriminate Hn|].
      injection Hn as ->. cbn [header_first].
      rewrite (StringFacts.bumpMediaSequence_includes _ _ Hb), Hh.
      destruct (StringFacts.bumpMediaSequence_succ _ _ Hb) as (n & _ & Hs).
      unfold sequenceNumber in Hs.
      destruct (regEx_exec newFirst); [reflexivity | discriminate Hs].
    + destruct E as [-> _]. now apply header_first_push.
  - assert (Hk : keeps_template (other t)
                   (updateMediaPlaylist env t path d name)).
    { destruct t; exact (keeps_updateMediaPlaylist env _ path d name). }
    exact (Hk w w' _ E').
Qed.


Lemma alignTracks_maxSegmentNum o :
  maxSegmentNum_ (alignTracks o) = maxSegmentNum_ o.
Proof.
  unfold alignTracks.
  destruct (negb _); [|reflexivity].
  destruct (0 <? _); [rewrite iter_pop_video | rewrite iter_pop_audio];
    reflexivity.
Qed.

Hypothesis Hobeys : obeys env.

Section Lists.

Variables aU vU : list string.
Variables aD vD : list Z.
Variables key keyId : option string.

Lemma processTrack_completes i t lv w url :
  nth_error (uriList aU vU t) i = Some url ->
  maxSegmentNum_ (this w) <> 0 ->
  header_first (audioMediaPLTemplate w) = true ->
  header_first (videoMediaPLTemplate w) = true ->
  exists w',
    processTrack env aU vU aD vD key keyId i t lv w
    = (w', inr (assign aU vU aD vD i t lv))
    /\ this w' = this w
    /\ header_first (audioMediaPLTemplate w') = true
    /\ header_first (videoMediaPLTemplate w') = true.
Proof.
  intros Hurl Hmax Ha Hv.
  destruct Hobeys as (Hd & Hm & He & Hu & Hw & _).
  unfold processTrack, bind, get_this. rewrite Hurl.
  unfold socks5_http_download. rewrite Hd.
  destruct (negb (segmentName url =? initFile)%string).
  - unfold mergeFiles. cbn [record history this]. rewrite Hm.
    unfold shell_exec. cbn [record history this]. rewrite He.
    cbn [Z.eqb negb].
    match goal with
    | |- context [updateMediaPlaylist env t ?p ?d ?n ?w3] =>
        destruct (append_keeps_header t p d n w3 Hu Hw)
          as (w' & E & Hhf & Hthis & Hother);
        [now destruct t | exact Hmax | rewrite E]
    end.
    exists w'. split; [reflexivity|]. split; [exact Hthis|].
    destruct t;
      cbn [mediaPlaylistTemplate other record audioMediaPLTemplate
           videoMediaPLTemplate] in Hhf, Hother;
      split; congruence.
  - eexists. split; [reflexivity|]. cbn [record this].
    split; [reflexivity|]. split; assumption.
Qed.

Lemma for_each_completes xs lv w :
  (forall i, In i xs ->
             (i < List.length aU)%nat /\ (i < List.length vU)%nat) ->
  maxSegmentNum_ (this w) <> 0 ->
  header_first (audioMediaPLTemplate w) = true ->
  header_first (videoMediaPLTemplate w) = true ->
  exists w' lv',
    for_each (processIndex env aU vU aD vD key keyId) xs lv w = (w', inr lv')
    /\ this w' = this w
    /\ header_first (audioMediaPLTemplate w') = true
    /\ header_first (videoMediaPLTemplate w') = true.
Proof.
  revert lv w. induction xs as [|i xs IH]; intros lv w Hin Hmax Ha Hv.
  - exists w, lv. cbn. auto.
  - destruct (Hin i (or_introl eq_refl)) as [HiA HiV].
    destruct (nth_error aU i) as [a|] eqn:Ea.
    2:{ apply nth_error_None in Ea. lia. }
    destruct (nth_error vU i) as [v|] eqn:Ev.
    2:{ apply nth_error_None in Ev. lia. }
    destruct (processTrack_completes i Audio lv w a Ea Hmax Ha Hv)
      as (w1 & E1 & T1 & A1 & V1).
    rewrite <- T1 in Hmax.
    destruct (processTrack_completes i Video
                (assign aU vU aD vD i Audio lv) w1 v Ev Hmax A1 V1)
      as (w2 & E2 & T2 & A2 & V2).
    rewrite <- T2 in Hmax.
    destruct (IH (assign aU vU aD vD i Video (assign aU vU aD vD i Audio lv))
                w2 (fun j Hj => Hin j (or_intror Hj)) Hmax A2 V2)
      as (w' & lv' & E & T & A & V).
    assert (EI : processIndex env aU vU aD vD key keyId i lv w
                 = (w2, inr (assign aU vU aD vD i Video
                               (assign aU vU aD vD i Audio lv)))).
    { unfold processIndex, bind. rewrite E1. cbv beta iota. exact E2. }
    exists w', lv'. cbn [for_each]. unfold bind at 1. rewrite EI.
    split; [exact E|]. split; [congruence|]. split; assumption.
Qed.

End Lists.

Lemma finish_completes cs upd lv w2 :
  exists w3 tok,
    finish env cs upd lv w2 = (w3, inr tok)
    /\ audioMediaPLTemplate w3 = audioMediaPLTemplate w2
    /\ videoMediaPLTemplate w3 = videoMediaPLTemplate w2.
Proof.
  destruct Hobeys as (_ & _ & _ & _ & _ & He).
  unfold finish, bind, get_this, emptyDirSync, Date_now.
  cbn [record this history]. rewrite !He. rewrite pacer_events_pace.
  eexists _, _. split; [reflexivity|]. split; reflexivity.
Qed.

End Liveness.






(* ================================================================== *)
(** * Further properties: the deferred call *)
(* ================================================================== *)

Module DelayedTickFacts.

Import DelayedTick.

Lemma nth_error_update id f l k :
  nth_error (update id f l) k
  = if Nat.eqb k id then option_map f (nth_error l k) else nth_error l k.
Proof.
  revert id k. induction l as [|t l IH]; intros id k.
  - cbn. destruct k; destruct (Nat.eqb _ id); reflexivity.
  - destruct id as [|id]; destruct k as [|k]; cbn; try reflexivity.
    apply IH.
Qed.

Lemma length_update id f l : List.length (update id f l) = List.length l.
Proof.
  revert id. induction l as [|t l IH]; intros [|id]; cbn; auto.
Qed.

Lemma after_calls_snoc cs c :
  after_calls (cs ++ [c]) = step (after_calls cs) c.
Proof. unfold after_calls. now rewrite fold_left_app. Qed.

Lemma after_calls_app cs post :
  after_calls (cs ++ post) = fold_left step post (after_calls cs).
Proof. unfold after_calls. now rewrite fold_left_app. Qed.

(** The timeouts whose [alive] is true are the one [cancelPending_]
    names. *)
Lemma alive_is_pending cs id t :
  nth_error (timeouts (after_calls cs)) id = Some t ->
  (alive t = true <-> cancelPending_ (after_calls cs) = Some id).
Proof.
  revert id t. induction cs as [|c cs IH] using rev_ind; intros id t.
  - destruct id; discriminate.
  - rewrite after_calls_snoc. set (s := after_calls cs) in *.
    assert (Hstop : forall k u,
              nth_error (timeouts (stop s)) k = Some u -> alive u = false).
    { intros k u. unfold stop.
      destruct (cancelPending_ s) as [p|] eqn:Ep; cbn [timeouts].
      - rewrite nth_error_update.
        destruct (Nat.eqb_spec k p) as [->|Hne].
        + destruct (nth_error (timeouts s) p); [|discriminate].
          intros H. injection H as <-. reflexivity.
        + intros H. destruct (alive u) eqn:Ea; [|reflexivity].
          apply (IH k u H) in Ea. congruence.
      - intros H. destruct (alive u) eqn:Ea; [|reflexivity].
        apply (IH k u H) in Ea. congruence. }
    destruct c as [d| |k]; cbn [step].
    + unfold tickAfter. cbn [timeouts cancelPending_]. intros H.
      destruct (Nat.lt_ge_cases id (List.length (timeouts (stop s))))
        as [Hlt|Hge].
      * rewrite nth_error_app1 in H by exact Hlt.
        rewrite (Hstop id t H). split; [discriminate|].
        intros E. injection E as E. lia.
      * rewrite nth_error_app2 in H by exact Hge.
        destruct (id - List.length (timeouts (stop s)))%nat as [|n] eqn:En.
        -- injection H as <-. cbn. split; [|reflexivity].
           intros _. f_equal. lia.
        -- destruct n; discriminate H.
    + intros H. rewrite (Hstop id t H).
      split; [discriminate|]. unfold stop.
      destruct (cancelPending_ s) eqn:Ep; cbn; [discriminate|].
      rewrite Ep. discriminate.
    + unfold run. destruct (nth_error (timeouts s) k) as [u|] eqn:Ek;
        [|apply IH].
      destruct (ran u); [apply IH|]. cbn [timeouts cancelPending_].
      rewrite nth_error_update.
      destruct (Nat.eqb_spec id k) as [->|Hne]; [|apply IH].
      rewrite Ek. cbn. intros H. injection H as <-. cbn. now apply IH.
Qed.

(** Once stopped, the object ticks no more while it is only run or
    stopped. *)
Lemma quiet_while_stopped post s :
  cancelPending_ s = None ->
  (forall id t, nth_error (timeouts s) id = Some t -> alive t = false) ->
  forallb (fun c => negb (is_TickAfter c)) post = true ->
  ticked (fold_left step post s) = ticked s.
Proof.
  revert s. induction post as [|c post IH]; intros s Hp Ha Hpost;
    [reflexivity|].
  cbn [fold_left]. cbn [forallb] in Hpost. apply andb_prop in Hpost.
  destruct Hpost as [Hc Hpost].
  destruct c as [d| |k]; [discriminate Hc| |]; cbn [step].
  - unfold stop. rewrite Hp. now apply IH.
  - unfold run. destruct (nth_error (timeouts s) k) as [u|] eqn:Ek;
      [|now apply IH].
    destruct (ran u); [now apply IH|].
    rewrite (Ha k u Ek). rewrite IH; [reflexivity|exact Hp| |exact Hpost].
    cbn [timeouts]. intros id t. rewrite nth_error_update.
    destruct (Nat.eqb_spec id k) as [->|_]; [|apply Ha].
    rewrite Ek. cbn. intros H. injection H as <-. cbn. exact (Ha k u Ek).
Qed.

Lemma stop_quiet cs :
  cancelPending_ (stop (after_calls cs)) = None
  /\ (forall id t, nth_error (timeouts (stop (after_calls cs))) id = Some t ->
                   alive t = false)
  /\ ticked (stop (after_calls cs)) = ticked (after_calls cs)
  /\ List.length (timeouts (stop (after_calls cs)))
     = List.length (timeouts (after_calls cs)).
Proof.
  pose proof (alive_is_pending (cs ++ [Stop])) as H.
  rewrite after_calls_snoc in H. cbn [step] in H.
  assert (Hp : cancelPending_ (stop (after_calls cs)) = None).
  { unfold stop. destruct (cancelPending_ (after_calls cs)) eqn:E;
      [reflexivity | exact E]. }
  split; [exact Hp|]. split; [|split].
  - intros id t Hn. destruct (alive t) eqn:Ea; [|reflexivity].
    apply (H id t Hn) in Ea. congruence.
  - unfold stop. now destruct (cancelPending_ (after_calls cs)).
  - unfold stop. destruct (cancelPending_ (after_calls cs)); [|reflexivity].
    cbn. apply length_update.
Qed.

(** After a [tickAfter] that made the timeout [id], and while the object
    is only run or stopped, [id] is the only timeout that can tick, and
    it ticks once at most. *)
Lemma one_tick post s id base :
  (forall k t, nth_error (timeouts s) k = Some t -> alive t = true -> k = id) ->
  (forall p, cancelPending_ s = Some p -> p = id) ->
  (ticked s = base
   \/ ticked s = base ++ [id]
      /\ exists t, nth_error (timeouts s) id = Some t /\ ran t = true) ->
  forallb (fun c => negb (is_TickAfter c)) post = true ->
  ticked (fold_left step post s) = base
  \/ ticked (fold_left step post s) = base ++ [id].
Proof.
  revert s. induction post as [|c post IH]; intros s Ha Hp Ht Hpost.
  - cbn. destruct Ht as [Ht|[Ht _]]; auto.
  - cbn [fold_left]. cbn [forallb] in Hpost. apply andb_prop in Hpost.
    destruct Hpost as [Hc Hpost].
    destruct c as [d| |k]; [discriminate Hc| |]; cbn [step];
      apply IH; try exact Hpost.
    + unfold stop. destruct (cancelPending_ s) as [p|] eqn:Ep; [|exact Ha].
      cbn [timeouts]. intros k t. rewrite nth_error_update.
      destruct (Nat.eqb_spec k p) as [->|_]; [|apply Ha].
      destruct (nth_error (timeouts s) p); [|discriminate].
      cbn. intros H. injection H as <-. discriminate.
    + intros p. unfold stop.
      destruct (cancelPending_ s) eqn:Ep; cbn; rewrite ?Ep; discriminate.
    + unfold stop. destruct (cancelPending_ s) as [p|] eqn:Ep; [|exact Ht].
      cbn [timeouts ticked]. destruct Ht as [Ht|[Ht (t & Hn & Hr)]]; [now left|].
      right. split; [exact Ht|]. rewrite nth_error_update, Hn.
      destruct (Nat.eqb id p); [exists (cancel t) | exists t]; auto.
    + unfold run. destruct (nth_error (timeouts s) k) as [u|] eqn:Ek;
        [|exact Ha].
      destruct (ran u); [exact Ha|]. cbn [timeouts].
      intros j t. rewrite nth_error_update.
      destruct (Nat.eqb_spec j k) as [->|_]; [|apply Ha].
      rewrite Ek. cbn. intros H. injection H as <-. cbn. exact (Ha k u Ek).
    + unfold run. destruct (nth_error (timeouts s) k) as [u|];
        [destruct (ran u)|]; exact Hp.
    + unfold run. destruct (nth_error (timeouts s) k) as [u|] eqn:Ek;
        [|exact Ht].
      destruct (ran u) eqn:Er; [exact Ht|]. cbn [timeouts ticked].
      destruct (alive u) eqn:Eu.
      * pose proof (Ha k u Ek Eu) as ->.
        destruct Ht as [Ht|[_ (t & Hn & Hr)]]; [|congruence].
        right. rewrite Ht. split; [reflexivity|].
        exists (mark_ran u). rewrite nth_error_update, Nat.eqb_refl, Ek.
        split; reflexivity.
      * destruct Ht as [Ht|[Ht (t & Hn & Hr)]]; [now left|].
        right. split; [exact Ht|]. rewrite nth_error_update, Hn.
        destruct (Nat.eqb_spec id k) as [->|_]; [|now exists t].
        congruence.
Qed.

(** Running other timeouts leaves the pending one as it is. *)
Lemma run_others runs s id t :
  ~ In id runs ->
  nth_error (timeouts s) id = Some t ->
  (forall k u, nth_error (timeouts s) k = Some u -> k <> id ->
               alive u = false) ->
  nth_error (timeouts (fold_left step (map Run runs) s)) id = Some t
  /\ ticked (fold_left step (map Run runs) s) = ticked s.
Proof.
  revert s. induction runs as [|k runs IH]; intros s Hin Hn Ha; [now split|].
  cbn [map fold_left step].
  assert (Hk : k <> id) by (intros ->; apply Hin; now left).
  assert (Hrest : ~ In id runs) by (intros H; apply Hin; now right).
  unfold run. destruct (nth_error (timeouts s) k) as [u|] eqn:Ek;
    [|now apply IH].
  destruct (ran u); [now apply IH|].
  rewrite (Ha k u Ek Hk).
  match goal with
  | |- context [fold_left step _ ?s1] =>
      destruct (IH s1 Hrest) as [H1 H2]
  end.
  - cbn [timeouts]. rewrite nth_error_update.
    destruct (Nat.eqb_spec id k) as [E|_]; [congruence | exact Hn].
  - cbn [timeouts]. intros j v. rewrite nth_error_update.
    destruct (Nat.eqb_spec j k) as [->|_]; [|apply Ha].
    rewrite Ek. cbn. intros H _. injection H as <-. cbn.
    exact (Ha k u Ek Hk).
  - split; [exact H1 | exact H2].
Qed.

End DelayedTickFacts.

(** X17. Whatever is called on a deferred call and whichever timeouts
    the runtime runs, the timeouts whose [alive] flag is set are exactly
    the one [cancelPending_] stands for: two timeouts of one object are
    never alive together. *)
Theorem X17_one_timeout_alive
    (cs : list DelayedTick.call) (id id' : nat)
    (t t' : DelayedTick.timeout) :
  let s := DelayedTick.after_calls cs in
  nth_error (DelayedTick.timeouts s) id = Some t ->
  nth_error (DelayedTick.timeouts s) id' = Some t' ->
  DelayedTick.alive t = true -> DelayedTick.alive t' = true ->
  id = id' /\ DelayedTick.cancelPending_ s = Some id.
Proof.
  intros s Hn Hn' Ha Ha'.
  apply (DelayedTickFacts.alive_is_pending cs id t Hn) in Ha.
  apply (DelayedTickFacts.alive_is_pending cs id' t' Hn') in Ha'.
  split; [congruence | exact Ha].
Qed.

(** X18. Once [stop] is called, [onTick_] is not called again before the
    next [tickAfter], even if the runtime runs a timeout it was asked to
    clear. *)
Theorem X18_no_tick_after_stop (cs post : list DelayedTick.call) :
  forallb (fun c => negb (DelayedTick.is_TickAfter c)) post = true ->
  DelayedTick.ticked (DelayedTick.after_calls (cs ++ DelayedTick.Stop :: post))
  = DelayedTick.ticked (DelayedTick.after_calls cs).
Proof.
  intros Hpost. rewrite DelayedTickFacts.after_calls_app. cbn [fold_left].
  cbn [DelayedTick.step].
  destruct (DelayedTickFacts.stop_quiet cs) as (Hp & Ha & Ht & _).
  rewrite <- Ht. now apply DelayedTickFacts.quiet_while_stopped.
Qed.

(** X19. A call of [tickAfter] cancels the pending call and arranges one:
    until the next [tickAfter], [onTick_] is called once at most, and only
    by the timeout this call has made; timeouts made before never tick
    again. *)
Theorem X19_tickAfter_ticks_once_at_most
    (cs post : list DelayedTick.call) (delayInSeconds : Z) :
  forallb (fun c => negb (DelayedTick.is_TickAfter c)) post = true ->
  let before := DelayedTick.after_calls cs in
  let timeoutId := List.length (DelayedTick.timeouts before) in
  let s := DelayedTick.after_calls
             (cs ++ DelayedTick.TickAfter delayInSeconds :: post) in
  DelayedTick.ticked s = DelayedTick.ticked before
  \/ DelayedTick.ticked s = DelayedTick.ticked before ++ [timeoutId].
Proof.
  intros Hpost before timeoutId s. unfold s.
  rewrite DelayedTickFacts.after_calls_app. cbn [fold_left].
  cbn [DelayedTick.step]. fold before.
  destruct (DelayedTickFacts.stop_quiet cs) as (Hp & Ha & Ht & Hl).
  fold before in Hp, Ha, Ht, Hl.
  apply DelayedTickFacts.one_tick; try exact Hpost;
    unfold DelayedTick.tickAfter; cbn [DelayedTick.timeouts
      DelayedTick.cancelPending_ DelayedTick.ticked].
  - intros k t Hn Halive.
    destruct (Nat.lt_ge_cases k timeoutId) as [Hlt|Hge].
    + rewrite nth_error_app1 in Hn by (rewrite Hl; exact Hlt).
      rewrite (Ha k t Hn) in Halive. discriminate.
    + rewrite nth_error_app2 in Hn by (rewrite Hl; exact Hge).
      rewrite Hl in Hn. fold timeoutId in Hn.
      destruct (k - timeoutId)%nat as [|n] eqn:En; [lia|].
      destruct n; discriminate Hn.
  - intros p H. injection H as <-. exact Hl.
  - left. exact Ht.
Qed.

(** X20. After [tickAfter], if nothing is called on the object, the
    call takes place when the runtime runs the timeout: [onTick_] is
    called, once, whichever older timeouts the runtime runs before. *)
Theorem X20_pending_tick_takes_place
    (cs : list DelayedTick.call) (delayInSeconds : Z) (runs : list nat) :
  let before := DelayedTick.after_calls cs in
  let timeoutId := List.length (DelayedTick.timeouts before) in
  ~ In timeoutId runs ->
  DelayedTick.ticked
    (DelayedTick.after_calls
       (cs ++ DelayedTick.TickAfter delayInSeconds
           :: map DelayedTick.Run runs ++ [DelayedTick.Run timeoutId]))
  = DelayedTick.ticked before ++ [timeoutId].
Proof.
  intros before timeoutId Hin.
  rewrite DelayedTickFacts.after_calls_app. cbn [fold_left].
  rewrite fold_left_app. cbn [fold_left DelayedTick.step]. fold before.
  destruct (DelayedTickFacts.stop_quiet cs) as (Hp & Ha & Ht & Hl).
  fold before in Hp, Ha, Ht, Hl.
  set (new := {| DelayedTick.millis := delayInSeconds * 1000;
                 DelayedTick.alive := true; DelayedTick.cleared := false;
                 DelayedTick.ran := false |}).
  destruct (DelayedTickFacts.run_others runs
              (DelayedTick.tickAfter delayInSeconds before) timeoutId new Hin)
    as [Hn Hticked].
  - unfold DelayedTick.tickAfter. cbn [DelayedTick.timeouts].
    rewrite nth_error_app2 by (rewrite Hl; apply Nat.le_refl).
    rewrite Hl. unfold timeoutId. now rewrite Nat.sub_diag.
  - unfold DelayedTick.tickAfter. cbn [DelayedTick.timeouts].
    intros k u Hk Hne.
    destruct (Nat.lt_ge_cases k timeoutId) as [Hlt|Hge].
    + rewrite nth_error_app1 in Hk by (rewrite Hl; exact Hlt).
      exact (Ha k u Hk).
    + rewrite nth_error_app2 in Hk by (rewrite Hl; exact Hge).
      rewrite Hl in Hk. fold timeoutId in Hk.
      destruct (k - timeoutId)%nat as [|n] eqn:En; [lia|].
      destruct n; discriminate Hk.
  - unfold DelayedTick.run at 1. rewrite Hn. cbn [DelayedTick.ran new].
    cbn [DelayedTick.ticked DelayedTick.alive]. rewrite Hticked.
    unfold DelayedTick.tickAfter. cbn [DelayedTick.ticked]. now rewrite Ht.
Qed.

(** Two calls of [tickAfter]: the second timeout is the one alive. *)
Lemma X17_one_timeout_alive_witness :
  let cs := [DelayedTick.TickAfter 5; DelayedTick.TickAfter 3] in
  DelayedTick.cancelPending_ (DelayedTick.after_calls cs) = Some 1%nat.
Proof.
  intros cs.
  exact (proj2 (X17_one_timeout_alive cs 1 1
                  {| DelayedTick.millis := 3000; DelayedTick.alive := true;
                     DelayedTick.cleared := false; DelayedTick.ran := false |}
                  {| DelayedTick.millis := 3000; DelayedTick.alive := true;
                     DelayedTick.cleared := false; DelayedTick.ran := false |}
                  eq_refl eq_refl eq_refl eq_refl)).
Defined.

(** A timeout that runs although it was cleared does not tick. *)
Lemma X18_no_tick_after_stop_witness :
  DelayedTick.ticked
    (DelayedTick.after_calls
       [DelayedTick.TickAfter 5; DelayedTick.Stop; DelayedTick.Run 0])
  = [].
Proof.
  exact (X18_no_tick_after_stop [DelayedTick.TickAfter 5]
           [DelayedTick.Run 0] eq_refl).
Defined.

(** A second [tickAfter] after the first timeout has ticked. *)
Lemma X19_tickAfter_ticks_once_at_most_witness :
  let s := DelayedTick.after_calls
             [DelayedTick.TickAfter 5; DelayedTick.Run 0;
              DelayedTick.TickAfter 3; DelayedTick.Run 1; DelayedTick.Run 0;
              DelayedTick.Stop; DelayedTick.Run 1] in
  DelayedTick.ticked s = [0%nat] \/ DelayedTick.ticked s = [0%nat; 1%nat].
Proof.
  exact (X19_tickAfter_ticks_once_at_most
           [DelayedTick.TickAfter 5; DelayedTick.Run 0]
           [DelayedTick.Run 1; DelayedTick.Run 0; DelayedTick.Stop;
            DelayedTick.Run 1] 3 eq_refl).
Defined.

(** The runtime runs the replaced timeout first, then the pending one. *)
Lemma X20_pending_tick_takes_place_witness :
  DelayedTick.ticked
    (DelayedTick.after_calls
       [DelayedTick.TickAfter 5; DelayedTick.TickAfter 3; DelayedTick.Run 0;
        DelayedTick.Run 1])
  = [1%nat].
Proof.
  apply (X20_pending_tick_takes_place [DelayedTick.TickAfter 5] 3 [0%nat]).
  cbn. intros [H|[]]. discriminate H.
Defined.


(* ================================================================== *)
(** * Further properties: the playlist over a whole cycle *)
(* ================================================================== *)

Lemma last_n_all {A : Type} (k : nat) (l : list A) :
  (List.length l <= k)%nat -> last_n k l = l.
Proof.
  intros H. unfold last_n.
  replace (List.length l - k)%nat with 0%nat by lia. reflexivity.
Qed.

Lemma last_n_push {A : Type} (k : nat) (l : list A) (x : A) :
  (0 < k)%nat -> last_n k (last_n k l ++ [x]) = last_n k (l ++ [x]).
Proof.
  intros Hk. destruct (Nat.le_gt_cases (List.length l) k) as [Hle|Hgt].
  - now rewrite (last_n_all k l Hle).
  - unfold last_n at 1 3. rewrite !length_app, length_last_n.
    cbn [List.length]. rewrite Nat.min_l by lia.
    unfold last_n.
    replace (List.length l + 1 - k)%nat
      with ((k + 1 - k) + (List.length l - k))%nat by lia.
    rewrite <- skipn_skipn. f_equal.
    rewrite skipn_app.
    replace (List.length l - k - List.length l)%nat with 0%nat by lia.
    reflexivity.
Qed.

Lemma segmentItems_set_first newFirst h e :
  Js.includes extinf_marker h = false ->
  Js.includes extinf_marker newFirst = false ->
  segmentItems (Js.set_first newFirst (h :: e)) = segmentItems (h :: e).
Proof.
  intros Hh Hn. unfold segmentItems. cbn [Js.set_first filter].
  now rewrite Hh, Hn.
Qed.

Section Window.

Variable env : environment.

(** The directive of a header can be read. *)
Lemma header_sequenceNumber h :
  regEx_exec h <> None -> exists n, sequenceNumber h = Some n.
Proof.
  intros Hm. destruct (bumpMediaSequence h) as [new|] eqn:Eb.
  - destruct (StringFacts.bumpMediaSequence_succ _ _ Eb) as (n & Hn & _).
    now exists n.
  - unfold bumpMediaSequence in Eb.
    destruct (regEx_exec h) as [[[pre m] post]|]; [discriminate|congruence].
Qed.

(** An append slides the window by one entry. *)
Lemma append_window t path d name w n0 pushed :
  (forall h p, unlink_ok env h p = true) ->
  (forall h p c, write_ok env h p c = true) ->
  0 < maxSegmentNum_ (this w) ->
  let capacity := Z.to_nat (maxSegmentNum_ (this w)) in
  window capacity n0 pushed (mediaPlaylistTemplate t w) ->
  exists w',
    updateMediaPlaylist env t path d name w = (w', inr tt)
    /\ window capacity n0 (pushed ++ [segmentTemplate d (name ++ ".mp4")])
         (mediaPlaylistTemplate t w')
    /\ this w' = this w
    /\ mediaPlaylistTemplate (other t) w' = mediaPlaylistTemplate (other t) w.
Proof.
  intros Hu Hw HM capacity (Hhf & Hitems & Hseq).
  set (a := mediaPlaylistTemplate t w) in *.
  set (item := segmentTemplate d (name ++ ".mp4")).
  destruct (append_keeps_header env t path d name w Hu Hw Hhf)
    as (w' & E & Hhf' & Hthis & Hother); [lia|].
  exists w'. split; [exact E|]. split; [|split; assumption].
  split; [exact Hhf'|].
  destruct (header_first_inv a Hhf) as (h & rest & Ea & Hh & Hm).
  assert (Hcount : entry_count a = Nat.min capacity (List.length pushed)).
  { unfold entry_count. now rewrite Hitems, length_last_n. }
  apply updateMediaPlaylist_returns in E. cbv zeta in E.
  fold a item in E. destruct E as [_ E].
  destruct (Z.eqb_spec (Z.of_nat (entry_count a)) (maxSegmentNum_ (this w)))
    as [Efull|Enot].
  - assert (Hlen : (capacity <= List.length pushed)%nat) by lia.
    destruct E as (old & newFirst & Hold & Hb & -> & _).
    destruct (evicted_oldest a old Hold) as (_ & _ & _ & _ & Hs & _ & Hhd).
    specialize (Hhd h). rewrite Ea in Hhd. specialize (Hhd eq_refl Hh).
    rewrite <- Ea in Hhd. rewrite Hhd in Hb. cbn [Js.str] in Hb.
    destruct (evicted a) as [|h' e] eqn:Ee; [discriminate Hhd|].
    injection Hhd as ->.
    pose proof (StringFacts.bumpMediaSequence_includes _ _ Hb) as Hinc.
    rewrite Hh in Hinc.
    destruct (StringFacts.bumpMediaSequence_succ _ _ Hb) as (n & Hn & Hn').
    split.
    + unfold item. rewrite segmentItems_push.
      rewrite (segmentItems_set_first newFirst h e Hh Hinc), Hs, Hitems.
      unfold last_n. rewrite length_app. cbn [List.length].
      replace (List.length pushed + 1 - capacity)%nat
        with (1 + (List.length pushed - capacity))%nat by lia.
      rewrite <- skipn_skipn, skipn_app.
      replace (List.length pushed - capacity - List.length pushed)%nat
        with 0%nat by lia.
      cbn [skipn].
      destruct (skipn (List.length pushed - capacity) pushed) as [|x l] eqn:Es;
        [|reflexivity].
      apply (f_equal (@List.length string)) in Es.
      rewrite length_skipn in Es. cbn in Es. lia.
    + unfold mediaSequence in *. rewrite Ea in Hseq.
      cbn [Js.set_first app hd_error Js.str] in *.
      rewrite Hn in Hseq. injection Hseq as ->. rewrite Hn'.
      rewrite length_app. cbn [List.length]. f_equal. lia.
  - assert (Hlen : (List.length pushed < capacity)%nat) by lia.
    destruct E as [-> _]. split.
    + unfold item. rewrite segmentItems_push, Hitems.
      rewrite !last_n_all; [reflexivity| |lia].
      rewrite length_app. cbn [List.length]. lia.
    + unfold mediaSequence in *. rewrite Ea in *. cbn [app hd_error] in *.
      rewrite Hseq, length_app. cbn [List.length]. f_equal. lia.
Qed.

Hypothesis Hobeys : obeys env.

Variable o : segment_saver.
Hypothesis Hcapacity : 0 < maxSegmentNum_ o.

(** A pass slides the window of its track by what it pushes and leaves
    the other playlist alone. *)
Lemma processTrack_window i t lv w n0 pushed url :
  this w = o ->
  nth_error (fst (trackLists t o)) i = Some url ->
  window (Z.to_nat (maxSegmentNum_ o)) n0 pushed (mediaPlaylistTemplate t w) ->
  exists w' lv',
    processTrack env (audioSegmentURIList_ o) (videoSegmentURIList_ o)
      (audioSegmentDurationList_ o) (videoSegmentDurationList_ o)
      (decryptKey_ o) (keyId_ o) i t lv w = (w', inr lv')
    /\ this w' = o
    /\ window (Z.to_nat (maxSegmentNum_ o)) n0 (pushed ++ pushedAt o t i)
         (mediaPlaylistTemplate t w')
    /\ mediaPlaylistTemplate (other t) w' = mediaPlaylistTemplate (other t) w.
Proof.
  intros Hthis Hurl Hwin.
  destruct Hobeys as (Hd & Hm & He & Hu & Hw & _).
  unfold pushedAt. rewrite Hurl.
  unfold processTrack, bind, get_this.
  replace (nth_error (uriList (audioSegmentURIList_ o)
                        (videoSegmentURIList_ o) t) i) with (Some url)
    by (destruct t; exact (eq_sym Hurl)).
  unfold socks5_http_download. rewrite Hd.
  destruct (negb (segmentName url =? initFile)%string).
  - unfold mergeFiles. cbn [record history this]. rewrite Hm.
    unfold shell_exec. cbn [record history this]. rewrite He.
    cbn [Z.eqb negb].
    match goal with
    | |- context [updateMediaPlaylist env t ?p ?d ?n ?w3] =>
        destruct (append_window t p d n w3 n0 pushed Hu Hw)
          as (w' & E & Hwin' & Hthis' & Hother);
        [cbn [record this]; rewrite Hthis; exact Hcapacity
        |cbn [record this]; rewrite Hthis; now destruct t
        |rewrite E]
    end.
    cbn [record this] in Hwin', Hthis'. rewrite Hthis in Hwin', Hthis'.
    eexists _, _. split; [reflexivity|]. split; [exact Hthis'|].
    split.
    + replace (nth_error (snd (trackLists t o)) i)
        with (nth_error (durationList (audioSegmentDurationList_ o)
                           (videoSegmentDurationList_ o) t) i)
        by now destruct t.
      exact Hwin'.
    + rewrite Hother. now destruct t.
  - eexists _, _. split; [reflexivity|]. cbn [record this].
    split; [exact Hthis|]. rewrite app_nil_r.
    split; now destruct t.
Qed.

Lemma for_each_window xs lv w nA nV pushedA pushedV :
  (forall i, In i xs -> (i < List.length (audioSegmentURIList_ o))%nat
                        /\ (i < List.length (videoSegmentURIList_ o))%nat) ->
  this w = o ->
  window (Z.to_nat (maxSegmentNum_ o)) nA pushedA (audioMediaPLTemplate w) ->
  window (Z.to_nat (maxSegmentNum_ o)) nV pushedV (videoMediaPLTemplate w) ->
  exists w' lv',
    for_each
      (processIndex env (audioSegmentURIList_ o) (videoSegmentURIList_ o)
         (audioSegmentDurationList_ o) (videoSegmentDurationList_ o)
         (decryptKey_ o) (keyId_ o)) xs lv w = (w', inr lv')
    /\ this w' = o
    /\ window (Z.to_nat (maxSegmentNum_ o)) nA
         (pushedA ++ flat_map (pushedAt o Audio) xs) (audioMediaPLTemplate w')
    /\ window (Z.to_nat (maxSegmentNum_ o)) nV
         (pushedV ++ flat_map (pushedAt o Video) xs) (videoMediaPLTemplate w').
Proof.
  revert lv w pushedA pushedV.
  induction xs as [|i xs IH]; intros lv w pushedA pushedV Hin Hthis HA HV.
  - exists w, lv. cbn. rewrite !app_nil_r. auto.
  - destruct (Hin i (or_introl eq_refl)) as [HiA HiV].
    destruct (nth_error (audioSegmentURIList_ o) i) as [a|] eqn:Ea.
    2:{ apply nth_error_None in Ea. lia. }
    destruct (nth_error (videoSegmentURIList_ o) i) as [v|] eqn:Ev.
    2:{ apply nth_error_None in Ev. lia. }
    destruct (processTrack_window i Audio lv w nA pushedA a Hthis Ea HA)
      as (w1 & lv1 & E1 & T1 & A1 & V1).
    cbn [other mediaPlaylistTemplate] in A1, V1. rewrite <- V1 in HV.
    destruct (processTrack_window i Video lv1 w1 nV pushedV v T1 Ev HV)
      as (w2 & lv2 & E2 & T2 & V2 & A2).
    cbn [other mediaPlaylistTemplate] in A2, V2. rewrite <- A2 in A1.
    destruct (IH lv2 w2 _ _ (fun j Hj => Hin j (or_intror Hj)) T2 A1 V2)
      as (w' & lv' & E & T & A & V).
    assert (EI : processIndex env (audioSegmentURIList_ o)
                   (videoSegmentURIList_ o) (audioSegmentDurationList_ o)
                   (videoSegmentDurationList_ o) (decryptKey_ o) (keyId_ o)
                   i lv w = (w2, inr lv2)).
    { unfold processIndex, bind. rewrite E1. cbv beta iota. exact E2. }
    exists w', lv'. cbn [for_each flat_map]. unfold bind at 1. rewrite EI.
    rewrite !app_assoc. auto.
Qed.

End Window.


